(** * A shallow embedding of the client-go transaction core

    The development follows the Go sources package by package:
    - [transaction]: txnkv/transaction/prewrite.go, the prewrite action of
      the two-phase committer;
    - [mocktikv]: internal/mockstore/mocktikv/mvcc_leveldb.go, the MVCC
      reference engine over an ordered key-value store;
    - [locate]: internal/locate/region_cache.go, key lookup in the region
      cache.

    Go [uint64] values are integers in [Z] with the wrap-around written out,
    byte slices are [list byte], structs are records and enums are inductive
    types.  Part I holds the model, Part II the properties. *)

From Stdlib Require Import ZArith List Bool Lia Sorted.
From Stdlib.Strings Require Import Byte String.
Import ListNotations.
Open Scope Z_scope.

(** * Part I: the model *)

(** ** Machine integers *)

Module U64.
Definition modulus : Z := 2 ^ 64.
(** [math.MaxUint64] *)
Definition MaxUint64 : Z := modulus - 1.
Definition wrap (x : Z) : Z := x mod modulus.
Definition add (a b : Z) : Z := wrap (a + b).
Definition sub (a b : Z) : Z := wrap (a - b).
Definition in_range (x : Z) : Prop := 0 <= x <= MaxUint64.
End U64.

Module I64.
Definition wrap (x : Z) : Z := (x + 2 ^ 63) mod 2 ^ 64 - 2 ^ 63.
Definition sub (a b : Z) : Z := wrap (a - b).
End I64.

(** ** Byte slices and their order ([bytes.Compare], [bytes.Equal]) *)

Definition bytes := list byte.

Definition byte_cmp (x y : byte) : comparison := N.compare (Byte.to_N x) (Byte.to_N y).

Definition bytes_Compare (a b : bytes) : comparison := list_compare byte_cmp a b.

Definition bytes_Equal (a b : bytes) : bool :=
  match bytes_Compare a b with Eq => true | _ => false end.

Definition is_Lt (c : comparison) : bool := match c with Lt => true | _ => false end.
Definition is_Le (c : comparison) : bool := match c with Gt => false | _ => true end.

(** A byte slice written as a string literal *)
Definition B (s : string) : bytes := list_byte_of_string s.

(** [len(b)] as a Go [int] *)
Definition len {A} (l : list A) : Z := Z.of_nat (List.length l).

(** ** Protocol messages (kvrpcpb) *)

Module kvrpcpb.

Inductive Op :=
| Op_Put | Op_Del | Op_Lock | Op_Rollback | Op_Insert
| Op_PessimisticLock | Op_CheckNotExists.

Inductive Assertion := Assertion_None | Assertion_Exist | Assertion_NotExist.

Inductive AssertionLevel := AssertionLevel_Off | AssertionLevel_Fast | AssertionLevel_Strict.

Inductive IsolationLevel := IsolationLevel_SI | IsolationLevel_RC.

Inductive Action :=
| Action_NoAction
| Action_TTLExpireRollback
| Action_LockNotExistRollback
| Action_MinCommitTSPushed
| Action_TTLExpirePessimisticRollback
| Action_LockNotExistDoNothing.

Definition Op_eqb (a b : Op) : bool :=
  match a, b with
  | Op_Put, Op_Put | Op_Del, Op_Del | Op_Lock, Op_Lock | Op_Rollback, Op_Rollback
  | Op_Insert, Op_Insert | Op_PessimisticLock, Op_PessimisticLock
  | Op_CheckNotExists, Op_CheckNotExists => true
  | _, _ => false
  end.

Definition Assertion_eqb (a b : Assertion) : bool :=
  match a, b with
  | Assertion_None, Assertion_None | Assertion_Exist, Assertion_Exist
  | Assertion_NotExist, Assertion_NotExist => true
  | _, _ => false
  end.

Definition AssertionLevel_eqb (a b : AssertionLevel) : bool :=
  match a, b with
  | AssertionLevel_Off, AssertionLevel_Off | AssertionLevel_Fast, AssertionLevel_Fast
  | AssertionLevel_Strict, AssertionLevel_Strict => true
  | _, _ => false
  end.

Definition IsolationLevel_eqb (a b : IsolationLevel) : bool :=
  match a, b with
  | IsolationLevel_SI, IsolationLevel_SI | IsolationLevel_RC, IsolationLevel_RC => true
  | _, _ => false
  end.

Record Mutation := {
  Mutation_Op : Op;
  Mutation_Key : bytes;
  Mutation_Value : bytes;
  Mutation_Assertion : Assertion
}.

Record PrewriteRequest := {
  Mutations : list Mutation;
  PrimaryLock : bytes;
  StartVersion : Z;
  LockTtl : Z;
  IsPessimisticLock : list bool;
  ForUpdateTs : Z;
  TxnSize : Z;
  MinCommitTs : Z;
  MaxCommitTs : Z;
  ReqAssertionLevel : AssertionLevel;
  Secondaries : list bytes;
  UseAsyncCommit : bool;
  TryOnePc : bool;
  (** [req.Context.ResolvedLocks] *)
  ResolvedLocks : list Z
}.

(** The fields of a prewrite response that the committer reads; a key
    error is kept opaque. *)
Record PrewriteResponse := {
  Errors : list bytes;
  RespMinCommitTs : Z;
  OnePcCommitTs : Z
}.

End kvrpcpb.

(** ** The prewrite action of the committer (prewrite.go) *)

Module transaction.
Import kvrpcpb.

(** The failpoints that prewrite.go evaluates while it builds a request;
    [None] and [false] stand for a failpoint that is not enabled
    ([util.EvalFailpoint] returns an error). *)
Record Failpoints := {
  mockZeroCommitTS : option Z;
  twoPCShortLockTTL : bool;
  assertionSkipCheckFromPrewrite : bool;
  invalidMaxCommitTS : bool
}.

Definition noFailpoints : Failpoints :=
  {| mockZeroCommitTS := None; twoPCShortLockTTL := false;
     assertionSkipCheckFromPrewrite := false; invalidMaxCommitTS := false |}.

(** One entry of [CommitterMutations], read through [GetOp], [GetKey],
    [GetValue], [IsAssertExists], [IsAssertNotExist] and
    [IsPessimisticLock]. *)
Record committerMutation := {
  mutOp : Op;
  mutKey : bytes;
  mutValue : bytes;
  mutIsAssertExists : bool;
  mutIsAssertNotExist : bool;
  mutIsPessimisticLock : bool
}.

Record batchMutations := {
  region : Z;
  mutations : list committerMutation;
  isPrimary : bool
}.

(** The fields of [twoPhaseCommitter] that the prewrite action reads and
    writes.  [useAsyncCommit] and [useOnePC] are the flags behind
    [isAsyncCommit]/[setAsyncCommit] and [isOnePC]/[setOnePC];
    [primaryKey] and [asyncSecondaries] are what [c.primary()] and
    [c.asyncSecondaries()] return; [ttlManagerRunning] records that
    [c.run] started the keep-alive task. *)
Record twoPhaseCommitter := {
  startTS : Z;
  forUpdateTS : Z;
  minCommitTS : Z;
  maxCommitTS : Z;
  lockTTL : Z;
  sessionID : Z;
  txnSize : Z;
  assertionLevel : AssertionLevel;
  primaryKey : bytes;
  asyncSecondaries : list bytes;
  useAsyncCommit : bool;
  useOnePC : bool;
  onePCCommitTS : Z;
  isPessimistic : bool;
  prewriteCancelled : bool;
  undeterminedErr : option string;
  ttlManagerRunning : bool;
  noFallBack : bool
}.

Definition isAsyncCommit (c : twoPhaseCommitter) : bool := useAsyncCommit c.
Definition isOnePC (c : twoPhaseCommitter) : bool := useOnePC c.

Definition with_flags (c : twoPhaseCommitter) (async onePC : bool) : twoPhaseCommitter :=
  {| startTS := startTS c; forUpdateTS := forUpdateTS c; minCommitTS := minCommitTS c;
     maxCommitTS := maxCommitTS c; lockTTL := lockTTL c; sessionID := sessionID c;
     txnSize := txnSize c; assertionLevel := assertionLevel c; primaryKey := primaryKey c;
     asyncSecondaries := asyncSecondaries c; useAsyncCommit := async; useOnePC := onePC;
     onePCCommitTS := onePCCommitTS c; isPessimistic := isPessimistic c;
     prewriteCancelled := prewriteCancelled c; undeterminedErr := undeterminedErr c;
     ttlManagerRunning := ttlManagerRunning c; noFallBack := noFallBack c |}.

Definition setOnePC (c : twoPhaseCommitter) (b : bool) : twoPhaseCommitter :=
  with_flags c (useAsyncCommit c) b.

Definition setAsyncCommit (c : twoPhaseCommitter) (b : bool) : twoPhaseCommitter :=
  with_flags c b (useOnePC c).

Definition set_onePCCommitTS (c : twoPhaseCommitter) (ts : Z) : twoPhaseCommitter :=
  {| startTS := startTS c; forUpdateTS := forUpdateTS c; minCommitTS := minCommitTS c;
     maxCommitTS := maxCommitTS c; lockTTL := lockTTL c; sessionID := sessionID c;
     txnSize := txnSize c; assertionLevel := assertionLevel c; primaryKey := primaryKey c;
     asyncSecondaries := asyncSecondaries c; useAsyncCommit := useAsyncCommit c;
     useOnePC := useOnePC c; onePCCommitTS := ts; isPessimistic := isPessimistic c;
     prewriteCancelled := prewriteCancelled c; undeterminedErr := undeterminedErr c;
     ttlManagerRunning := ttlManagerRunning c; noFallBack := noFallBack c |}.

Definition set_minCommitTS (c : twoPhaseCommitter) (ts : Z) : twoPhaseCommitter :=
  {| startTS := startTS c; forUpdateTS := forUpdateTS c; minCommitTS := ts;
     maxCommitTS := maxCommitTS c; lockTTL := lockTTL c; sessionID := sessionID c;
     txnSize := txnSize c; assertionLevel := assertionLevel c; primaryKey := primaryKey c;
     asyncSecondaries := asyncSecondaries c; useAsyncCommit := useAsyncCommit c;
     useOnePC := useOnePC c; onePCCommitTS := onePCCommitTS c; isPessimistic := isPessimistic c;
     prewriteCancelled := prewriteCancelled c; undeterminedErr := undeterminedErr c;
     ttlManagerRunning := ttlManagerRunning c; noFallBack := noFallBack c |}.

(** [c.run(c, nil)]: start the TTL keep-alive task. *)
Definition run (c : twoPhaseCommitter) : twoPhaseCommitter :=
  {| startTS := startTS c; forUpdateTS := forUpdateTS c; minCommitTS := minCommitTS c;
     maxCommitTS := maxCommitTS c; lockTTL := lockTTL c; sessionID := sessionID c;
     txnSize := txnSize c; assertionLevel := assertionLevel c; primaryKey := primaryKey c;
     asyncSecondaries := asyncSecondaries c; useAsyncCommit := useAsyncCommit c;
     useOnePC := useOnePC c; onePCCommitTS := onePCCommitTS c; isPessimistic := isPessimistic c;
     prewriteCancelled := prewriteCancelled c; undeterminedErr := undeterminedErr c;
     ttlManagerRunning := true; noFallBack := noFallBack c |}.

Definition setUndeterminedErr (c : twoPhaseCommitter) (e : string) : twoPhaseCommitter :=
  {| startTS := startTS c; forUpdateTS := forUpdateTS c; minCommitTS := minCommitTS c;
     maxCommitTS := maxCommitTS c; lockTTL := lockTTL c; sessionID := sessionID c;
     txnSize := txnSize c; assertionLevel := assertionLevel c; primaryKey := primaryKey c;
     asyncSecondaries := asyncSecondaries c; useAsyncCommit := useAsyncCommit c;
     useOnePC := useOnePC c; onePCCommitTS := onePCCommitTS c; isPessimistic := isPessimistic c;
     prewriteCancelled := prewriteCancelled c; undeterminedErr := Some e;
     ttlManagerRunning := ttlManagerRunning c; noFallBack := noFallBack c |}.

Definition buildMutation (m : committerMutation) : Mutation :=
  let assertion := Assertion_None in
  let assertion := if mutIsAssertExists m then Assertion_Exist else assertion in
  let assertion := if mutIsAssertNotExist m then Assertion_NotExist else assertion in
  {| Mutation_Op := mutOp m; Mutation_Key := mutKey m; Mutation_Value := mutValue m;
     Mutation_Assertion := assertion |}.

(** The [minCommitTS] that [buildPrewriteRequest] computes before the
    failpoint: the conditional chain on [forUpdateTS], [startTS] and the
    committer's [minCommitTS], with [uint64] addition. *)
Definition requestMinCommitTS (c : twoPhaseCommitter) : Z :=
  let minCommitTS0 := minCommitTS c in
  if (0 <? forUpdateTS c) && (minCommitTS0 <=? forUpdateTS c) then
    U64.add (forUpdateTS c) 1
  else if minCommitTS0 <=? startTS c then
    U64.add (startTS c) 1
  else minCommitTS0.

Definition buildPrewriteRequest (fp : Failpoints) (c : twoPhaseCommitter)
    (batch : batchMutations) (txnSize : Z) : PrewriteRequest :=
  let m := mutations batch in
  let mutations := map buildMutation m in
  let isPessimisticLock := map mutIsPessimisticLock m in
  let minCommitTS := requestMinCommitTS c in
  let minCommitTS :=
    match mockZeroCommitTS fp with
    | Some tmp => if U64.wrap tmp =? startTS c then 0 else minCommitTS
    | None => minCommitTS
    end in
  let ttl := lockTTL c in
  let ttl := if (0 <? sessionID c) && twoPCShortLockTTL fp then 1 else ttl in
  let assertionLevel := assertionLevel c in
  let assertionLevel :=
    if assertionSkipCheckFromPrewrite fp then AssertionLevel_Off else assertionLevel in
  let maxCommitTs := maxCommitTS c in
  let maxCommitTs :=
    if invalidMaxCommitTS fp && (0 <? maxCommitTs) then U64.sub minCommitTS 1
    else maxCommitTs in
  {| Mutations := mutations;
     PrimaryLock := primaryKey c;
     StartVersion := startTS c;
     LockTtl := ttl;
     IsPessimisticLock := isPessimisticLock;
     ForUpdateTs := forUpdateTS c;
     TxnSize := txnSize;
     MinCommitTs := minCommitTS;
     MaxCommitTs := maxCommitTs;
     ReqAssertionLevel := assertionLevel;
     Secondaries := if isAsyncCommit c && isPrimary batch then asyncSecondaries c else [];
     UseAsyncCommit := isAsyncCommit c;
     TryOnePc := isOnePC c;
     ResolvedLocks := [] |}.

(** What [sender.SendReq] and the first look at the response give in one
    turn of the loop of [handleSingleBatch]. *)
Inductive sendResult :=
| SendReqError
| GetRegionErrorFailed
| RegionError
| BodyMissing
| PrewriteResp (resp : PrewriteResponse).

(** How one turn of the loop ends.  [Return c err] is [return err] with the
    committer left as [c]; [Fatal] is [logutil ... Fatal], which ends the
    process; [RetryRegionError] and [RetryKeyErrors] are the two branches
    that back off, relocate or resolve locks and go round the loop again
    (their collaborators, the backoffer, the region cache and the lock
    resolver, are outside this file). *)
Inductive batchResult :=
| Return (c : twoPhaseCommitter) (err : option string)
| Fatal (msg : string)
| RetryRegionError
| RetryKeyErrors.

(** The deferred function of [handleSingleBatch]: on an error of an
    async-commit or 1PC prewrite whose RPC failed and that was not
    cancelled, record the undetermined error. *)
Definition deferred (c : twoPhaseCommitter) (rpcError : option string)
    (err : option string) : twoPhaseCommitter :=
  match err, rpcError with
  | Some _, Some e =>
      if (isAsyncCommit c || isOnePC c) && negb (prewriteCancelled c)
      then setUndeterminedErr c e else c
  | _, _ => c
  end.

(** One turn of the loop of [actionPrewrite.handleSingleBatch], from the
    result of [sender.SendReq] on.  [TTLRefreshedTxnSize] is the value of
    [config.GetGlobalConfig().TiKVClient.TTLRefreshedTxnSize] and
    [rpcError] is what [sender.GetRPCError()] holds after the call. *)
Definition handleSingleBatch (TTLRefreshedTxnSize : Z) (c : twoPhaseCommitter)
    (batch : batchMutations) (rpcError : option string) (r : sendResult) : batchResult :=
  match r with
  | SendReqError =>
      let err := Some "send request failed"%string in
      Return (deferred c rpcError err) err
  | GetRegionErrorFailed =>
      let err := Some "get region error failed"%string in
      Return (deferred c rpcError err) err
  | RegionError => RetryRegionError
  | BodyMissing =>
      let err := Some "body missing"%string in
      Return (deferred c rpcError err) err
  | PrewriteResp prewriteResp =>
      match Errors prewriteResp with
      | [] =>
          (* sender.SetRPCError(nil): the deferred function records nothing from here on *)
          let c :=
            if isPrimary batch && (TTLRefreshedTxnSize <? txnSize c)
               && (OnePcCommitTs prewriteResp =? 0)
            then run c else c in
          if isOnePC c then
            if OnePcCommitTs prewriteResp =? 0 then
              if negb (RespMinCommitTs prewriteResp =? 0) then
                Return c (Some "MinCommitTs must be 0 when 1pc falls back to 2pc"%string)
              else
                let c := setOnePC c false in
                let c := setAsyncCommit c false in
                Return c None
            else if negb (onePCCommitTS c =? 0) then
              Fatal "one pc happened multiple times"
            else
              Return (set_onePCCommitTS c (OnePcCommitTs prewriteResp)) None
          else if negb (OnePcCommitTs prewriteResp =? 0) then
            Fatal "tikv committed a non-1pc transaction with 1pc protocol"
          else if isAsyncCommit c then
            if RespMinCommitTs prewriteResp =? 0 then
              if noFallBack c then Return c None
              else Return (setAsyncCommit c false) None
            else if minCommitTS c <? RespMinCommitTs prewriteResp then
              Return (set_minCommitTS c (RespMinCommitTs prewriteResp)) None
            else Return c None
          else Return c None
      | _ :: _ => RetryKeyErrors
      end
  end.

End transaction.

(** ** The MVCC reference engine (mvcc_leveldb.go) *)

Module mocktikv.
Import kvrpcpb.

Definition lockVer : Z := U64.MaxUint64.

Inductive DecodeError :=
| ErrCodec
| ErrInvalidEncodedKey.

(** *** The encoded key *)

Section MvccKey.

(** [codec.EncodeBytes], [codec.DecodeBytes], [codec.EncodeUintDesc] and
    [codec.DecodeUintDesc] live in util/codec, which is outside the sources
    at hand: they are parameters here.  The decoders return the remaining
    bytes first, as in Go, and [None] for an error. *)
Variable EncodeBytes : bytes -> bytes -> bytes.
Variable DecodeBytes : bytes -> option (bytes * bytes).
Variable EncodeUintDesc : bytes -> Z -> bytes.
Variable DecodeUintDesc : bytes -> option (bytes * Z).

Definition mvccEncode (key : bytes) (ver : Z) : bytes :=
  let b := EncodeBytes [] key in
  let ret := EncodeUintDesc b ver in
  ret.

Definition mvccDecode (encodedKey : bytes) : DecodeError + (bytes * Z) :=
  match DecodeBytes encodedKey with
  | None => inl ErrCodec
  | Some (remainBytes, key) =>
      if len remainBytes =? 0 then inr (key, 0)
      else
        match DecodeUintDesc remainBytes with
        | None => inl ErrCodec
        | Some (remainBytes, ver) =>
            if negb (len remainBytes =? 0) then inl ErrInvalidEncodedKey
            else inr (key, ver)
        end
  end.

End MvccKey.

(** *** Records *)

Record mvccLock := {
  lock_startTS : Z;
  lock_primary : bytes;
  lock_value : bytes;
  lock_op : Op;
  lock_ttl : Z;
  lock_forUpdateTS : Z;
  lock_txnSize : Z;
  lock_minCommitTS : Z
}.

Inductive mvccValueType := typePut | typeDelete | typeRollback | typeLock.

Definition mvccValueType_eqb (a b : mvccValueType) : bool :=
  match a, b with
  | typePut, typePut | typeDelete, typeDelete | typeRollback, typeRollback
  | typeLock, typeLock => true
  | _, _ => false
  end.

Record mvccValue := {
  valueType : mvccValueType;
  value_startTS : Z;
  value_commitTS : Z;
  value_value : bytes
}.

Inductive Error :=
| ErrLocked (key : bytes) (lock : mvccLock)
| ErrKeyAlreadyExist (Key : bytes)
| ErrConflict (StartTS ConflictTS ConflictCommitTS : Z) (Key : bytes)
| ErrAssertionFailed (StartTS : Z) (Key : bytes) (assertion : Assertion)
    (ExistingStartTS ExistingCommitTS : Z)
| ErrAlreadyRollbacked (startTS : Z) (key : bytes)
| ErrAbort (msg : string)
| ErrRetryable (msg : string)
| ErrCommitTSExpired (StartTs AttemptedCommitTs : Z) (Key : bytes) (MinCommitTs : Z)
| ErrAlreadyCommitted (commitTS : Z)
| ErrTxnNotFound (StartTs : Z) (PrimaryKey : bytes)
| ErrUnmarshal.

Definition set_ttl (l : mvccLock) (ttl : Z) : mvccLock :=
  {| lock_startTS := lock_startTS l; lock_primary := lock_primary l;
     lock_value := lock_value l; lock_op := lock_op l; lock_ttl := ttl;
     lock_forUpdateTS := lock_forUpdateTS l; lock_txnSize := lock_txnSize l;
     lock_minCommitTS := lock_minCommitTS l |}.

Definition set_lock_minCommitTS (l : mvccLock) (ts : Z) : mvccLock :=
  {| lock_startTS := lock_startTS l; lock_primary := lock_primary l;
     lock_value := lock_value l; lock_op := lock_op l; lock_ttl := lock_ttl l;
     lock_forUpdateTS := lock_forUpdateTS l; lock_txnSize := lock_txnSize l;
     lock_minCommitTS := ts |}.

(** Modelled from the spec: [mvccLock.lockErr] is in mvcc.go, which is
    outside the sources at hand.  The spec has it return [Locked(lock)]:
    the error carries the key and the lock record. *)
Definition lockErr (l : mvccLock) (key : bytes) : Error := ErrLocked key l.

(** Modelled from the spec: [mvccLock.check] is in mvcc.go, which is
    outside the sources at hand.  The spec: "if ... the lock is visible
    (lock.ts <= start_ts and not in resolved_locks), return a Locked
    error"; a lock that is not visible lets the read go on at the same
    timestamp. *)
Definition check (l : mvccLock) (ts : Z) (key : bytes) (resolvedLocks : list Z)
  : Z * option Error :=
  if (lock_startTS l <=? ts) && negb (existsb (Z.eqb (lock_startTS l)) resolvedLocks)
  then (0, Some (lockErr l key))
  else (ts, None).

(** *** The ordered store

    leveldb holds the marshalled records under their encoded keys, in the
    byte order of the keys.  The store is kept here at the level of the
    decoded key: the entry written under [mvccEncode key ver] is the pair
    [(key, ver)], and the order is the one the encoding gives, user key
    ascending and, for one user key, version descending (the lock slot
    [lockVer] first).  A stored value is the record that was marshalled;
    unmarshalling it as the other kind of record is an error. *)

Definition mvccKey := (bytes * Z)%type.

Inductive record :=
| RLock (l : mvccLock)
| RValue (v : mvccValue).

Definition entry := (mvccKey * record)%type.

Definition DB := list entry.

Definition mvcc_compare (a b : mvccKey) : comparison :=
  match bytes_Compare (fst a) (fst b) with
  | Eq => Z.compare (snd b) (snd a)
  | c => c
  end.

(** [batch.Put] and [batch.Delete] *)
Inductive batchOp :=
| BPut (k : mvccKey) (r : record)
| BDelete (k : mvccKey).

Definition Batch := list batchOp.

Fixpoint db_put (k : mvccKey) (r : record) (db : DB) : DB :=
  match db with
  | [] => [(k, r)]
  | e :: db' =>
      match mvcc_compare (fst e) k with
      | Lt => e :: db_put k r db'
      | Eq => (k, r) :: db'
      | Gt => (k, r) :: e :: db'
      end
  end.

Fixpoint db_delete (k : mvccKey) (db : DB) : DB :=
  match db with
  | [] => []
  | e :: db' =>
      match mvcc_compare (fst e) k with
      | Lt => e :: db_delete k db'
      | Eq => db'
      | Gt => e :: db'
      end
  end.

Fixpoint db_get (k : mvccKey) (db : DB) : option record :=
  match db with
  | [] => None
  | e :: db' =>
      match mvcc_compare (fst e) k with
      | Eq => Some (snd e)
      | _ => db_get k db'
      end
  end.

Definition apply_op (db : DB) (op : batchOp) : DB :=
  match op with
  | BPut k r => db_put k r db
  | BDelete k => db_delete k db
  end.

(** [db.Write(batch, nil)] on the in-memory store *)
Definition Write (db : DB) (batch : Batch) : DB := fold_left apply_op batch db.

(** *** Iterators

    An iterator is the list of the entries from its position on: [Valid]
    is non-emptiness, [Key] and [Value] read the head, [Next] drops it. *)

Definition Iterator := list entry.

Definition Valid (iter : Iterator) : bool :=
  match iter with [] => false | _ :: _ => true end.

Definition Next (iter : Iterator) : Iterator := tl iter.

(** [newIterator(db, &util.Range{Start: start})] *)
Fixpoint newIterator (db : DB) (start : mvccKey) : Iterator :=
  match db with
  | [] => []
  | e :: db' =>
      if is_Lt (mvcc_compare (fst e) start) then newIterator db' start else db
  end.

Inductive decoded (A : Type) :=
| DecodeErr (e : Error)
| DecodeNo
| DecodeOk (a : A) (iter : Iterator).
Arguments DecodeErr {A} e.
Arguments DecodeNo {A}.
Arguments DecodeOk {A} a iter.

(** [lockDecoder.Decode]: [DecodeOk lock iter'] is [(true, nil)] with
    [dec.lock] set and the iterator moved on; [DecodeNo] is [(false, nil)]. *)
Definition lockDecoder_Decode (expectKey : bytes) (iter : Iterator) : decoded mvccLock :=
  match iter with
  | [] => DecodeNo
  | ((key, ver), r) :: _ =>
      if negb (bytes_Equal key expectKey) then DecodeNo
      else if negb (ver =? lockVer) then DecodeNo
      else
        match r with
        | RLock lock => DecodeOk lock (Next iter)
        | RValue _ => DecodeErr ErrUnmarshal
        end
  end.

(** [valueDecoder.Decode] *)
Definition valueDecoder_Decode (expectKey : bytes) (iter : Iterator) : decoded mvccValue :=
  match iter with
  | [] => DecodeNo
  | ((key, ver), r) :: _ =>
      if negb (bytes_Equal key expectKey) then DecodeNo
      else if ver =? lockVer then DecodeNo
      else
        match r with
        | RValue value => DecodeOk value (Next iter)
        | RLock _ => DecodeErr ErrUnmarshal
        end
  end.

(** *** Get *)

(** The loop of [getValue].  A successful [Decode] moves the iterator on by
    one entry, so the loop goes on with the tail. *)
Fixpoint getValue_loop (key : bytes) (startTS : Z) (iter : Iterator)
  : Error + option bytes :=
  match iter with
  | [] => inr None
  | _ :: iter' =>
      match valueDecoder_Decode key iter with
      | DecodeErr err => inl err
      | DecodeNo => inr None
      | DecodeOk value _ =>
          if mvccValueType_eqb (valueType value) typeRollback
             || mvccValueType_eqb (valueType value) typeLock
          then getValue_loop key startTS iter'
          else if value_commitTS value <=? startTS then
            if mvccValueType_eqb (valueType value) typeDelete then inr None
            else inr (Some (value_value value))
          else getValue_loop key startTS iter'
      end
  end.

(** [getValue(iter, key, startTS, isoLevel, resolvedLocks)]: [inr None] is
    [(nil, nil)], [inr (Some v)] a value. *)
Definition getValue (iter : Iterator) (key : bytes) (startTS : Z)
    (isoLevel : IsolationLevel) (resolvedLocks : list Z) : Error + option bytes :=
  match lockDecoder_Decode key iter with
  | DecodeErr err => inl err
  | DecodeNo => getValue_loop key startTS iter
  | DecodeOk lock iter =>
      if IsolationLevel_eqb isoLevel IsolationLevel_SI then
        match check lock startTS key resolvedLocks with
        | (_, Some err) => inl err
        | (startTS, None) => getValue_loop key startTS iter
        end
      else getValue_loop key startTS iter
  end.

(** [mvcc.getValue] and [MVCCLevelDB.Get] *)
Definition Get (db : DB) (key : bytes) (startTS : Z) (isoLevel : IsolationLevel)
    (resolvedLocks : list Z) : Error + option bytes :=
  let startKey := (key, lockVer) in
  let iter := newIterator db startKey in
  getValue iter key startTS isoLevel resolvedLocks.

(** *** Prewrite *)

Definition is_nil {A} (o : option A) : bool :=
  match o with None => true | Some _ => false end.

(** The loop [for ok { ... }] of [checkConflictValue]: [value] is
    [dec.value] and [iter] the iterator behind it. *)
Fixpoint checkConflictValue_loop (m : Mutation) (startTS : Z)
    (assertionLevel : AssertionLevel) (getVal needCheckAssertionForPrewerite : bool)
    (iter : Iterator) (value : mvccValue)
    (needGetVal needCheckShouldNotExistForPessimisticLock needCheckRollback : bool)
    (retVal : option bytes) {struct iter} : Error + option bytes :=
  let finish (retVal : option bytes) : Error + option bytes :=
    if getVal then inr retVal else inr None in
  if needCheckRollback && mvccValueType_eqb (valueType value) typeRollback
     && (value_commitTS value =? startTS)
  then inl (ErrAlreadyRollbacked startTS (Mutation_Key m))
  else
  let needCheckRollback :=
    if needCheckRollback && (value_commitTS value <? startTS) then false
    else needCheckRollback in
  let isPutOrLock :=
    mvccValueType_eqb (valueType value) typePut
    || mvccValueType_eqb (valueType value) typeLock in
  if isPutOrLock && needCheckShouldNotExistForPessimisticLock
  then inl (ErrAssertionFailed startTS (Mutation_Key m) (Mutation_Assertion m)
              (value_startTS value) (value_commitTS value))
  else if isPutOrLock && needCheckAssertionForPrewerite
          && Assertion_eqb (Mutation_Assertion m) Assertion_NotExist
  then inl (ErrAssertionFailed startTS (Mutation_Key m) (Mutation_Assertion m)
              (value_startTS value) (value_commitTS value))
  else
  let needCheckShouldNotExistForPessimisticLock :=
    if negb isPutOrLock && mvccValueType_eqb (valueType value) typeDelete then false
    else needCheckShouldNotExistForPessimisticLock in
  let isDeleteOrPut :=
    mvccValueType_eqb (valueType value) typeDelete
    || mvccValueType_eqb (valueType value) typePut in
  let retVal := if needGetVal && isDeleteOrPut then Some (value_value value) else retVal in
  let needGetVal := if needGetVal && isDeleteOrPut then false else needGetVal in
  if negb needCheckShouldNotExistForPessimisticLock && negb needGetVal
     && negb needCheckRollback
  then finish retVal
  else
  let exhausted : Error + option bytes :=
    if Assertion_eqb (Mutation_Assertion m) Assertion_Exist
       && negb (AssertionLevel_eqb assertionLevel AssertionLevel_Off)
    then inl (ErrAssertionFailed startTS (Mutation_Key m) (Mutation_Assertion m) 0 0)
    else finish retVal in
  match iter with
  | [] => exhausted
  | _ :: iter' =>
      match valueDecoder_Decode (Mutation_Key m) iter with
      | DecodeErr err => inl err
      | DecodeNo => exhausted
      | DecodeOk value _ =>
          checkConflictValue_loop m startTS assertionLevel getVal
            needCheckAssertionForPrewerite iter' value needGetVal
            needCheckShouldNotExistForPessimisticLock needCheckRollback retVal
      end
  end.

Definition checkConflictValue (iter : Iterator) (m : Mutation) (forUpdateTS startTS : Z)
    (getVal : bool) (assertionLevel : AssertionLevel) : Error + option bytes :=
  match valueDecoder_Decode (Mutation_Key m) iter with
  | DecodeErr err => inl err
  | DecodeNo =>
      if Assertion_eqb (Mutation_Assertion m) Assertion_Exist
         && negb (AssertionLevel_eqb assertionLevel AssertionLevel_Off)
         && negb (Op_eqb (Mutation_Op m) Op_PessimisticLock)
      then inl (ErrAssertionFailed startTS (Mutation_Key m) (Mutation_Assertion m) 0 0)
      else inr None
  | DecodeOk value iter =>
      if forUpdateTS <? value_commitTS value then
        inl (ErrConflict forUpdateTS (value_startTS value) (value_commitTS value)
               (Mutation_Key m))
      else
        let needGetVal := getVal in
        let needCheckShouldNotExistForPessimisticLock :=
          Assertion_eqb (Mutation_Assertion m) Assertion_NotExist
          && Op_eqb (Mutation_Op m) Op_PessimisticLock in
        let needCheckAssertionForPrewerite :=
          negb (Assertion_eqb (Mutation_Assertion m) Assertion_None)
          && negb (Op_eqb (Mutation_Op m) Op_PessimisticLock)
          && negb (AssertionLevel_eqb assertionLevel AssertionLevel_Off) in
        let needCheckRollback := true in
        checkConflictValue_loop m startTS assertionLevel getVal
          needCheckAssertionForPrewerite iter value needGetVal
          needCheckShouldNotExistForPessimisticLock needCheckRollback None
  end.

(** The tail of [prewriteMutation]: build the lock and put it in the batch. *)
Definition installLock (batch : Batch) (mutation : Mutation) (startTS : Z)
    (primary : bytes) (ttl txnSize minCommitTS : Z) : Batch :=
  let op := Mutation_Op mutation in
  let op := if Op_eqb op Op_Insert then Op_Put else op in
  let lock :=
    {| lock_startTS := startTS; lock_primary := primary;
       lock_value := Mutation_Value mutation; lock_op := op; lock_ttl := ttl;
       lock_forUpdateTS := 0; lock_txnSize := txnSize;
       lock_minCommitTS :=
         if bytes_Equal primary (Mutation_Key mutation) then minCommitTS else 0 |} in
  let writeKey := (Mutation_Key mutation, lockVer) in
  batch ++ [BPut writeKey (RLock lock)].

Definition prewriteMutation (db : DB) (batch : Batch) (mutation : Mutation)
    (startTS : Z) (primary : bytes) (ttl txnSize : Z) (isPessimisticLock : bool)
    (minCommitTS : Z) (assertionLevel : AssertionLevel) : Batch * option Error :=
  let startKey := (Mutation_Key mutation, lockVer) in
  let iter := newIterator db startKey in
  match lockDecoder_Decode (Mutation_Key mutation) iter with
  | DecodeErr err => (batch, Some err)
  | DecodeOk lock iter =>
      if negb (lock_startTS lock =? startTS) then
        let lock := if isPessimisticLock then set_ttl lock 0 else lock in
        (batch, Some (lockErr lock (Mutation_Key mutation)))
      else if negb (Op_eqb (lock_op lock) Op_PessimisticLock) then (batch, None)
      else
        let ttl := if ttl <? lock_ttl lock then lock_ttl lock else ttl in
        let minCommitTS :=
          if minCommitTS <? lock_minCommitTS lock then lock_minCommitTS lock
          else minCommitTS in
        match checkConflictValue iter mutation startTS startTS false assertionLevel with
        | inl err => (batch, Some err)
        | inr _ => (installLock batch mutation startTS primary ttl txnSize minCommitTS, None)
        end
  | DecodeNo =>
      if isPessimisticLock then (batch, Some (ErrAbort "pessimistic lock not found"))
      else
        match checkConflictValue iter mutation startTS startTS false assertionLevel with
        | inl err => (batch, Some err)
        | inr _ => (installLock batch mutation startTS primary ttl txnSize minCommitTS, None)
        end
  end.

(** The loop of [Prewrite] over [mutations] from index [i] on.  [None] is
    the run-time panic of [req.IsPessimisticLock[i]] on an index out of
    range. *)
Fixpoint Prewrite_loop (db : DB) (req : PrewriteRequest) (i : nat)
    (mutations : list Mutation) (batch : Batch) (errs : list (option Error))
    (anyError : bool) : option (Batch * list (option Error) * bool) :=
  match mutations with
  | [] => Some (batch, errs, anyError)
  | m :: rest =>
      let op := Mutation_Op m in
      let checked : option Error :=
        if (Op_eqb op Op_Insert || Op_eqb op Op_CheckNotExists) && (ForUpdateTs req =? 0)
        then
          match getValue (newIterator db (Mutation_Key m, lockVer)) (Mutation_Key m)
                  (StartVersion req) IsolationLevel_SI (ResolvedLocks req) with
          | inl err => Some err
          | inr (Some _) => Some (ErrKeyAlreadyExist (Mutation_Key m))
          | inr None => None
          end
        else None in
      match checked with
      | Some err => Prewrite_loop db req (S i) rest batch (errs ++ [Some err]) true
      | None =>
          if Op_eqb op Op_CheckNotExists
          then Prewrite_loop db req (S i) rest batch errs anyError
          else
            let isPessimisticLock : option bool :=
              if 0 <? len (IsPessimisticLock req)
              then nth_error (IsPessimisticLock req) i
              else Some false in
            match isPessimisticLock with
            | None => None
            | Some isPessimisticLock =>
                let '(batch, err) :=
                  prewriteMutation db batch m (StartVersion req) (PrimaryLock req)
                    (LockTtl req) (TxnSize req) isPessimisticLock (MinCommitTs req)
                    (ReqAssertionLevel req) in
                Prewrite_loop db req (S i) rest batch (errs ++ [err])
                  (anyError || negb (is_nil err))
            end
      end
  end.

(** [MVCCLevelDB.Prewrite]: the store after the call and the error list. *)
Definition Prewrite (db : DB) (req : PrewriteRequest) : option (DB * list (option Error)) :=
  match Prewrite_loop db req 0%nat (Mutations req) [] [] false with
  | None => None
  | Some (batch, errs, anyError) =>
      if anyError then Some (db, errs)
      else Some (Write db batch, errs)
  end.

(** *** Commit *)

Inductive commitInfo :=
| InfoErr (e : Error)
| InfoNone
| InfoFound (c : mvccValue).

(** [getTxnCommitInfo]: [InfoFound c] is [(c, true, nil)], [InfoNone] is
    [(mvccValue{}, false, nil)]. *)
Fixpoint getTxnCommitInfo (iter : Iterator) (expectKey : bytes) (startTS : Z) : commitInfo :=
  match iter with
  | [] => InfoNone
  | _ :: iter' =>
      match valueDecoder_Decode expectKey iter with
      | DecodeErr err => InfoErr err
      | DecodeNo => InfoNone
      | DecodeOk value _ =>
          if value_startTS value =? startTS then InfoFound value
          else getTxnCommitInfo iter' expectKey startTS
      end
  end.

Definition commitLock (batch : Batch) (lock : mvccLock) (key : bytes)
    (startTS commitTS : Z) : Batch :=
  let valueType :=
    if Op_eqb (lock_op lock) Op_Put then typePut
    else if Op_eqb (lock_op lock) Op_Lock then typeLock
    else typeDelete in
  let value :=
    {| valueType := valueType; value_startTS := startTS; value_commitTS := commitTS;
       value_value := lock_value lock |} in
  let writeKey := (key, commitTS) in
  batch ++ [BPut writeKey (RValue value); BDelete (key, lockVer)].

Definition commitKey (db : DB) (batch : Batch) (key : bytes) (startTS commitTS : Z)
  : Batch * option Error :=
  let startKey := (key, lockVer) in
  let iter := newIterator db startKey in
  let fallback (iter : Iterator) : Batch * option Error :=
    match getTxnCommitInfo iter key startTS with
    | InfoErr _ => (batch, None)
    | InfoFound c =>
        if negb (mvccValueType_eqb (valueType c) typeRollback) then (batch, None)
        else (batch, Some (ErrRetryable "txn not found"))
    | InfoNone => (batch, Some (ErrRetryable "txn not found"))
    end in
  match lockDecoder_Decode key iter with
  | DecodeErr err => (batch, Some err)
  | DecodeNo => fallback iter
  | DecodeOk lock iter =>
      if negb (lock_startTS lock =? startTS) then fallback iter
      else if commitTS <? lock_minCommitTS lock then
        (batch, Some (ErrCommitTSExpired startTS commitTS key (lock_minCommitTS lock)))
      else (commitLock batch lock key startTS commitTS, None)
  end.

Fixpoint Commit_loop (db : DB) (batch : Batch) (keys : list bytes)
    (startTS commitTS : Z) : Batch * option Error :=
  match keys with
  | [] => (batch, None)
  | k :: keys' =>
      match commitKey db batch k startTS commitTS with
      | (batch, Some err) => (batch, Some err)
      | (batch, None) => Commit_loop db batch keys' startTS commitTS
      end
  end.

(** [MVCCLevelDB.Commit] *)
Definition Commit (db : DB) (keys : list bytes) (startTS commitTS : Z)
  : DB * option Error :=
  match Commit_loop db [] keys startTS commitTS with
  | (_, Some err) => (db, Some err)
  | (batch, None) => (Write db batch, None)
  end.

(** *** Rollback *)

Definition writeRollback (batch : Batch) (key : bytes) (startTS : Z) : Batch :=
  let tomb :=
    {| valueType := typeRollback; value_startTS := startTS; value_commitTS := startTS;
       value_value := [] |} in
  let writeKey := (key, startTS) in
  batch ++ [BPut writeKey (RValue tomb)].

Definition rollbackLock (batch : Batch) (key : bytes) (startTS : Z) : Batch :=
  writeRollback batch key startTS ++ [BDelete (key, lockVer)].

Definition rollbackKey (db : DB) (batch : Batch) (key : bytes) (startTS : Z)
  : Batch * option Error :=
  let startKey := (key, lockVer) in
  let iter := newIterator db startKey in
  let notPrewritten : Batch * option Error :=
    let value :=
      {| valueType := typeRollback; value_startTS := startTS; value_commitTS := startTS;
         value_value := [] |} in
    let writeKey := (key, startTS) in
    (batch ++ [BPut writeKey (RValue value)], None) in
  let commitInfoOf (iter : Iterator) : Batch * option Error :=
    match getTxnCommitInfo iter key startTS with
    | InfoErr err => (batch, Some err)
    | InfoFound c =>
        if negb (mvccValueType_eqb (valueType c) typeRollback)
        then (batch, Some (ErrAlreadyCommitted (value_commitTS c)))
        else (batch, None)
    | InfoNone => notPrewritten
    end in
  if Valid iter then
    match lockDecoder_Decode key iter with
    | DecodeErr err => (batch, Some err)
    | DecodeNo => commitInfoOf iter
    | DecodeOk lock iter =>
        if lock_startTS lock =? startTS then (rollbackLock batch key startTS, None)
        else commitInfoOf iter
    end
  else notPrewritten.

Fixpoint Rollback_loop (db : DB) (batch : Batch) (keys : list bytes) (startTS : Z)
  : Batch * option Error :=
  match keys with
  | [] => (batch, None)
  | k :: keys' =>
      match rollbackKey db batch k startTS with
      | (batch, Some err) => (batch, Some err)
      | (batch, None) => Rollback_loop db batch keys' startTS
      end
  end.

(** [MVCCLevelDB.Rollback] *)
Definition Rollback (db : DB) (keys : list bytes) (startTS : Z) : DB * option Error :=
  match Rollback_loop db [] keys startTS with
  | (_, Some err) => (db, Some err)
  | (batch, None) => (Write db batch, None)
  end.

Definition pessimisticRollbackKey (db : DB) (batch : Batch) (key : bytes)
    (startTS forUpdateTS : Z) : Batch * option Error :=
  let startKey := (key, lockVer) in
  let iter := newIterator db startKey in
  match lockDecoder_Decode key iter with
  | DecodeErr err => (batch, Some err)
  | DecodeNo => (batch, None)
  | DecodeOk lock _ =>
      if Op_eqb (lock_op lock) Op_PessimisticLock && (lock_startTS lock =? startTS)
         && (lock_forUpdateTS lock <=? forUpdateTS)
      then (batch ++ [BDelete startKey], None)
      else (batch, None)
  end.

(** *** CheckTxnStatus *)

Record txnStatus := {
  status_db : DB;
  status_ttl : Z;
  status_commitTS : Z;
  status_action : Action;
  status_err : option Error
}.

Section CheckTxnStatus.

(** [oracle.ExtractPhysical] is in the oracle package, outside the sources
    at hand: the physical part of a timestamp is a parameter. *)
Variable ExtractPhysical : Z -> Z.

Definition CheckTxnStatus (db : DB) (primaryKey : bytes)
    (lockTS callerStartTS currentTS : Z)
    (rollbackIfNotExist resolvingPessimisticLock : bool) : txnStatus :=
  let result db ttl commitTS action err :=
    {| status_db := db; status_ttl := ttl; status_commitTS := commitTS;
       status_action := action; status_err := err |} in
  let action := Action_NoAction in
  let startKey := (primaryKey, lockVer) in
  let iter := newIterator db startKey in
  let notPrewritten : txnStatus :=
    if rollbackIfNotExist then
      if resolvingPessimisticLock then result db 0 0 Action_LockNotExistDoNothing None
      else
        let batch := writeRollback [] primaryKey lockTS in
        result (Write db batch) 0 0 Action_LockNotExistRollback None
    else result db 0 0 action (Some (ErrTxnNotFound lockTS primaryKey)) in
  let commitInfoOf (iter : Iterator) : txnStatus :=
    match getTxnCommitInfo iter primaryKey lockTS with
    | InfoErr err1 => result db 0 0 action (Some err1)
    | InfoFound c =>
        if negb (mvccValueType_eqb (valueType c) typeRollback)
        then result db 0 (value_commitTS c) action None
        else result db 0 0 Action_NoAction None
    | InfoNone => notPrewritten
    end in
  if Valid iter then
    match lockDecoder_Decode primaryKey iter with
    | DecodeErr err => result db 0 0 action (Some err)
    | DecodeNo => commitInfoOf iter
    | DecodeOk lock iter =>
        if lock_startTS lock =? lockTS then
          if U64.add (U64.wrap (ExtractPhysical (lock_startTS lock))) (lock_ttl lock)
             <? U64.wrap (ExtractPhysical currentTS)
          then
            if resolvingPessimisticLock && Op_eqb (lock_op lock) Op_PessimisticLock then
              let action := Action_TTLExpirePessimisticRollback in
              match pessimisticRollbackKey db [] primaryKey (lock_startTS lock)
                      (lock_forUpdateTS lock) with
              | (_, Some err) => result db 0 0 action (Some err)
              | (batch, None) => result (Write db batch) 0 0 action None
              end
            else
              let action := Action_TTLExpireRollback in
              let batch := rollbackLock [] primaryKey lockTS in
              result (Write db batch) 0 0 action None
          else if callerStartTS =? U64.MaxUint64 then
            result db (lock_ttl lock) 0 Action_MinCommitTSPushed None
          else if 0 <? lock_minCommitTS lock then
            let action := Action_MinCommitTSPushed in
            if lock_minCommitTS lock <? U64.add callerStartTS 1 then
              let lock := set_lock_minCommitTS lock (U64.add callerStartTS 1) in
              let lock :=
                if lock_minCommitTS lock <? currentTS
                then set_lock_minCommitTS lock currentTS else lock in
              let writeKey := (primaryKey, lockVer) in
              let batch := [BPut writeKey (RLock lock)] in
              result (Write db batch) (lock_ttl lock) 0 action None
            else result db (lock_ttl lock) 0 action None
          else result db (lock_ttl lock) 0 action None
        else commitInfoOf iter
    end
  else notPrewritten.

End CheckTxnStatus.

(** *** BatchGet *)

(** [Pair]: a key with its value or with its error. *)
Record Pair := {
  Pair_Key : bytes;
  Pair_Value : option bytes;
  Pair_Err : option Error
}.

(** [MVCCLevelDB.BatchGet] *)
Fixpoint BatchGet (db : DB) (ks : list bytes) (startTS : Z) (isoLevel : IsolationLevel)
    (resolvedLocks : list Z) : list Pair :=
  match ks with
  | [] => []
  | k :: ks' =>
      match Get db k startTS isoLevel resolvedLocks with
      | inr None => BatchGet db ks' startTS isoLevel resolvedLocks
      | inr (Some v) =>
          {| Pair_Key := k; Pair_Value := Some v; Pair_Err := None |}
          :: BatchGet db ks' startTS isoLevel resolvedLocks
      | inl err =>
          {| Pair_Key := k; Pair_Value := None; Pair_Err := Some err |}
          :: BatchGet db ks' startTS isoLevel resolvedLocks
      end
  end.

(** *** PessimisticRollback *)

Fixpoint PessimisticRollback_loop (db : DB) (batch : Batch) (keys : list bytes)
    (startTS forUpdateTS : Z) (errs : list (option Error)) (anyError : bool)
  : Batch * list (option Error) * bool :=
  match keys with
  | [] => (batch, errs, anyError)
  | key :: keys' =>
      let '(batch, err) := pessimisticRollbackKey db batch key startTS forUpdateTS in
      PessimisticRollback_loop db batch keys' startTS forUpdateTS (errs ++ [err])
        (anyError || negb (is_nil err))
  end.

(** [MVCCLevelDB.PessimisticRollback] *)
Definition PessimisticRollback (db : DB) (keys : list bytes) (startTS forUpdateTS : Z)
  : DB * list (option Error) :=
  let '(batch, errs, anyError) :=
    PessimisticRollback_loop db [] keys startTS forUpdateTS [] false in
  if anyError then (db, errs) else (Write db batch, errs).

(** *** TxnHeartBeat *)

(** An error of the engine, or one made with [errors.New]. *)
Inductive error :=
| Typed (e : Error)
| New (msg : string).

(** [MVCCLevelDB.TxnHeartBeat]: the store after the call, the TTL and the
    error. *)
Definition TxnHeartBeat (db : DB) (key : bytes) (startTS adviseTTL : Z)
  : DB * Z * option error :=
  let startKey := (key, lockVer) in
  let iter := newIterator db startKey in
  let missing : DB * Z * option error := (db, 0, Some (New "lock doesn't exist")) in
  if Valid iter then
    match lockDecoder_Decode key iter with
    | DecodeErr err => (db, 0, Some (Typed err))
    | DecodeNo => missing
    | DecodeOk lock _ =>
        if lock_startTS lock =? startTS then
          if negb (bytes_Equal (lock_primary lock) key) then
            (db, 0,
             Some (New "txnHeartBeat on non-primary key, the code should not run here"))
          else if lock_ttl lock <? adviseTTL then
            let lock := set_ttl lock adviseTTL in
            let writeKey := (key, lockVer) in
            (Write db [BPut writeKey (RLock lock)], lock_ttl lock, None)
          else (db, lock_ttl lock, None)
        else missing
    end
  else missing.

(** *** Cleanup *)

Section Cleanup.

Variable ExtractPhysical : Z -> Z.

(** [MVCCLevelDB.Cleanup].  For a transaction that was not prewritten the
    tombstone is put in the batch and the function returns without writing
    the batch. *)
Definition Cleanup (db : DB) (key : bytes) (startTS currentTS : Z) : DB * option Error :=
  let batch : Batch := [] in
  let startKey := (key, lockVer) in
  let iter := newIterator db startKey in
  let notPrewritten : DB * option Error :=
    let value :=
      {| valueType := typeRollback; value_startTS := startTS; value_commitTS := startTS;
         value_value := [] |} in
    let writeKey := (key, startTS) in
    let batch := batch ++ [BPut writeKey (RValue value)] in
    (db, None) in
  let commitInfoOf (iter : Iterator) : DB * option Error :=
    match getTxnCommitInfo iter key startTS with
    | InfoErr err => (db, Some err)
    | InfoFound c =>
        if negb (mvccValueType_eqb (valueType c) typeRollback)
        then (db, Some (ErrAlreadyCommitted (value_commitTS c)))
        else (db, None)
    | InfoNone => notPrewritten
    end in
  if Valid iter then
    match lockDecoder_Decode key iter with
    | DecodeErr err => (db, Some err)
    | DecodeNo => commitInfoOf iter
    | DecodeOk lock iter =>
        if lock_startTS lock =? startTS then
          if (currentTS =? 0)
             || (U64.add (U64.wrap (ExtractPhysical (lock_startTS lock))) (lock_ttl lock)
                 <? U64.wrap (ExtractPhysical currentTS))
          then (Write db (rollbackLock batch key startTS), None)
          else (db, Some (lockErr lock key))
        else commitInfoOf iter
    end
  else notPrewritten.

End Cleanup.

End mocktikv.

(** ** The engine in the words of the specification

    Views of the store (the lock record of a key, its write records newest
    first) and the operations as the specification describes them.  The
    properties of Part II compare them with the functions above. *)

Module mvcc_spec.
Import kvrpcpb mocktikv.

Definition key_of (e : entry) : bytes := fst (fst e).
Definition ver_of (e : entry) : Z := snd (fst e).
Definition has_key (key : bytes) (e : entry) : bool := bytes_Equal (key_of e) key.

(** The entries that an iterator shows before the first entry of another
    key. *)
Fixpoint key_run (key : bytes) (iter : Iterator) : list entry :=
  match iter with
  | [] => []
  | e :: iter' => if has_key key e then e :: key_run key iter' else []
  end.

(** The write records of one key, as an iterator shows them. *)
Definition write_run (key : bytes) (ws : list entry) : Prop :=
  Forall (fun e => has_key key e = true /\ (ver_of e =? lockVer) = false
                   /\ exists v, snd e = RValue v) ws.

(** A record is stored the way the engine writes it: a lock in the lock
    slot, a write record under its commit timestamp, below [lockVer]. *)
Definition entry_ok (e : entry) : bool :=
  (0 <=? ver_of e) && (ver_of e <=? lockVer)
  && match snd e with
     | RLock _ => ver_of e =? lockVer
     | RValue v => (ver_of e <? lockVer) && (value_commitTS v =? ver_of e)
     end.

(** The entries are in the order of the encoded keys, without duplicates. *)
Fixpoint sorted (db : DB) : bool :=
  match db with
  | [] => true
  | e :: db' =>
      match db' with
      | [] => true
      | e' :: _ => is_Lt (mvcc_compare (fst e) (fst e'))
      end && sorted db'
  end.

Definition wf_db (db : DB) : bool := sorted db && forallb entry_ok db.

(** The lock record of [key], if there is one. *)
Definition lockOf (db : DB) (key : bytes) : option mvccLock :=
  match db_get (key, lockVer) db with
  | Some (RLock l) => Some l
  | _ => None
  end.

(** The write records of [key], in the order of the store: newest first. *)
Definition value_of (e : entry) : list mvccValue :=
  match snd e with RValue v => [v] | RLock _ => [] end.

Definition writeEntries (db : DB) (key : bytes) : list entry :=
  filter (fun e => has_key key e && negb (ver_of e =? lockVer)) db.

Definition writesOf (db : DB) (key : bytes) : list mvccValue :=
  flat_map value_of (writeEntries db key).

(** "the lock is visible (lock.ts <= start_ts and not in resolved_locks)" *)
Definition visible (l : mvccLock) (start_ts : Z) (resolved : list Z) : bool :=
  (lock_startTS l <=? start_ts) && negb (existsb (Z.eqb (lock_startTS l)) resolved).

(** "return the first write with commit_ts <= start_ts whose type is Put
    (value) or Delete (not-found), skipping Rollback and Lock records" *)
Definition readable (start_ts : Z) (v : mvccValue) : bool :=
  match valueType v with
  | typePut | typeDelete => value_commitTS v <=? start_ts
  | typeRollback | typeLock => false
  end.

Definition read (db : DB) (key : bytes) (start_ts : Z) : option bytes :=
  match find (readable start_ts) (writesOf db key) with
  | Some v =>
      match valueType v with
      | typePut => Some (value_value v)
      | _ => None
      end
  | None => None
  end.

Definition Get_spec (db : DB) (key : bytes) (start_ts : Z) (iso : IsolationLevel)
    (resolved : list Z) : Error + option bytes :=
  match lockOf db key with
  | Some l =>
      if IsolationLevel_eqb iso IsolationLevel_SI && visible l start_ts resolved
      then inl (ErrLocked key l)
      else inr (read db key start_ts)
  | None => inr (read db key start_ts)
  end.

(** The write record of the transaction [start_ts] on [key]. *)
Definition writeOfTxn (db : DB) (key : bytes) (start_ts : Z) : option mvccValue :=
  find (fun v => value_startTS v =? start_ts) (writesOf db key).

(** The write record that commits a lock. *)
Definition committed (l : mvccLock) (start_ts commit_ts : Z) : mvccValue :=
  {| valueType :=
       match lock_op l with
       | Op_Put => typePut
       | Op_Lock => typeLock
       | _ => typeDelete
       end;
     value_startTS := start_ts; value_commitTS := commit_ts;
     value_value := lock_value l |}.

Definition tombstone (start_ts : Z) : mvccValue :=
  {| valueType := typeRollback; value_startTS := start_ts; value_commitTS := start_ts;
     value_value := [] |}.

(** Commit on one key: the operations put in the batch and the error. *)
Definition commitKey_spec (db : DB) (key : bytes) (start_ts commit_ts : Z)
  : Batch * option Error :=
  let fallback : Batch * option Error :=
    match writeOfTxn db key start_ts with
    | Some v =>
        match valueType v with
        | typeRollback => ([], Some (ErrRetryable "txn not found"))
        | _ => ([], None)
        end
    | None => ([], Some (ErrRetryable "txn not found"))
    end in
  match lockOf db key with
  | Some l =>
      if lock_startTS l =? start_ts then
        if commit_ts <? lock_minCommitTS l
        then ([], Some (ErrCommitTSExpired start_ts commit_ts key (lock_minCommitTS l)))
        else ([BPut (key, commit_ts) (RValue (committed l start_ts commit_ts));
               BDelete (key, lockVer)], None)
      else fallback
  | None => fallback
  end.

(** Rollback on one key, as the code has it (the amended C3). *)
Definition rollbackKey_spec (db : DB) (key : bytes) (start_ts : Z)
  : Batch * option Error :=
  let other : Batch * option Error :=
    match writeOfTxn db key start_ts with
    | Some v =>
        match valueType v with
        | typeRollback => ([], None)
        | _ => ([], Some (ErrAlreadyCommitted (value_commitTS v)))
        end
    | None => ([BPut (key, start_ts) (RValue (tombstone start_ts))], None)
    end in
  match lockOf db key with
  | Some l =>
      if lock_startTS l =? start_ts
      then ([BPut (key, start_ts) (RValue (tombstone start_ts)); BDelete (key, lockVer)],
            None)
      else other
  | None => other
  end.

(** All the entries of [key]: what [newIterator] at its lock slot shows of
    the key. *)
Definition entriesOf (db : DB) (key : bytes) : list entry := filter (has_key key) db.

(** The flag [isPessimisticLock] of each mutation of a request, as the loop
    of [Prewrite] reads it, and the request as the list of its mutations
    with their flags. *)
Definition flagsOf (req : PrewriteRequest) : list bool :=
  match IsPessimisticLock req with
  | [] => repeat false (List.length (Mutations req))
  | flags => flags
  end.

Definition flags_ok (req : PrewriteRequest) : Prop :=
  List.length (flagsOf req) = List.length (Mutations req).

Definition flagged (req : PrewriteRequest) : list (Mutation * bool) :=
  combine (Mutations req) (flagsOf req).

(** One turn of the loop of [Prewrite] on the mutation [m] with flag
    [isPessimisticLock]: what it appends to [errs] and to the batch. *)
Definition prewriteTurn (db : DB) (req : PrewriteRequest) (t : Mutation * bool)
  : list (option Error) * Batch :=
  let '(m, isPessimisticLock) := t in
  let op := Mutation_Op m in
  let checked : option Error :=
    if (Op_eqb op Op_Insert || Op_eqb op Op_CheckNotExists) && (ForUpdateTs req =? 0)
    then
      match getValue (newIterator db (Mutation_Key m, lockVer)) (Mutation_Key m)
              (StartVersion req) IsolationLevel_SI (ResolvedLocks req) with
      | inl err => Some err
      | inr (Some _) => Some (ErrKeyAlreadyExist (Mutation_Key m))
      | inr None => None
      end
    else None in
  match checked with
  | Some err => ([Some err], [])
  | None =>
      if Op_eqb op Op_CheckNotExists then ([], [])
      else
        let '(batch, err) :=
          prewriteMutation db [] m (StartVersion req) (PrimaryLock req) (LockTtl req)
            (TxnSize req) isPessimisticLock (MinCommitTs req) (ReqAssertionLevel req) in
        ([err], batch)
  end.

(** The same turn as a function of what the store holds for the key of
    the mutation: its lock record [lk] and its write entries [ws]. *)
Definition getOn (lk : option mvccLock) (ws : list entry) (key : bytes) (start_ts : Z)
    (iso : IsolationLevel) (resolved : list Z) : Error + option bytes :=
  let rd :=
    match find (readable start_ts) (flat_map value_of ws) with
    | Some v =>
        match valueType v with
        | typePut => Some (value_value v)
        | _ => None
        end
    | None => None
    end in
  match lk with
  | Some l =>
      if IsolationLevel_eqb iso IsolationLevel_SI && visible l start_ts resolved
      then inl (ErrLocked key l)
      else inr rd
  | None => inr rd
  end.

Definition prewriteOn (lk : option mvccLock) (ws : list entry) (mutation : Mutation)
    (startTS : Z) (primary : bytes) (ttl txnSize : Z) (isPessimisticLock : bool)
    (minCommitTS : Z) (assertionLevel : AssertionLevel) : Batch * option Error :=
  match lk with
  | Some lock =>
      if negb (lock_startTS lock =? startTS) then
        ([], Some (lockErr (if isPessimisticLock then set_ttl lock 0 else lock)
                     (Mutation_Key mutation)))
      else if negb (Op_eqb (lock_op lock) Op_PessimisticLock) then ([], None)
      else
        match checkConflictValue ws mutation startTS startTS false assertionLevel with
        | inl err => ([], Some err)
        | inr _ =>
            (installLock [] mutation startTS primary
               (if ttl <? lock_ttl lock then lock_ttl lock else ttl) txnSize
               (if minCommitTS <? lock_minCommitTS lock then lock_minCommitTS lock
                else minCommitTS), None)
        end
  | None =>
      if isPessimisticLock then ([], Some (ErrAbort "pessimistic lock not found"))
      else
        match checkConflictValue ws mutation startTS startTS false assertionLevel with
        | inl err => ([], Some err)
        | inr _ => (installLock [] mutation startTS primary ttl txnSize minCommitTS, None)
        end
  end.

Definition turnOn (req : PrewriteRequest) (lk : option mvccLock) (ws : list entry)
    (t : Mutation * bool) : list (option Error) * Batch :=
  let '(m, isPessimisticLock) := t in
  let op := Mutation_Op m in
  let checked : option Error :=
    if (Op_eqb op Op_Insert || Op_eqb op Op_CheckNotExists) && (ForUpdateTs req =? 0)
    then
      match getOn lk ws (Mutation_Key m) (StartVersion req) IsolationLevel_SI
              (ResolvedLocks req) with
      | inl err => Some err
      | inr (Some _) => Some (ErrKeyAlreadyExist (Mutation_Key m))
      | inr None => None
      end
    else None in
  match checked with
  | Some err => ([Some err], [])
  | None =>
      if Op_eqb op Op_CheckNotExists then ([], [])
      else
        let '(batch, err) :=
          prewriteOn lk ws m (StartVersion req) (PrimaryLock req) (LockTtl req)
            (TxnSize req) isPessimisticLock (MinCommitTs req) (ReqAssertionLevel req) in
        ([err], batch)
  end.

(** The record that a batch puts last under a key. *)
Fixpoint lookup_put (k : mvccKey) (b : Batch) : option record :=
  match b with
  | [] => None
  | op :: b' =>
      match lookup_put k b' with
      | Some r => Some r
      | None =>
          match op with
          | BPut k' r => match mvcc_compare k' k with Eq => Some r | _ => None end
          | BDelete _ => None
          end
      end
  end.

(** [req'] is a request of the same transaction as [req] that carries some
    of its mutations, each with its flag. *)
Definition subRequest (req' req : PrewriteRequest) : Prop :=
  StartVersion req' = StartVersion req
  /\ PrimaryLock req' = PrimaryLock req
  /\ LockTtl req' = LockTtl req
  /\ TxnSize req' = TxnSize req
  /\ MinCommitTs req' = MinCommitTs req
  /\ ReqAssertionLevel req' = ReqAssertionLevel req
  /\ ForUpdateTs req' = ForUpdateTs req
  /\ ResolvedLocks req' = ResolvedLocks req
  /\ incl (flagged req') (flagged req).

Definition no_error (errs : list (option Error)) : Prop := Forall (fun e => e = None) errs.

Definition is_err (e : option Error) : bool := negb (is_nil e).

(** A batch that only puts lock records in lock slots. *)
Definition lock_put (op : batchOp) : Prop :=
  exists key l, op = BPut (key, lockVer) (RLock l).

Definition lock_puts (b : Batch) : Prop := Forall lock_put b.

(** The transaction [start_ts] holds the lock on [key]. *)
Definition lockedBy (db : DB) (key : bytes) (start_ts : Z) : bool :=
  match lockOf db key with
  | Some l => lock_startTS l =? start_ts
  | None => false
  end.

(** The lock is a pessimistic lock of [start_ts] taken at or before
    [for_update_ts]: the one that a pessimistic rollback releases. *)
Definition releasable (l : mvccLock) (start_ts for_update_ts : Z) : bool :=
  Op_eqb (lock_op l) Op_PessimisticLock && (lock_startTS l =? start_ts)
  && (lock_forUpdateTS l <=? for_update_ts).

(** The lock has outlived its TTL at [current_ts]. *)
Definition expired (ExtractPhysical : Z -> Z) (l : mvccLock) (current_ts : Z) : bool :=
  U64.add (U64.wrap (ExtractPhysical (lock_startTS l))) (lock_ttl l)
  <? U64.wrap (ExtractPhysical current_ts).

End mvcc_spec.

(** ** Key lookup in the region cache (region_cache.go) *)

Module locate.

Inductive InvalidReason :=
| Ok | NoLeader | RegionNotFound | EpochNotMatch | StoreNotFound | Other.

(** [metapb.Peer] and [metapb.Region] *)
Record Peer := {
  Peer_Id : Z;
  Peer_StoreId : Z
}.

Record RegionMeta := {
  Id : Z;
  StartKey : bytes;
  EndKey : bytes;
  ConfVer : Z;
  Version : Z;
  Peers : list Peer
}.

(** [syncFlag] values *)
Definition updated : Z := 0.
Definition needSync : Z := 1.

Definition invalidatedLastAccessTime : Z := -1.

(** A cached region.  The replica view behind [store] is not read by the
    lookup by key and is left out. *)
Record Region := {
  meta : RegionMeta;
  syncFlag : Z;
  lastAccess : Z;
  invalidReason : InvalidReason
}.

Record RegionVerID := {
  id : Z;
  confVer : Z;
  ver : Z
}.

Record KeyLocation := {
  Location_Region : RegionVerID;
  Location_StartKey : bytes;
  Location_EndKey : bytes
}.

Definition VerID (r : Region) : RegionVerID :=
  {| id := Id (meta r); confVer := ConfVer (meta r); ver := Version (meta r) |}.

Definition Region_StartKey (r : Region) : bytes := StartKey (meta r).
Definition Region_EndKey (r : Region) : bytes := EndKey (meta r).

(** [contains]: [startKey <= key < endKey], an empty [endKey] being the
    maximum key. *)
Definition contains (startKey endKey key : bytes) : bool :=
  is_Le (bytes_Compare startKey key)
  && (is_Lt (bytes_Compare key endKey) || (len endKey =? 0)).

Definition Contains (r : Region) (key : bytes) : bool :=
  contains (StartKey (meta r)) (EndKey (meta r)) key.

Definition ContainsByEnd (r : Region) (key : bytes) : bool :=
  is_Lt (bytes_Compare (StartKey (meta r)) key)
  && (is_Le (bytes_Compare key (EndKey (meta r))) || (len (EndKey (meta r)) =? 0)).

(** [KeyLocation.Contains] *)
Definition Location_Contains (l : KeyLocation) (key : bytes) : bool :=
  is_Le (bytes_Compare (Location_StartKey l) key)
  && (is_Lt (bytes_Compare key (Location_EndKey l)) || (len (Location_EndKey l) =? 0)).

Definition set_lastAccess (r : Region) (ts : Z) : Region :=
  {| meta := meta r; syncFlag := syncFlag r; lastAccess := ts;
     invalidReason := invalidReason r |}.

Definition set_syncFlag (r : Region) (f : Z) : Region :=
  {| meta := meta r; syncFlag := f; lastAccess := lastAccess r;
     invalidReason := invalidReason r |}.

Definition invalidate (r : Region) (reason : InvalidReason) : Region :=
  {| meta := meta r; syncFlag := syncFlag r; lastAccess := invalidatedLastAccessTime;
     invalidReason := reason |}.

(** What the lookup reads from outside the cache: the clock
    ([time.Now().Unix()]), the TTL variable [regionCacheTTLSec], the
    failpoint [invalidateRegionCache], the PD client and the store
    registry.  A PD call is indexed by the turn of the loop that makes it,
    since PD may answer differently from one call to the next.
    [initResolve] gives the address of a store ([Some ""] for a tombstone
    store, [None] for an error). *)
Inductive pdReply :=
| PdError (isDecodeError : bool)
| PdNil
| PdRegion (Meta : option RegionMeta) (Leader : option Peer) (DownPeers : list Peer).

Record Env := {
  now : Z;
  regionCacheTTLSec : Z;
  invalidateRegionCache : bool;
  GetRegion : nat -> bytes -> pdReply;
  GetPrevRegion : nat -> bytes -> pdReply;
  initResolve : Z -> option string
}.

(** [Region.checkRegionCacheTTL]: the answer and the region after the
    call.  The compare-and-swap succeeds at once, there being one thread. *)
Definition checkRegionCacheTTL (env : Env) (r : Region) (ts : Z) : bool * Region :=
  let r := if invalidateRegionCache env then invalidate r Other else r in
  let lastAccess := lastAccess r in
  if regionCacheTTLSec env <? I64.sub ts lastAccess then (false, r)
  else (true, set_lastAccess r ts).

(** The sorted index [c.mu.sorted], a B-tree keyed by start key, as the
    list of its items in ascending order.  The maps by region id are not
    read by the lookup by key and are left out. *)
Definition RegionCache := list Region.

(** The callback of [DescendLessOrEqual] in [searchCachedRegion], run over
    the items in descending order until it returns [false]: the region
    found and the items after the calls. *)
Fixpoint descend (env : Env) (ts : Z) (key : bytes) (isEndKey : bool)
    (items : list Region) : option Region * list Region :=
  match items with
  | [] => (None, [])
  | r :: rest =>
      if isEndKey && bytes_Equal (Region_StartKey r) key then
        let '(found, rest) := descend env ts key isEndKey rest in
        (found, r :: rest)
      else
        match checkRegionCacheTTL env r ts with
        | (false, r) =>
            let '(found, rest) := descend env ts key isEndKey rest in
            (found, r :: rest)
        | (true, r) => (Some r, r :: rest)
        end
  end.

(** The items of the index that are less than or equal to the search item,
    and the others. *)
Definition lessOrEqual (key : bytes) (r : Region) : bool :=
  negb (is_Lt (bytes_Compare key (Region_StartKey r))).

Definition searchCachedRegion (env : Env) (c : RegionCache) (key : bytes)
    (isEndKey : bool) : option Region * RegionCache :=
  let ts := now env in
  let '(found, visited) :=
    descend env ts key isEndKey (rev (filter (lessOrEqual key) c)) in
  let c := rev visited ++ filter (fun r => negb (lessOrEqual key r)) c in
  match found with
  | Some r =>
      if (negb isEndKey && Contains r key) || (isEndKey && ContainsByEnd r key)
      then (Some r, c)
      else (None, c)
  | None => (None, c)
  end.

Definition isSamePeer (lhs rhs : Peer) : bool :=
  (Peer_Id lhs =? Peer_Id rhs) && (Peer_StoreId lhs =? Peer_StoreId rhs).

Definition set_Peers (m : RegionMeta) (peers : list Peer) : RegionMeta :=
  {| Id := Id m; StartKey := StartKey m; EndKey := EndKey m; ConfVer := ConfVer m;
     Version := Version m; Peers := peers |}.

Definition filterUnavailablePeers (m : RegionMeta) (DownPeers : list Peer) : RegionMeta :=
  if len DownPeers =? 0 then m
  else set_Peers m (filter (fun p => negb (existsb (isSamePeer p) DownPeers)) (Peers m)).

(** The loop of [newRegion] over the peers: the peers on stores that have
    an address, or [None] when a store cannot be resolved. *)
Fixpoint availablePeers (env : Env) (peers : list Peer) : option (list Peer) :=
  match peers with
  | [] => Some []
  | p :: rest =>
      match initResolve env (Peer_StoreId p) with
      | None => None
      | Some addr =>
          match availablePeers env rest with
          | None => None
          | Some ps => if String.eqb addr "" then Some ps else Some (p :: ps)
          end
      end
  end.

(** [newRegion]: [None] is an error. *)
Definition newRegion (env : Env) (m : RegionMeta) : option Region :=
  match availablePeers env (Peers m) with
  | None => None
  | Some peers =>
      if len peers =? 0 then None
      else Some {| meta := set_Peers m peers; syncFlag := updated; lastAccess := now env;
                   invalidReason := Ok |}
  end.

(** [bo.Backoff]: a backoffer is the number of sleeps it still allows. *)
Definition Backoffer := nat.

Inductive loaded :=
| LoadError
| LoadOutOfFuel
| Loaded (r : Region) (bo : Backoffer).

(** The loop of [loadRegion]; [n] counts the calls made to PD so far and
    [fuel] bounds the turns. *)
Fixpoint loadRegion_loop (fuel : nat) (env : Env) (bo : Backoffer) (key : bytes)
    (isEndKey : bool) (backoffErr searchPrev : bool) (n : nat) : loaded :=
  match fuel with
  | O => LoadOutOfFuel
  | S fuel =>
      let slept : option Backoffer :=
        if backoffErr then match bo with O => None | S bo => Some bo end
        else Some bo in
      match slept with
      | None => LoadError
      | Some bo =>
          let reply := if searchPrev then GetPrevRegion env n key else GetRegion env n key in
          match reply with
          | PdError true => LoadError
          | PdError false => loadRegion_loop fuel env bo key isEndKey true searchPrev (S n)
          | PdNil => loadRegion_loop fuel env bo key isEndKey true searchPrev (S n)
          | PdRegion None _ _ =>
              loadRegion_loop fuel env bo key isEndKey true searchPrev (S n)
          | PdRegion (Some m) _ DownPeers =>
              let m := filterUnavailablePeers m DownPeers in
              if len (Peers m) =? 0 then LoadError
              else if isEndKey && negb searchPrev && bytes_Equal (StartKey m) key
                      && negb (len (StartKey m) =? 0)
              then loadRegion_loop fuel env bo key isEndKey backoffErr true (S n)
              else
                match newRegion env m with
                | None => LoadError
                | Some r => Loaded r bo
                end
          end
      end
  end.

(** [loadRegion]: every turn but the first and the one after the switch to
    [GetPrevRegion] sleeps once, so [bo + 3] turns are enough. *)
Definition loadRegion (env : Env) (bo : Backoffer) (key : bytes) (isEndKey : bool) : loaded :=
  loadRegion_loop (bo + 3) env bo key isEndKey false false 0.

(** [c.mu.sorted.ReplaceOrInsert(newBtreeItem(cachedRegion))] *)
Fixpoint insertRegionToCache (c : RegionCache) (cachedRegion : Region) : RegionCache :=
  match c with
  | [] => [cachedRegion]
  | r :: c' =>
      match bytes_Compare (Region_StartKey r) (Region_StartKey cachedRegion) with
      | Lt => r :: insertRegionToCache c' cachedRegion
      | Eq => cachedRegion :: c'
      | Gt => cachedRegion :: r :: c'
      end
  end.

(** A write through the pointer to a cached region: the item of the index
    with that start key takes the new fields. *)
Definition store_region (c : RegionCache) (r : Region) : RegionCache :=
  map (fun x => if bytes_Equal (Region_StartKey x) (Region_StartKey r) then r else x) c.

(** [Region.checkNeedReloadAndMarkUpdated] *)
Definition checkNeedReloadAndMarkUpdated (r : Region) : bool * Region :=
  let oldValue := syncFlag r in
  if oldValue =? updated then (false, r)
  else (true, set_syncFlag r updated).

Inductive found :=
| FindError (c : RegionCache)
| FindOutOfFuel
| Found (r : Region) (c : RegionCache) (bo : Backoffer).

Definition findRegionByKey (env : Env) (c : RegionCache) (bo : Backoffer) (key : bytes)
    (isEndKey : bool) : found :=
  match searchCachedRegion env c key isEndKey with
  | (None, c) =>
      match loadRegion env bo key isEndKey with
      | LoadError => FindError c
      | LoadOutOfFuel => FindOutOfFuel
      | Loaded lr bo => Found lr (insertRegionToCache c lr) bo
      end
  | (Some r, c) =>
      match checkNeedReloadAndMarkUpdated r with
      | (true, r) =>
          let c := store_region c r in
          match loadRegion env bo key isEndKey with
          | LoadError => Found r c bo
          | LoadOutOfFuel => FindOutOfFuel
          | Loaded lr bo => Found lr (insertRegionToCache c lr) bo
          end
      | (false, r) => Found r c bo
      end
  end.

(** [RegionCache.LocateKey]: the location, or [None] for an error, and the
    cache after the call. *)
Definition LocateKey (env : Env) (c : RegionCache) (bo : Backoffer) (key : bytes)
  : option (option KeyLocation * RegionCache) :=
  match findRegionByKey env c bo key false with
  | FindOutOfFuel => None
  | FindError c => Some (None, c)
  | Found r c _ =>
      Some (Some {| Location_Region := VerID r; Location_StartKey := Region_StartKey r;
                    Location_EndKey := Region_EndKey r |}, c)
  end.

(** The contract of PD for [GetRegion]: the region it returns for a key
    contains the key. *)
Definition pd_contract (env : Env) : Prop :=
  forall (n : nat) (key : bytes) (m : RegionMeta) (leader : option Peer)
         (down : list Peer),
    GetRegion env n key = PdRegion (Some m) leader down ->
    contains (StartKey m) (EndKey m) key = true.

End locate.

(** ** The key codec *)

Module codec.

(** Modelled from the spec: util/codec is outside the sources at hand.  The
    spec gives the layout of an MVCC key as
    [encode_bytes_asc(K) || encode_u64_desc(ver)]; the definitions below are
    the memcomparable format that satisfies it: the key in groups of eight
    bytes, each followed by a marker byte [0xFF - padding], the last group
    padded with zeros, then the eight big-endian bytes of the complement of
    the version.  They instantiate the codec parameters of
    [mocktikv.mvccEncode] and [mocktikv.mvccDecode]. *)
Definition encGroupSize : nat := 8.
Definition encMarker : N := 255.
Definition encPad : byte := x00.

Definition byte_of_N (n : N) : byte :=
  match Byte.of_N n with Some b => b | None => x00 end.

Fixpoint encodeGroups (turns : nat) (data : bytes) : bytes :=
  match turns with
  | O => []
  | S turns =>
      let remain := List.length data in
      if (encGroupSize <=? remain)%nat then
        firstn encGroupSize data ++ byte_of_N encMarker
          :: encodeGroups turns (skipn encGroupSize data)
      else
        let padCount := (encGroupSize - remain)%nat in
        data ++ repeat encPad padCount ++ [byte_of_N (encMarker - N.of_nat padCount)]
  end.

Definition EncodeBytes (b data : bytes) : bytes :=
  b ++ encodeGroups (S (List.length data / encGroupSize)) data.

Fixpoint decodeGroups (turns : nat) (b buf : bytes) : option (bytes * bytes) :=
  match turns with
  | O => None
  | S turns =>
      if (List.length b <? encGroupSize + 1)%nat then None
      else
        let group := firstn encGroupSize b in
        let marker := nth encGroupSize b x00 in
        let padCount := (encMarker - Byte.to_N marker)%N in
        if (N.of_nat encGroupSize <? padCount)%N then None
        else
          let realGroupSize := (encGroupSize - N.to_nat padCount)%nat in
          let buf := buf ++ firstn realGroupSize group in
          let b := skipn (encGroupSize + 1) b in
          if negb (padCount =? 0)%N then
            if forallb (Byte.eqb encPad) (skipn realGroupSize group)
            then Some (b, buf) else None
          else decodeGroups turns b buf
  end.

Definition DecodeBytes (b : bytes) : option (bytes * bytes) :=
  decodeGroups (S (List.length b / (encGroupSize + 1))) b [].

Fixpoint be_bytes (n : nat) (v : Z) : bytes :=
  match n with
  | O => []
  | S n => be_bytes n (v / 256) ++ [byte_of_N (Z.to_N (v mod 256))]
  end.

Fixpoint be_value (b : bytes) (acc : Z) : Z :=
  match b with
  | [] => acc
  | x :: b => be_value b (acc * 256 + Z.of_N (Byte.to_N x))
  end.

Definition EncodeUintDesc (b : bytes) (v : Z) : bytes :=
  b ++ be_bytes 8 (U64.MaxUint64 - U64.wrap v).

Definition DecodeUintDesc (b : bytes) : option (bytes * Z) :=
  if (List.length b <? 8)%nat then None
  else Some (skipn 8 b, U64.MaxUint64 - be_value (firstn 8 b) 0).

End codec.

(** ** Scenarios

    Concrete committers, requests and stores that the properties below are
    evaluated on. *)

Module scenario.
Import kvrpcpb transaction.

(** An optimistic committer with [startTS = 10]; [with_forUpdateTS] gives
    it a [forUpdateTS]. *)
Definition committer (forUpdateTS : Z) (onePC async : bool) : twoPhaseCommitter :=
  {| startTS := 10; forUpdateTS := forUpdateTS; minCommitTS := 0; maxCommitTS := 0;
     lockTTL := 3000; sessionID := 0; txnSize := 2; assertionLevel := AssertionLevel_Off;
     primaryKey := B "a"; asyncSecondaries := []; useAsyncCommit := async;
     useOnePC := onePC; onePCCommitTS := 0; isPessimistic := false;
     prewriteCancelled := false; undeterminedErr := None; ttlManagerRunning := false;
     noFallBack := false |}.

Definition batch : batchMutations :=
  {| region := 1;
     mutations :=
       [ {| mutOp := Op_Put; mutKey := B "a"; mutValue := B "1"; mutIsAssertExists := false;
            mutIsAssertNotExist := false; mutIsPessimisticLock := false |} ];
     isPrimary := true |}.

Definition response (minCommitTs onePcCommitTs : Z) : PrewriteResponse :=
  {| Errors := []; RespMinCommitTs := minCommitTs; OnePcCommitTs := onePcCommitTs |}.

(** The transaction with [start_ts = 100] has prewritten key "a", its
    primary, with value "1" ([locked]); it has committed at 110
    ([committed_store]). *)
Definition lock_a : mocktikv.mvccLock :=
  {| mocktikv.lock_startTS := 100; mocktikv.lock_primary := B "a";
     mocktikv.lock_value := B "1"; mocktikv.lock_op := Op_Put;
     mocktikv.lock_ttl := 3000; mocktikv.lock_forUpdateTS := 0;
     mocktikv.lock_txnSize := 2; mocktikv.lock_minCommitTS := 101 |}.

Definition put_a : mocktikv.mvccValue :=
  {| mocktikv.valueType := mocktikv.typePut; mocktikv.value_startTS := 100;
     mocktikv.value_commitTS := 110; mocktikv.value_value := B "1" |}.

Definition locked : mocktikv.DB := [((B "a", mocktikv.lockVer), mocktikv.RLock lock_a)].

Definition committed_store : mocktikv.DB := [((B "a", 110), mocktikv.RValue put_a)].

(** Requests of a transaction with primary "a" and two keys. *)
Definition mutation (op : Op) (key value : string) : Mutation :=
  {| Mutation_Op := op; Mutation_Key := B key; Mutation_Value := B value;
     Mutation_Assertion := Assertion_None |}.

Definition request (startTS : Z) (ms : list Mutation) : PrewriteRequest :=
  {| Mutations := ms; PrimaryLock := B "a"; StartVersion := startTS; LockTtl := 3000;
     IsPessimisticLock := []; ForUpdateTs := 0; TxnSize := 2; MinCommitTs := 101;
     MaxCommitTs := 0; ReqAssertionLevel := AssertionLevel_Off; Secondaries := [];
     UseAsyncCommit := false; TryOnePc := false; ResolvedLocks := [] |}.

Definition lock_b : mocktikv.mvccLock :=
  {| mocktikv.lock_startTS := 100; mocktikv.lock_primary := B "a";
     mocktikv.lock_value := B "2"; mocktikv.lock_op := Op_Put;
     mocktikv.lock_ttl := 3000; mocktikv.lock_forUpdateTS := 0;
     mocktikv.lock_txnSize := 2; mocktikv.lock_minCommitTS := 0 |}.

Definition locked_ab : mocktikv.DB :=
  [((B "a", mocktikv.lockVer), mocktikv.RLock lock_a);
   ((B "b", mocktikv.lockVer), mocktikv.RLock lock_b)].

(** The lock that the second of two puts on key "a" leaves. *)
Definition lock_a2 : mocktikv.mvccLock :=
  {| mocktikv.lock_startTS := 100; mocktikv.lock_primary := B "a";
     mocktikv.lock_value := B "2"; mocktikv.lock_op := Op_Put;
     mocktikv.lock_ttl := 3000; mocktikv.lock_forUpdateTS := 0;
     mocktikv.lock_txnSize := 2; mocktikv.lock_minCommitTS := 101 |}.

(** A cluster of one region that covers every key, on store 1, and a
    cache that holds the region of the keys from "a" to "m". *)
Definition whole_range : locate.RegionMeta :=
  {| locate.Id := 1; locate.StartKey := []; locate.EndKey := []; locate.ConfVer := 1;
     locate.Version := 1;
     locate.Peers := [ {| locate.Peer_Id := 1; locate.Peer_StoreId := 1 |} ] |}.

Definition env : locate.Env :=
  {| locate.now := 1000; locate.regionCacheTTLSec := 600;
     locate.invalidateRegionCache := false;
     locate.GetRegion := fun _ _ => locate.PdRegion (Some whole_range) None [];
     locate.GetPrevRegion := fun _ _ => locate.PdNil;
     locate.initResolve := fun _ => Some "store1:20160"%string |}.

Definition region_a_m : locate.Region :=
  {| locate.meta :=
       {| locate.Id := 2; locate.StartKey := B "a"; locate.EndKey := B "m";
          locate.ConfVer := 1; locate.Version := 5;
          locate.Peers := [ {| locate.Peer_Id := 2; locate.Peer_StoreId := 1 |} ] |};
     locate.syncFlag := locate.updated; locate.lastAccess := 900;
     locate.invalidReason := locate.Ok |}.

Definition cache : locate.RegionCache := [region_a_m].

(** A PD that answers every key with the region of the keys from "x" to
    "z". *)
Definition region_x_z : locate.RegionMeta :=
  {| locate.Id := 3; locate.StartKey := B "x"; locate.EndKey := B "z"; locate.ConfVer := 1;
     locate.Version := 1;
     locate.Peers := [ {| locate.Peer_Id := 3; locate.Peer_StoreId := 1 |} ] |}.

Definition env_x_z : locate.Env :=
  {| locate.now := 1000; locate.regionCacheTTLSec := 600;
     locate.invalidateRegionCache := false;
     locate.GetRegion := fun _ _ => locate.PdRegion (Some region_x_z) None [];
     locate.GetPrevRegion := fun _ _ => locate.PdNil;
     locate.initResolve := fun _ => Some "store1:20160"%string |}.

(** The physical part of a timestamp: the bits above the 18 logical bits. *)
Definition ExtractPhysical (ts : Z) : Z := Z.shiftr ts 18.

(** The transaction with [start_ts = 100] holds a pessimistic lock on "a",
    taken at 105, and a prewrite lock on "b". *)
Definition lock_p : mocktikv.mvccLock :=
  {| mocktikv.lock_startTS := 100; mocktikv.lock_primary := B "a";
     mocktikv.lock_value := []; mocktikv.lock_op := Op_PessimisticLock;
     mocktikv.lock_ttl := 3000; mocktikv.lock_forUpdateTS := 105;
     mocktikv.lock_txnSize := 0; mocktikv.lock_minCommitTS := 0 |}.

Definition pessimistic_store : mocktikv.DB :=
  [((B "a", mocktikv.lockVer), mocktikv.RLock lock_p);
   ((B "b", mocktikv.lockVer), mocktikv.RLock lock_b)].

End scenario.

(** * Part II: properties *)

(** ** Machine integers and byte order *)

Lemma U64_wrap_small x : 0 <= x <= U64.MaxUint64 -> U64.wrap x = x.
Proof.
  unfold U64.wrap, U64.MaxUint64, U64.modulus. intros H. apply Z.mod_small. lia.
Qed.

Lemma U64_add_small a b : 0 <= a + b <= U64.MaxUint64 -> U64.add a b = a + b.
Proof. intros H. unfold U64.add. now apply U64_wrap_small. Qed.

Lemma to_N_inj x y : Byte.to_N x = Byte.to_N y -> x = y.
Proof.
  intros H. pose proof (Byte.of_to_N x) as Hx. pose proof (Byte.of_to_N y) as Hy.
  rewrite H in Hx. congruence.
Qed.

Lemma byte_cmp_eq x y : byte_cmp x y = Eq <-> x = y.
Proof.
  unfold byte_cmp. rewrite N.compare_eq_iff. split; [apply to_N_inj | now intros ->].
Qed.

Lemma byte_cmp_opp x y : byte_cmp y x = CompOpp (byte_cmp x y).
Proof. unfold byte_cmp. apply N.compare_antisym. Qed.

Lemma byte_cmp_trans x y z c : byte_cmp x y = c -> byte_cmp y z = c -> byte_cmp x z = c.
Proof.
  unfold byte_cmp. destruct c; intros H1 H2.
  - apply N.compare_eq_iff in H1, H2. apply N.compare_eq_iff. congruence.
  - rewrite N.compare_lt_iff in *. lia.
  - rewrite N.compare_gt_iff in *. lia.
Qed.

Lemma bytes_Compare_eq a b : bytes_Compare a b = Eq <-> a = b.
Proof. apply list_compare_refl, byte_cmp_eq. Qed.

Lemma bytes_Compare_refl a : bytes_Compare a a = Eq.
Proof. now apply bytes_Compare_eq. Qed.

Lemma bytes_Compare_opp a b : bytes_Compare b a = CompOpp (bytes_Compare a b).
Proof. apply list_compare_antisym; [apply byte_cmp_eq | apply byte_cmp_opp]. Qed.

Lemma bytes_Compare_trans a b c r :
  bytes_Compare a b = r -> bytes_Compare b c = r -> bytes_Compare a c = r.
Proof.
  apply list_compare_trans;
    [apply byte_cmp_eq | apply byte_cmp_trans | apply byte_cmp_opp].
Qed.

Lemma bytes_Equal_true a b : bytes_Equal a b = true <-> a = b.
Proof.
  unfold bytes_Equal. rewrite <- bytes_Compare_eq.
  destruct (bytes_Compare a b); split; congruence.
Qed.

Lemma bytes_Equal_refl a : bytes_Equal a a = true.
Proof. now apply bytes_Equal_true. Qed.

Lemma bytes_Equal_false a b : bytes_Equal a b = false <-> a <> b.
Proof.
  rewrite <- bytes_Equal_true. destruct (bytes_Equal a b); split; congruence.
Qed.

(** ** The prewrite action *)

Section Prewrite_action.
Import kvrpcpb transaction.

(** C6, as amended.  With the failpoint [mockZeroCommitTS] off, timestamps
    below [MaxUint64], and a [forUpdateTS] that is either unset (an
    optimistic transaction) or not below [startTS] (a pessimistic one), the
    request built for a batch carries
    [MinCommitTs = max(c.minCommitTS, max(startTS, forUpdateTS) + 1)]. *)
Theorem buildPrewriteRequest_MinCommitTs :
  forall (fp : Failpoints) (c : twoPhaseCommitter) (batch : batchMutations) (txnSize : Z),
    mockZeroCommitTS fp = None ->
    0 <= startTS c < U64.MaxUint64 ->
    0 <= forUpdateTS c < U64.MaxUint64 ->
    forUpdateTS c = 0 \/ startTS c <= forUpdateTS c ->
    MinCommitTs (buildPrewriteRequest fp c batch txnSize)
    = Z.max (minCommitTS c) (Z.max (startTS c) (forUpdateTS c) + 1).
Proof.
  intros fp c batch sz Hfp Hs Hf Hord.
  unfold buildPrewriteRequest; cbn [MinCommitTs]. rewrite Hfp.
  unfold requestMinCommitTS.
  destruct (0 <? forUpdateTS c) eqn:E0; destruct (minCommitTS c <=? forUpdateTS c) eqn:E1;
    cbn [andb];
    try (destruct (minCommitTS c <=? startTS c) eqn:E2);
    rewrite ?U64_add_small by lia; lia.
Qed.

Lemma buildPrewriteRequest_MinCommitTs_witness :
  MinCommitTs (buildPrewriteRequest noFailpoints (scenario.committer 12 false false)
                 scenario.batch 2)
  = Z.max 0 (Z.max 10 12 + 1).
Proof.
  apply (buildPrewriteRequest_MinCommitTs noFailpoints (scenario.committer 12 false false)
           scenario.batch 2).
  - reflexivity.
  - vm_compute. split; [discriminate | reflexivity].
  - vm_compute. split; [discriminate | reflexivity].
  - right. vm_compute. discriminate.
Defined.

(** C6, as stated, fails: with [startTS = 10], [forUpdateTS = 5] and
    [minCommitTS = 0] the first branch of the chain is taken and the
    request carries [6], while the maximum is [11]. *)
Lemma buildPrewriteRequest_MinCommitTs_counterexample :
  let c := scenario.committer 5 false false in
  MinCommitTs (buildPrewriteRequest noFailpoints c scenario.batch 2) = 6
  /\ Z.max (minCommitTS c) (Z.max (startTS c) (forUpdateTS c) + 1) = 11.
Proof. vm_compute. split; reflexivity. Qed.

Lemma isOnePC_run c : isOnePC (run c) = isOnePC c.
Proof. reflexivity. Qed.

(** C5, as amended.  A response without key errors to a batch sent with
    [try_1pc]: with [one_pc_commit_ts = 0] and [min_commit_ts = 0] the
    committer clears its 1PC and async-commit flags and returns no error;
    with [one_pc_commit_ts = 0] and [min_commit_ts <> 0] it returns an
    error and keeps both flags; with a non-zero [one_pc_commit_ts] and no
    1PC commit ts recorded before it records the commit ts and returns no
    error, and with one recorded before the call is fatal.  A non-zero
    [one_pc_commit_ts] in a response to a request without [try_1pc] is
    fatal. *)
Theorem handleSingleBatch_onePC :
  forall (fp : Failpoints) (TTLRefreshedTxnSize : Z) (c : twoPhaseCommitter)
         (batch : batchMutations) (txnSize : Z) (rpcError : option string)
         (resp : PrewriteResponse),
    Errors resp = [] ->
    let req := buildPrewriteRequest fp c batch txnSize in
    let out := handleSingleBatch TTLRefreshedTxnSize c batch rpcError (PrewriteResp resp) in
    (TryOnePc req = true -> OnePcCommitTs resp = 0 -> RespMinCommitTs resp = 0 ->
       exists c', out = Return c' None
                  /\ isOnePC c' = false /\ isAsyncCommit c' = false
                  /\ onePCCommitTS c' = onePCCommitTS c)
    /\ (TryOnePc req = true -> OnePcCommitTs resp = 0 -> RespMinCommitTs resp <> 0 ->
       exists c' e, out = Return c' (Some e)
                    /\ isOnePC c' = true /\ isAsyncCommit c' = isAsyncCommit c)
    /\ (TryOnePc req = true -> OnePcCommitTs resp <> 0 -> onePCCommitTS c = 0 ->
       exists c', out = Return c' None
                  /\ onePCCommitTS c' = OnePcCommitTs resp /\ isOnePC c' = true)
    /\ (TryOnePc req = true -> OnePcCommitTs resp <> 0 -> onePCCommitTS c <> 0 ->
       exists msg, out = Fatal msg)
    /\ (TryOnePc req = false -> OnePcCommitTs resp <> 0 ->
       exists msg, out = Fatal msg).
Proof.
  intros fp T c batch sz rpcError resp Herr req out.
  subst req out. unfold handleSingleBatch, buildPrewriteRequest. cbn [TryOnePc].
  rewrite Herr.
  set (c0 := if isPrimary batch && (T <? txnSize c) && (OnePcCommitTs resp =? 0)
             then run c else c).
  assert (H1 : isOnePC c0 = isOnePC c) by (subst c0; destruct (_ && _); reflexivity).
  assert (H2 : isAsyncCommit c0 = isAsyncCommit c) by (subst c0; destruct (_ && _); reflexivity).
  assert (H3 : onePCCommitTS c0 = onePCCommitTS c) by (subst c0; destruct (_ && _); reflexivity).
  rewrite H1.
  repeat split.
  - intros Hone Ho Hm. rewrite Hone, Ho, Hm. cbn. eexists. repeat split. exact H3.
  - intros Hone Ho Hm. rewrite Hone, Ho. apply Z.eqb_neq in Hm. rewrite Hm. cbn.
    do 2 eexists. repeat split; congruence.
  - intros Hone Ho Hc. apply Z.eqb_neq in Ho. rewrite Hone, Ho, H3, Hc. cbn.
    eexists. repeat split. rewrite <- Hone, <- H1. reflexivity.
  - intros Hone Ho Hc. apply Z.eqb_neq in Ho, Hc. rewrite Hone, Ho, H3, Hc. cbn.
    eexists. reflexivity.
  - intros Hone Ho. apply Z.eqb_neq in Ho. rewrite Hone, Ho. cbn. eexists. reflexivity.
Qed.

Lemma handleSingleBatch_onePC_witness :
  exists c',
    handleSingleBatch 100 (scenario.committer 0 true true) scenario.batch None
      (PrewriteResp (scenario.response 0 0)) = Return c' None
    /\ isOnePC c' = false /\ isAsyncCommit c' = false
    /\ onePCCommitTS c' = 0.
Proof.
  refine (proj1 (handleSingleBatch_onePC noFailpoints 100 (scenario.committer 0 true true)
                   scenario.batch 2 None (scenario.response 0 0) _) _ _ _);
    reflexivity.
Defined.

(** C5, as stated, fails: a response to a 1PC prewrite with
    [one_pc_commit_ts = 0] and [min_commit_ts = 7] makes the committer
    return an error with its 1PC and async-commit flags still set. *)
Lemma handleSingleBatch_onePC_counterexample :
  let c := scenario.committer 0 true true in
  TryOnePc (buildPrewriteRequest noFailpoints c scenario.batch 2) = true
  /\ Errors (scenario.response 7 0) = []
  /\ OnePcCommitTs (scenario.response 7 0) = 0
  /\ handleSingleBatch 100 c scenario.batch None (PrewriteResp (scenario.response 7 0))
     = Return c (Some "MinCommitTs must be 0 when 1pc falls back to 2pc"%string)
  /\ isOnePC c = true /\ isAsyncCommit c = true.
Proof. vm_compute. repeat split; reflexivity. Qed.

End Prewrite_action.

(** ** The key codec *)

Lemma to_N_byte_of_N n : (n <= 255)%N -> Byte.to_N (codec.byte_of_N n) = n.
Proof.
  intros H. unfold codec.byte_of_N.
  destruct (Byte.of_N n) as [b|] eqn:E.
  - now apply Byte.to_of_N.
  - apply Byte.of_N_None_iff in E. lia.
Qed.

Lemma decodeGroups_encodeGroups :
  forall (n : nat) (data rest buf : bytes) (m : nat),
    (List.length data / 8 < n)%nat -> (n <= m)%nat ->
    codec.decodeGroups m (codec.encodeGroups n data ++ rest) buf = Some (rest, buf ++ data).
Proof.
  induction n as [|n IH]; intros data rest buf m Hn Hm; [lia|].
  destruct m as [|m]; [lia|].
  destruct data as [|a1 [|a2 [|a3 [|a4 [|a5 [|a6 [|a7 [|a8 tl]]]]]]]];
    try (cbn; rewrite ?app_nil_r; reflexivity).
  change (List.length (a1 :: a2 :: a3 :: a4 :: a5 :: a6 :: a7 :: a8 :: tl))
    with (1 * 8 + List.length tl)%nat in Hn.
  rewrite Nat.div_add_l in Hn by lia.
  cbn. rewrite IH by lia.
  rewrite <- app_assoc. reflexivity.
Qed.

Lemma length_encodeGroups :
  forall (n : nat) (data : bytes),
    (List.length data / 8 < n)%nat ->
    List.length (codec.encodeGroups n data) = (9 * (List.length data / 8 + 1))%nat.
Proof.
  induction n as [|n IH]; intros data Hn; [lia|].
  destruct data as [|a1 [|a2 [|a3 [|a4 [|a5 [|a6 [|a7 [|a8 tl]]]]]]]];
    try reflexivity.
  change (List.length (a1 :: a2 :: a3 :: a4 :: a5 :: a6 :: a7 :: a8 :: tl))
    with (1 * 8 + List.length tl)%nat in *.
  rewrite Nat.div_add_l in Hn by lia. rewrite Nat.div_add_l by lia.
  change (codec.encodeGroups (S n) (a1 :: a2 :: a3 :: a4 :: a5 :: a6 :: a7 :: a8 :: tl))
    with ([a1; a2; a3; a4; a5; a6; a7; a8] ++ codec.byte_of_N 255
            :: codec.encodeGroups n tl).
  cbn [app List.length]. rewrite IH by lia. lia.
Qed.

Lemma DecodeBytes_EncodeBytes key rest :
  codec.DecodeBytes (codec.EncodeBytes [] key ++ rest) = Some (rest, key).
Proof.
  unfold codec.DecodeBytes, codec.EncodeBytes. rewrite app_nil_l.
  apply (decodeGroups_encodeGroups _ key rest []).
  - unfold codec.encGroupSize. lia.
  - rewrite length_app, length_encodeGroups by (unfold codec.encGroupSize; lia).
    unfold codec.encGroupSize. apply le_n_S.
    replace (8 + 1)%nat with 9%nat by reflexivity.
    transitivity ((List.length key / 8 + 1) * 9 / 9)%nat.
    + rewrite Nat.div_mul by lia. lia.
    + apply Nat.Div0.div_le_mono. lia.
Qed.

Lemma be_value_app l y acc :
  codec.be_value (l ++ [y]) acc = codec.be_value l acc * 256 + Z.of_N (Byte.to_N y).
Proof. revert acc. induction l as [|x l IH]; intros acc; cbn; [reflexivity | apply IH]. Qed.

Lemma be_value_be_bytes n x :
  0 <= x < 256 ^ Z.of_nat n -> codec.be_value (codec.be_bytes n x) 0 = x.
Proof.
  revert x. induction n as [|n IH]; intros x Hx.
  - cbn in *. lia.
  - cbn [codec.be_bytes]. rewrite be_value_app.
    rewrite Nat2Z.inj_succ, Z.pow_succ_r in Hx by lia.
    rewrite IH by (split; [apply Z.div_pos; lia | apply Z.div_lt_upper_bound; lia]).
    rewrite to_N_byte_of_N by (pose proof (Z.mod_pos_bound x 256 ltac:(lia)); lia).
    rewrite Z2N.id by (apply Z.mod_pos_bound; lia).
    pose proof (Z.div_mod x 256 ltac:(lia)). lia.
Qed.

Lemma length_be_bytes n x : List.length (codec.be_bytes n x) = n.
Proof.
  revert x. induction n as [|n IH]; intros x; cbn; [reflexivity|].
  rewrite length_app, IH. cbn. lia.
Qed.


Lemma U64_MaxUint64_eq : U64.MaxUint64 = 18446744073709551615.
Proof. reflexivity. Qed.

Lemma EncodeUintDesc_DecodeUintDesc b v :
  0 <= v <= U64.MaxUint64 ->
  exists suffix,
    codec.EncodeUintDesc b v = b ++ suffix /\ suffix <> []
    /\ codec.DecodeUintDesc suffix = Some ([], v).
Proof.
  intros Hv. exists (codec.be_bytes 8 (U64.MaxUint64 - U64.wrap v)).
  split; [reflexivity|]. split.
  - intros E. apply (f_equal (@List.length byte)) in E.
    rewrite length_be_bytes in E. discriminate.
  - unfold codec.DecodeUintDesc. rewrite length_be_bytes.
    change (8 <? 8)%nat with false. cbv iota.
    rewrite firstn_all2, skipn_all2 by (rewrite length_be_bytes; lia).
    rewrite U64_wrap_small by assumption.
    rewrite be_value_be_bytes.
    + f_equal. f_equal. lia.
    + change (256 ^ Z.of_nat 8) with 18446744073709551616.
      rewrite U64_MaxUint64_eq in *. lia.
Qed.

Lemma len_eqb_0 {A} (l : list A) : (len l =? 0) = match l with [] => true | _ => false end.
Proof. destruct l; reflexivity. Qed.

Section MvccKey_roundtrip.

Variable EncodeBytes : bytes -> bytes -> bytes.
Variable DecodeBytes : bytes -> option (bytes * bytes).
Variable EncodeUintDesc : bytes -> Z -> bytes.
Variable DecodeUintDesc : bytes -> option (bytes * Z).

(** The contract of the codec: [DecodeBytes] reads back what [EncodeBytes]
    wrote and returns what follows it; [EncodeUintDesc] appends a non-empty
    suffix that [DecodeUintDesc] reads back in full. *)
Hypothesis DecodeBytes_EncodeBytes_spec :
  forall key rest, DecodeBytes (EncodeBytes [] key ++ rest) = Some (rest, key).
Hypothesis EncodeUintDesc_spec :
  forall b v, 0 <= v <= U64.MaxUint64 ->
    exists suffix,
      EncodeUintDesc b v = b ++ suffix /\ suffix <> []
      /\ DecodeUintDesc suffix = Some ([], v).

Local Abbreviation mvccEncode := (mocktikv.mvccEncode EncodeBytes EncodeUintDesc).
Local Abbreviation mvccDecode := (mocktikv.mvccDecode DecodeBytes DecodeUintDesc).

(** C8.  Decoding an encoded key gives back the user key and the version,
    for every key and every [uint64] version; and decoding any byte string
    gives an error, or, when nothing follows the encoded user key, the key
    with version 0 (a meta key), or the key with the version read from the
    suffix. *)
Theorem mvccDecode_mvccEncode :
  (forall (key : bytes) (ver : Z),
      0 <= ver <= U64.MaxUint64 -> mvccDecode (mvccEncode key ver) = inr (key, ver))
  /\ (forall b : bytes,
        (exists e, mvccDecode b = inl e)
        \/ (exists key, DecodeBytes b = Some ([], key) /\ mvccDecode b = inr (key, 0))
        \/ (exists key rest ver,
              DecodeBytes b = Some (rest, key) /\ rest <> []
              /\ DecodeUintDesc rest = Some ([], ver)
              /\ mvccDecode b = inr (key, ver))).
Proof.
  split.
  - intros key ver Hver. unfold mocktikv.mvccEncode, mocktikv.mvccDecode.
    destruct (EncodeUintDesc_spec (EncodeBytes [] key) ver Hver)
      as (suffix & -> & Hne & Hdec).
    rewrite DecodeBytes_EncodeBytes_spec, len_eqb_0.
    destruct suffix as [|x suffix]; [congruence|].
    rewrite Hdec. reflexivity.
  - intros b. unfold mocktikv.mvccDecode.
    destruct (DecodeBytes b) as [[rest key]|] eqn:Eb.
    + rewrite len_eqb_0. destruct rest as [|x rest].
      * right; left. exists key. split; reflexivity.
      * destruct (DecodeUintDesc (x :: rest)) as [[rest' ver]|] eqn:Eu.
        -- rewrite len_eqb_0. destruct rest' as [|y rest'].
           ++ right; right. exists key, (x :: rest), ver.
              repeat split; [discriminate | assumption].
           ++ left. eexists. reflexivity.
        -- left. eexists. reflexivity.
    + left. eexists. reflexivity.
Qed.

End MvccKey_roundtrip.

Lemma mvccDecode_mvccEncode_witness :
  (forall (key : bytes) (ver : Z),
      0 <= ver <= U64.MaxUint64 ->
      mocktikv.mvccDecode codec.DecodeBytes codec.DecodeUintDesc
        (mocktikv.mvccEncode codec.EncodeBytes codec.EncodeUintDesc key ver)
      = inr (key, ver))
  /\ mocktikv.mvccDecode codec.DecodeBytes codec.DecodeUintDesc
       (mocktikv.mvccEncode codec.EncodeBytes codec.EncodeUintDesc (B "abcdefghi") 100)
     = inr (B "abcdefghi", 100).
Proof.
  pose proof (mvccDecode_mvccEncode codec.EncodeBytes codec.DecodeBytes
                codec.EncodeUintDesc codec.DecodeUintDesc
                DecodeBytes_EncodeBytes EncodeUintDesc_DecodeUintDesc) as [H _].
  split; [exact H|].
  apply H. vm_compute. split; discriminate.
Defined.

(** ** The ordered store *)

Section Store.
Import kvrpcpb mocktikv mvcc_spec.

Lemma bytes_Compare_Gt a b : bytes_Compare a b = Gt <-> bytes_Compare b a = Lt.
Proof.
  rewrite (bytes_Compare_opp a b). destruct (bytes_Compare a b); cbn; split; congruence.
Qed.

Lemma has_key_true key e : has_key key e = true <-> key_of e = key.
Proof. apply bytes_Equal_true. Qed.

Lemma lockVer_eq : lockVer = 18446744073709551615.
Proof. reflexivity. Qed.

Lemma mvcc_compare_eq a b : mvcc_compare a b = Eq <-> a = b.
Proof.
  destruct a as [ka va], b as [kb vb]. unfold mvcc_compare; cbn [fst snd].
  destruct (bytes_Compare ka kb) eqn:E.
  - apply bytes_Compare_eq in E. subst kb. rewrite Z.compare_eq_iff.
    split; [intros ->; reflexivity | intros H; inversion H; reflexivity].
  - split; [discriminate|]. intros H; inversion H; subst.
    rewrite bytes_Compare_refl in E. discriminate.
  - split; [discriminate|]. intros H; inversion H; subst.
    rewrite bytes_Compare_refl in E. discriminate.
Qed.

Lemma mvcc_compare_refl a : mvcc_compare a a = Eq.
Proof. now apply mvcc_compare_eq. Qed.

Lemma mvcc_compare_opp a b : mvcc_compare b a = CompOpp (mvcc_compare a b).
Proof.
  destruct a as [ka va], b as [kb vb]. unfold mvcc_compare; cbn [fst snd].
  rewrite (bytes_Compare_opp ka kb).
  destruct (bytes_Compare ka kb); cbn; try reflexivity.
  apply Z.compare_antisym.
Qed.

Lemma mvcc_compare_trans a b c :
  mvcc_compare a b = Lt -> mvcc_compare b c = Lt -> mvcc_compare a c = Lt.
Proof.
  destruct a as [ka va], b as [kb vb], c as [kc vc]. unfold mvcc_compare; cbn [fst snd].
  destruct (bytes_Compare ka kb) eqn:E1; try discriminate;
    destruct (bytes_Compare kb kc) eqn:E2; try discriminate; intros H1 H2.
  - apply bytes_Compare_eq in E1, E2. subst. rewrite bytes_Compare_refl.
    rewrite Z.compare_lt_iff in *. lia.
  - apply bytes_Compare_eq in E1. subst. now rewrite E2.
  - apply bytes_Compare_eq in E2. subst. now rewrite E1.
  - now rewrite (bytes_Compare_trans _ _ _ _ E1 E2).
Qed.

(** The key of a later entry is not below the key of an earlier one. *)
Lemma mvcc_compare_Lt_key a b :
  mvcc_compare a b = Lt -> bytes_Compare (fst a) (fst b) <> Gt.
Proof.
  unfold mvcc_compare. destruct (bytes_Compare (fst a) (fst b)); congruence.
Qed.

Lemma sorted_cons e db :
  sorted (e :: db) = true ->
  Forall (fun e' => mvcc_compare (fst e) (fst e') = Lt) db /\ sorted db = true.
Proof.
  revert e. induction db as [|e' db IH]; intros e H.
  - split; [constructor | reflexivity].
  - cbn [sorted] in H. apply andb_prop in H as [H1 H2].
    assert (Hlt : mvcc_compare (fst e) (fst e') = Lt)
      by (destruct (mvcc_compare (fst e) (fst e')); cbn in H1; congruence).
    split; [|exact H2].
    constructor; [exact Hlt|].
    destruct (IH e' H2) as [Hall _].
    eapply Forall_impl; [|exact Hall].
    intros x Hx. eapply mvcc_compare_trans; eassumption.
Qed.

Lemma sorted_intro e db :
  Forall (fun e' => mvcc_compare (fst e) (fst e') = Lt) db -> sorted db = true ->
  sorted (e :: db) = true.
Proof.
  intros Hall Hs. destruct db as [|e' db]; [reflexivity|].
  cbn [sorted]. inversion Hall; subst. rewrite H1. exact Hs.
Qed.

Lemma wf_db_cons e db :
  wf_db (e :: db) = true ->
  entry_ok e = true
  /\ Forall (fun e' => mvcc_compare (fst e) (fst e') = Lt) db
  /\ wf_db db = true.
Proof.
  unfold wf_db. intros H. apply andb_prop in H as [H1 H2].
  cbn [forallb] in H2. apply andb_prop in H2 as [H2 H3].
  destruct (sorted_cons _ _ H1) as [Ha Hs].
  repeat split; try assumption. now rewrite Hs, H3.
Qed.

Lemma wf_db_Forall db : wf_db db = true -> Forall (fun e => entry_ok e = true) db.
Proof.
  unfold wf_db. intros H. apply andb_prop in H as [_ H].
  apply Forall_forall. now apply forallb_forall.
Qed.

(** *** What an iterator at the lock slot of a key shows *)

(** After the lock slot of [key], an entry of [key] is a write record. *)
Lemma after_lock_slot key e :
  mvcc_compare (key, lockVer) (fst e) = Lt -> has_key key e = true ->
  (ver_of e =? lockVer) = false.
Proof.
  destruct e as [[k v] r]. unfold has_key, key_of, ver_of, mvcc_compare; cbn [fst snd].
  intros H Hk. apply bytes_Equal_true in Hk. subst k.
  rewrite bytes_Compare_refl in H. rewrite Z.compare_lt_iff in H.
  apply Z.eqb_neq. lia.
Qed.

Lemma after_lock_slot_entries key l :
  Forall (fun e => mvcc_compare (key, lockVer) (fst e) = Lt) l ->
  filter (has_key key) l = writeEntries l key /\ db_get (key, lockVer) l = None.
Proof.
  unfold writeEntries. induction l as [|e l IH]; intros H; [split; reflexivity|].
  inversion H as [|? ? He Hl]; subst. destruct (IH Hl) as [IH1 IH2].
  cbn [filter db_get]. rewrite (mvcc_compare_opp (key, lockVer) (fst e)), He. cbn [CompOpp].
  split; [|exact IH2].
  destruct (has_key key e) eqn:Hk; cbn [andb].
  - rewrite (after_lock_slot _ _ He Hk). cbn. now rewrite IH1.
  - exact IH1.
Qed.

Lemma writeEntries_cons e db key :
  writeEntries (e :: db) key
  = if has_key key e && negb (ver_of e =? lockVer) then e :: writeEntries db key
    else writeEntries db key.
Proof. reflexivity. Qed.

Lemma mvcc_compare_same_key key v1 v2 : mvcc_compare (key, v1) (key, v2) = (v2 ?= v1).
Proof. unfold mvcc_compare. cbn [fst snd]. now rewrite bytes_Compare_refl. Qed.

Lemma mvcc_compare_other_key k1 v1 k2 v2 :
  k1 <> k2 -> mvcc_compare (k1, v1) (k2, v2) = bytes_Compare k1 k2 /\ bytes_Compare k1 k2 <> Eq.
Proof.
  intros Hne. assert (Hc : bytes_Compare k1 k2 <> Eq) by now rewrite bytes_Compare_eq.
  split; [|exact Hc]. unfold mvcc_compare. cbn [fst snd].
  destruct (bytes_Compare k1 k2); congruence.
Qed.

(** The entries of one key: the lock record, if any, then the write records. *)
Lemma entries_of_key db key :
  wf_db db = true ->
  filter (has_key key) db
  = match db_get (key, lockVer) db with
    | Some r => ((key, lockVer), r) :: writeEntries db key
    | None => writeEntries db key
    end.
Proof.
  induction db as [|e db IH]; intros Hwf; [reflexivity|].
  destruct (wf_db_cons _ _ Hwf) as (Hok & Hall & Hwf').
  specialize (IH Hwf').
  rewrite writeEntries_cons. cbn [filter db_get].
  destruct (has_key key e) eqn:Hk; cbn [andb].
  - destruct e as [[k v] r]. apply has_key_true in Hk. cbn in Hk. subst k.
    cbn [fst snd] in *. rewrite mvcc_compare_same_key.
    unfold entry_ok, ver_of in Hok. cbn [fst snd] in Hok.
    apply andb_prop in Hok as [Hok _]. apply andb_prop in Hok as [_ Hok].
    apply Z.leb_le in Hok.
    assert (Hall' : Forall (fun e' => mvcc_compare (key, lockVer) (fst e') = Lt) db).
    { eapply Forall_impl; [|exact Hall]. intros x Hx.
      destruct (Z.eq_dec v lockVer) as [->|Hne]; [exact Hx|].
      eapply mvcc_compare_trans; [|exact Hx].
      rewrite mvcc_compare_same_key. apply Z.compare_lt_iff. lia. }
    destruct (after_lock_slot_entries _ _ Hall') as [E1 E2].
    unfold ver_of; cbn [fst snd].
    destruct (Z.eqb_spec v lockVer) as [->|Hne]; cbn [negb].
    + rewrite Z.compare_refl, E1. reflexivity.
    + assert (Hc : (lockVer ?= v) <> Eq) by (rewrite Z.compare_eq_iff; congruence).
      destruct (lockVer ?= v); [congruence| |]; rewrite E2, E1; reflexivity.
  - destruct e as [[k v] r]. apply bytes_Equal_false in Hk. cbn in Hk. cbn [fst snd].
    destruct (mvcc_compare_other_key k v key lockVer Hk) as [-> Hc].
    destruct (bytes_Compare k key); [congruence| |]; exact IH.
Qed.

End Store.

Section Iterators.
Import kvrpcpb mocktikv mvcc_spec.

Lemma key_run_all key l :
  Forall (fun e => has_key key e = true) l -> key_run key l = l.
Proof.
  induction 1 as [|e l He _ IH]; [reflexivity|]. cbn. now rewrite He, IH.
Qed.

Lemma filter_none_after key e l :
  bytes_Compare key (key_of e) = Lt ->
  Forall (fun e' => mvcc_compare (fst e) (fst e') = Lt) l ->
  filter (has_key key) l = [].
Proof.
  intros Hlt Hall. induction Hall as [|e' l He' _ IH]; [reflexivity|].
  cbn [filter]. rewrite IH.
  destruct (has_key key e') eqn:Hk; [|reflexivity].
  apply has_key_true in Hk. apply mvcc_compare_Lt_key in He'.
  unfold key_of in *. rewrite Hk in He'.
  apply bytes_Compare_Gt in Hlt. congruence.
Qed.

(** In a sorted list whose keys are not below [key], the entries of [key]
    come first. *)
Lemma key_run_filter key l :
  sorted l = true ->
  Forall (fun e => bytes_Compare key (key_of e) <> Gt) l ->
  key_run key l = filter (has_key key) l.
Proof.
  induction l as [|e l IH]; intros Hs Hge; [reflexivity|].
  destruct (sorted_cons _ _ Hs) as [Hall Hs'].
  inversion Hge as [|? ? He Hl]; subst.
  cbn [key_run filter]. destruct (has_key key e) eqn:Hk.
  - now rewrite IH.
  - symmetry. eapply filter_none_after; [|exact Hall].
    apply bytes_Equal_false in Hk.
    destruct (bytes_Compare key (key_of e)) eqn:E; [|reflexivity|congruence].
    apply bytes_Compare_eq in E. congruence.
Qed.

Lemma newIterator_entries db key :
  wf_db db = true ->
  key_run key (newIterator db (key, lockVer)) = filter (has_key key) db.
Proof.
  induction db as [|e db IH]; intros Hwf; [reflexivity|].
  destruct (wf_db_cons _ _ Hwf) as (Hok & Hall & Hwf').
  cbn [newIterator].
  destruct (mvcc_compare (fst e) (key, lockVer)) eqn:E; cbn [is_Lt].
  - (* the lock slot itself *)
    apply key_run_filter.
    + unfold wf_db in Hwf. now apply andb_prop in Hwf as [Hs _].
    + apply mvcc_compare_eq in E. constructor.
      * unfold key_of. rewrite E. cbn. rewrite bytes_Compare_refl. discriminate.
      * eapply Forall_impl; [|exact Hall]. intros x Hx.
        apply mvcc_compare_Lt_key in Hx. rewrite E in Hx. exact Hx.
  - (* before the lock slot: another key *)
    rewrite (IH Hwf'). cbn [filter].
    destruct (has_key key e) eqn:Hk; [|reflexivity]. exfalso.
    destruct e as [[k v] r]. apply has_key_true in Hk. cbn in Hk. subst k.
    cbn [fst] in E. rewrite mvcc_compare_same_key in E. rewrite Z.compare_lt_iff in E.
    unfold entry_ok, ver_of in Hok. cbn [fst snd] in Hok.
    apply andb_prop in Hok as [Hok _]. apply andb_prop in Hok as [_ Hok].
    apply Z.leb_le in Hok. lia.
  - apply key_run_filter.
    + unfold wf_db in Hwf. now apply andb_prop in Hwf as [Hs _].
    + assert (He : bytes_Compare key (key_of e) <> Gt).
      { rewrite mvcc_compare_opp in E.
        assert (E' : mvcc_compare (key, lockVer) (fst e) = Lt)
          by (destruct (mvcc_compare (key, lockVer) (fst e)); cbn in E; congruence).
        apply mvcc_compare_Lt_key in E'. exact E'. }
      constructor; [exact He|].
      eapply Forall_impl; [|exact Hall]. intros x Hx.
      apply mvcc_compare_Lt_key in Hx. unfold key_of in *.
      intros Hgt. apply bytes_Compare_Gt in Hgt.
      destruct (bytes_Compare (fst (fst e)) (fst (fst x))) eqn:E2; [| |congruence].
      * apply bytes_Compare_eq in E2. rewrite E2 in He. apply bytes_Compare_Gt in Hgt. congruence.
      * pose proof (bytes_Compare_trans _ _ _ _ E2 Hgt) as Ht.
        apply bytes_Compare_Gt in Ht. congruence.
Qed.

End Iterators.

Section Decoders.
Import kvrpcpb mocktikv mvcc_spec.

Lemma db_get_In k r db : db_get k db = Some r -> In (k, r) db.
Proof.
  induction db as [|e db IH]; [discriminate|]. cbn [db_get].
  destruct (mvcc_compare (fst e) k) eqn:E; intros H; try (right; now apply IH).
  left. apply mvcc_compare_eq in E. inversion H. destruct e; cbn in *; congruence.
Qed.

Lemma entry_ok_lock_slot key r :
  entry_ok ((key, lockVer), r) = true -> exists l, r = RLock l.
Proof.
  unfold entry_ok, ver_of. cbn [fst snd]. destruct r as [l|v]; [eauto|].
  rewrite Z.ltb_irrefl, andb_false_r. discriminate.
Qed.

Lemma entry_ok_write e :
  entry_ok e = true -> (ver_of e =? lockVer) = false ->
  exists v, snd e = RValue v /\ value_commitTS v = ver_of e.
Proof.
  unfold entry_ok. intros H Hv. apply andb_prop in H as [_ H].
  destruct (snd e) as [l|v]; [congruence|].
  apply andb_prop in H as [_ H]. apply Z.eqb_eq in H. eauto.
Qed.

Lemma lockOf_get db key :
  wf_db db = true ->
  db_get (key, lockVer) db = match lockOf db key with Some l => Some (RLock l) | None => None end.
Proof.
  intros Hwf. unfold lockOf. destruct (db_get (key, lockVer) db) as [r|] eqn:E; [|reflexivity].
  apply db_get_In in E. pose proof (wf_db_Forall _ Hwf) as Hall.
  rewrite Forall_forall in Hall. apply Hall in E.
  destruct (entry_ok_lock_slot _ _ E) as [l ->]. reflexivity.
Qed.

Lemma writeEntries_run db key : wf_db db = true -> write_run key (writeEntries db key).
Proof.
  intros Hwf. pose proof (wf_db_Forall _ Hwf) as Hall. rewrite Forall_forall in Hall.
  apply Forall_forall. intros e He. unfold writeEntries in He.
  apply filter_In in He as [Hin Hc]. apply andb_prop in Hc as [Hk Hv].
  apply negb_true_iff in Hv. repeat split; try assumption.
  destruct (entry_ok_write e (Hall _ Hin) Hv) as (v & Hv' & _). eauto.
Qed.

(** The iterator at the lock slot of a key of a well-formed store: the
    lock record, if any, then the write records. *)
Lemma newIterator_run db key :
  wf_db db = true ->
  key_run key (newIterator db (key, lockVer))
  = match lockOf db key with
    | Some l => ((key, lockVer), RLock l) :: writeEntries db key
    | None => writeEntries db key
    end.
Proof.
  intros Hwf. rewrite newIterator_entries, entries_of_key, lockOf_get by assumption.
  destruct (lockOf db key); reflexivity.
Qed.

(** *** The decoders read the run of the key only *)

Lemma key_run_idem key iter : key_run key (key_run key iter) = key_run key iter.
Proof.
  induction iter as [|e iter IH]; [reflexivity|]. cbn.
  destruct (has_key key e) eqn:Hk; [|reflexivity]. cbn. now rewrite Hk, IH.
Qed.

Lemma valueDecoder_run key iter :
  valueDecoder_Decode key iter
  = match valueDecoder_Decode key (key_run key iter) with
    | DecodeOk v _ => DecodeOk v (Next iter)
    | r => r
    end.
Proof.
  destruct iter as [|[[k ver] r] iter]; [reflexivity|].
  cbn [key_run]. unfold has_key, key_of. cbn [fst].
  destruct (bytes_Equal k key) eqn:Hk.
  - cbn. rewrite Hk. cbn. destruct (ver =? _); [reflexivity|]. destruct r; reflexivity.
  - cbn. rewrite Hk. reflexivity.
Qed.

Lemma lockDecoder_run key iter :
  lockDecoder_Decode key iter
  = match lockDecoder_Decode key (key_run key iter) with
    | DecodeOk l _ => DecodeOk l (Next iter)
    | r => r
    end.
Proof.
  destruct iter as [|[[k ver] r] iter]; [reflexivity|].
  cbn [key_run]. unfold has_key, key_of. cbn [fst].
  destruct (bytes_Equal k key) eqn:Hk.
  - cbn. rewrite Hk. cbn. destruct (ver =? _); [|reflexivity]. destruct r; reflexivity.
  - cbn. rewrite Hk. reflexivity.
Qed.

Lemma valueDecoder_Ok_run key iter v iter' :
  valueDecoder_Decode key iter = DecodeOk v iter' ->
  iter' = Next iter /\ key_run key iter' = tl (key_run key iter).
Proof.
  destruct iter as [|[[k ver] r] iter]; [discriminate|]. cbn.
  unfold has_key, key_of. cbn [fst].
  destruct (bytes_Equal k key); cbn; [|discriminate].
  destruct (ver =? _); [discriminate|]. destruct r; [discriminate|].
  intros H; inversion H; subst. split; reflexivity.
Qed.

Lemma lockDecoder_Ok_run key iter l iter' :
  lockDecoder_Decode key iter = DecodeOk l iter' ->
  iter' = Next iter /\ key_run key iter' = tl (key_run key iter).
Proof.
  destruct iter as [|[[k ver] r] iter]; [discriminate|]. cbn.
  unfold has_key, key_of. cbn [fst].
  destruct (bytes_Equal k key); cbn; [|discriminate].
  destruct (ver =? _); [|discriminate]. destruct r; [|discriminate].
  intros H; inversion H; subst. split; reflexivity.
Qed.

Lemma getValue_loop_run key ts iter :
  getValue_loop key ts iter = getValue_loop key ts (key_run key iter).
Proof.
  induction iter as [|e iter IH]; [reflexivity|].
  cbn [getValue_loop]. rewrite valueDecoder_run.
  cbn [key_run]. destruct (has_key key e) eqn:Hk; [|reflexivity].
  cbn [getValue_loop].
  destruct (valueDecoder_Decode key (e :: key_run key iter)); try reflexivity.
  rewrite IH. reflexivity.
Qed.

Lemma getTxnCommitInfo_run key ts iter :
  getTxnCommitInfo iter key ts = getTxnCommitInfo (key_run key iter) key ts.
Proof.
  induction iter as [|e iter IH]; [reflexivity|].
  cbn [getTxnCommitInfo]. rewrite valueDecoder_run.
  cbn [key_run]. destruct (has_key key e) eqn:Hk; [|reflexivity].
  cbn [getTxnCommitInfo].
  destruct (valueDecoder_Decode key (e :: key_run key iter)); try reflexivity.
  rewrite IH. reflexivity.
Qed.

Lemma getValue_run iter key ts iso resolved :
  getValue iter key ts iso resolved = getValue (key_run key iter) key ts iso resolved.
Proof.
  unfold getValue. rewrite lockDecoder_run.
  destruct iter as [|e iter]; [reflexivity|].
  cbn [key_run]. destruct (has_key key e) eqn:Hk.
  - destruct (lockDecoder_Decode key (e :: key_run key iter)) as [err| |l it] eqn:E.
    + reflexivity.
    + rewrite !(getValue_loop_run key ts (e :: _)). cbn [key_run]. rewrite Hk.
      now rewrite key_run_idem.
    + apply lockDecoder_Ok_run in E as [-> _]. cbn [Next tl].
      assert (H : forall s, getValue_loop key s iter = getValue_loop key s (key_run key iter))
        by (intros s; apply getValue_loop_run).
      destruct (IsolationLevel_eqb iso IsolationLevel_SI); [|apply H].
      destruct (check l ts key resolved) as [s [err|]]; [reflexivity | apply H].
  - cbn [lockDecoder_Decode]. rewrite getValue_loop_run. cbn [key_run]. now rewrite Hk.
Qed.

End Decoders.

Section Get.
Import kvrpcpb mocktikv mvcc_spec.

Lemma valueDecoder_write key e v it :
  has_key key e = true -> (ver_of e =? lockVer) = false -> snd e = RValue v ->
  valueDecoder_Decode key (e :: it) = DecodeOk v it.
Proof.
  destruct e as [[k ver] r]. unfold has_key, key_of, ver_of. cbn [fst snd].
  intros Hk Hv ->. unfold valueDecoder_Decode. rewrite Hk, Hv. reflexivity.
Qed.

Lemma lockDecoder_write key ws :
  write_run key ws -> lockDecoder_Decode key ws = DecodeNo.
Proof.
  intros H. destruct H as [|e ws (Hk & Hv & _) _]; [reflexivity|].
  destruct e as [[k ver] r]. unfold has_key, key_of, ver_of in *. cbn [fst snd] in *.
  unfold lockDecoder_Decode. rewrite Hk, Hv. reflexivity.
Qed.

Lemma lockDecoder_lock key l it :
  lockDecoder_Decode key (((key, lockVer), RLock l) :: it) = DecodeOk l it.
Proof.
  unfold lockDecoder_Decode. rewrite bytes_Equal_refl, Z.eqb_refl. reflexivity.
Qed.

Lemma getValue_loop_writes key ts ws :
  write_run key ws ->
  getValue_loop key ts ws
  = inr match find (readable ts) (flat_map value_of ws) with
        | Some v => match valueType v with typePut => Some (value_value v) | _ => None end
        | None => None
        end.
Proof.
  induction 1 as [|e ws (Hk & Hv & v & Hr) _ IH]; [reflexivity|].
  cbn [getValue_loop flat_map]. rewrite (valueDecoder_write key e v ws Hk Hv Hr).
  unfold value_of at 1. rewrite Hr. cbn [app find]. unfold readable at 1.
  destruct (valueType v) eqn:Ety; cbn [mvccValueType_eqb orb];
    try exact IH; destruct (value_commitTS v <=? ts); rewrite ?Ety; try reflexivity;
    exact IH.
Qed.

Lemma writesOf_cons e db key :
  writesOf (e :: db) key
  = (if has_key key e && negb (ver_of e =? lockVer) then value_of e else [])
    ++ writesOf db key.
Proof.
  unfold writesOf. rewrite writeEntries_cons.
  destruct (has_key key e && negb (ver_of e =? lockVer)); reflexivity.
Qed.

Lemma writesOf_In db key v :
  wf_db db = true -> In v (writesOf db key) ->
  In ((key, value_commitTS v), RValue v) db.
Proof.
  intros Hwf Hin. unfold writesOf in Hin. apply in_flat_map in Hin as (e & He & Hv).
  unfold writeEntries in He. apply filter_In in He as [Hin Hc].
  apply andb_prop in Hc as [Hk Hver]. apply negb_true_iff in Hver.
  pose proof (wf_db_Forall _ Hwf) as Hall. rewrite Forall_forall in Hall.
  destruct (entry_ok_write e (Hall _ Hin) Hver) as (v' & Hr & Hc).
  unfold value_of in Hv. rewrite Hr in Hv. destruct Hv as [<-|[]].
  apply has_key_true in Hk. destruct e as [[k ver] r]. cbn in *. subst. exact Hin.
Qed.

(** The write records of a key are kept newest first. *)
Lemma writesOf_descending db key :
  wf_db db = true ->
  StronglySorted (fun a b => value_commitTS b < value_commitTS a) (writesOf db key).
Proof.
  induction db as [|e db IH]; intros Hwf; [constructor|].
  destruct (wf_db_cons _ _ Hwf) as (Hok & Hall & Hwf').
  rewrite writesOf_cons.
  destruct (has_key key e && negb (ver_of e =? lockVer)) eqn:Hc; [|now apply IH].
  apply andb_prop in Hc as [Hk Hver]. apply negb_true_iff in Hver.
  destruct (entry_ok_write e Hok Hver) as (v & Hr & Hcts).
  unfold value_of. rewrite Hr. cbn [app]. constructor; [now apply IH|].
  apply Forall_forall. intros v' Hv'. apply (writesOf_In _ _ _ Hwf') in Hv'.
  rewrite Forall_forall in Hall. apply Hall in Hv'. cbn [fst] in Hv'.
  apply has_key_true in Hk. destruct e as [[k ver] r]. cbn in *. subst.
  rewrite mvcc_compare_same_key in Hv'. now rewrite Z.compare_lt_iff in Hv'.
Qed.

(** C1.  On a well-formed store, [Get] returns a [Locked] error when the
    key has a lock record, the isolation level is snapshot isolation and
    the lock is visible; otherwise it returns the value of the first write
    record of the key, newest first, that is a Put or a Delete with
    [commit_ts <= start_ts], not-found for a Delete or when there is none,
    Rollback and Lock records being skipped.  The write records of the key
    are walked in descending order of [commit_ts]. *)
Theorem Get_refines_spec :
  forall (db : DB) (key : bytes) (start_ts : Z) (iso : IsolationLevel) (resolved : list Z),
    wf_db db = true ->
    Get db key start_ts iso resolved = Get_spec db key start_ts iso resolved
    /\ StronglySorted (fun a b => value_commitTS b < value_commitTS a) (writesOf db key).
Proof.
  intros db key ts iso resolved Hwf. split; [|now apply writesOf_descending].
  unfold Get, Get_spec. rewrite getValue_run, newIterator_run by assumption.
  pose proof (writeEntries_run db key Hwf) as Hrun.
  unfold read, writesOf.
  destruct (lockOf db key) as [l|].
  - unfold getValue. rewrite lockDecoder_lock.
    destruct (IsolationLevel_eqb iso IsolationLevel_SI); cbn [andb].
    + unfold check, visible, lockErr.
      destruct ((lock_startTS l <=? ts) && negb (existsb (Z.eqb (lock_startTS l)) resolved));
        [reflexivity|]. now apply getValue_loop_writes.
    + now apply getValue_loop_writes.
  - unfold getValue. rewrite lockDecoder_write by assumption.
    now apply getValue_loop_writes.
Qed.

Lemma Get_refines_spec_witness :
  Get scenario.committed_store (B "a") 120 IsolationLevel_SI []
  = Get_spec scenario.committed_store (B "a") 120 IsolationLevel_SI []
  /\ StronglySorted (fun a b => value_commitTS b < value_commitTS a)
       (writesOf scenario.committed_store (B "a")).
Proof.
  apply (Get_refines_spec scenario.committed_store (B "a") 120 IsolationLevel_SI []).
  reflexivity.
Defined.


End Get.

Section Commit_Rollback.
Import kvrpcpb mocktikv mvcc_spec.

(** What the lock decoder finds at the lock slot of a key, and what the
    iterator shows after it. *)
Lemma lock_phase db key :
  wf_db db = true ->
  let iter := newIterator db (key, lockVer) in
  match lockOf db key with
  | Some l =>
      lockDecoder_Decode key iter = DecodeOk l (Next iter)
      /\ key_run key (Next iter) = writeEntries db key
      /\ Valid iter = true
  | None =>
      lockDecoder_Decode key iter = DecodeNo
      /\ key_run key iter = writeEntries db key
  end.
Proof.
  intros Hwf iter. pose proof (newIterator_run db key Hwf) as Hrun. fold iter in Hrun.
  pose proof (writeEntries_run db key Hwf) as Hw.
  destruct (lockOf db key) as [l|].
  - assert (E : lockDecoder_Decode key iter = DecodeOk l (Next iter))
      by (rewrite lockDecoder_run, Hrun, lockDecoder_lock; reflexivity).
    split; [exact E|]. apply lockDecoder_Ok_run in E as [_ E].
    rewrite E, Hrun. split; [reflexivity|].
    destruct iter; [discriminate Hrun | reflexivity].
  - split; [|exact Hrun]. rewrite lockDecoder_run, Hrun, lockDecoder_write by assumption.
    reflexivity.
Qed.

Lemma getTxnCommitInfo_writes key ts ws :
  write_run key ws ->
  getTxnCommitInfo ws key ts
  = match find (fun v => value_startTS v =? ts) (flat_map value_of ws) with
    | Some v => InfoFound v
    | None => InfoNone
    end.
Proof.
  induction 1 as [|e ws (Hk & Hv & v & Hr) _ IH]; [reflexivity|].
  cbn [getTxnCommitInfo flat_map]. rewrite (valueDecoder_write key e v ws Hk Hv Hr).
  unfold value_of at 1. rewrite Hr. cbn [app find].
  destruct (value_startTS v =? ts); [reflexivity | exact IH].
Qed.

(** The commit information of a transaction, read behind the lock slot. *)
Lemma getTxnCommitInfo_writeOfTxn db key ts iter :
  wf_db db = true -> key_run key iter = writeEntries db key ->
  getTxnCommitInfo iter key ts
  = match writeOfTxn db key ts with Some v => InfoFound v | None => InfoNone end.
Proof.
  intros Hwf Hrun. rewrite getTxnCommitInfo_run, Hrun.
  apply getTxnCommitInfo_writes. now apply writeEntries_run.
Qed.

Lemma valueType_Rollback_eqb v :
  mvccValueType_eqb (valueType v) typeRollback
  = match valueType v with typeRollback => true | _ => false end.
Proof. destruct (valueType v); reflexivity. Qed.

Lemma commitLock_committed batch l key s c :
  commitLock batch l key s c
  = batch ++ [BPut (key, c) (RValue (committed l s c)); BDelete (key, lockVer)].
Proof.
  unfold commitLock, committed. destruct (lock_op l); reflexivity.
Qed.

(** C2.  Commit on one key of a well-formed store.  When the key has no
    lock or a lock of another transaction, the commit succeeds without
    writing if the transaction has a write record on the key that is not a
    Rollback, and fails with "txn not found" if that record is a Rollback
    or there is none.  When the key has the lock of the transaction and
    [commit_ts] is below the lock's [min_commit_ts], the commit fails with
    [CommitTsExpired] carrying [start_ts], [commit_ts] and [min_commit_ts].
    Otherwise the batch gets the write record at [commit_ts], of the type
    of the lock's operation, and the deletion of the lock. *)
Theorem commitKey_refines_spec :
  forall (db : DB) (batch : Batch) (key : bytes) (start_ts commit_ts : Z),
    wf_db db = true ->
    commitKey db batch key start_ts commit_ts
    = (batch ++ fst (commitKey_spec db key start_ts commit_ts),
       snd (commitKey_spec db key start_ts commit_ts))
    /\ Commit db [key] start_ts commit_ts
       = (Write db (fst (commitKey_spec db key start_ts commit_ts)),
          snd (commitKey_spec db key start_ts commit_ts)).
Proof.
  intros db batch key s c Hwf.
  assert (H : forall batch,
             commitKey db batch key s c
             = (batch ++ fst (commitKey_spec db key s c), snd (commitKey_spec db key s c))).
  { clear batch. intros batch. unfold commitKey, commitKey_spec.
    pose proof (lock_phase db key Hwf) as Hl. cbv zeta in Hl.
    destruct (lockOf db key) as [l|].
    - destruct Hl as (-> & Hrun & _).
      destruct (lock_startTS l =? s); cbn [negb].
      + destruct (c <? lock_minCommitTS l); cbn [fst snd].
        * now rewrite app_nil_r.
        * now rewrite commitLock_committed.
      + rewrite (getTxnCommitInfo_writeOfTxn db key s _ Hwf Hrun).
        destruct (writeOfTxn db key s) as [v|]; [|now rewrite app_nil_r].
        rewrite valueType_Rollback_eqb.
        destruct (valueType v); cbn [negb fst snd]; now rewrite app_nil_r.
    - destruct Hl as (-> & Hrun).
      rewrite (getTxnCommitInfo_writeOfTxn db key s _ Hwf Hrun).
      destruct (writeOfTxn db key s) as [v|]; [|now rewrite app_nil_r].
      rewrite valueType_Rollback_eqb.
      destruct (valueType v); cbn [negb fst snd]; now rewrite app_nil_r. }
  split; [apply H|].
  unfold Commit. cbn [Commit_loop]. rewrite H. cbn [app].
  destruct (commitKey_spec db key s c) as [ops [err|]] eqn:E; cbn [fst snd]; [|reflexivity].
  f_equal. unfold commitKey_spec in E.
  destruct (lockOf db key) as [l|];
    repeat match type of E with
           | context [if ?b then _ else _] => destruct b
           | context [match ?x with _ => _ end] => destruct x
           end; inversion E; reflexivity.
Qed.

Lemma commitKey_refines_spec_witness :
  commitKey scenario.locked [] (B "a") 100 110
  = ([] ++ fst (commitKey_spec scenario.locked (B "a") 100 110),
     snd (commitKey_spec scenario.locked (B "a") 100 110))
  /\ Commit scenario.locked [B "a"] 100 110
     = (Write scenario.locked (fst (commitKey_spec scenario.locked (B "a") 100 110)),
        snd (commitKey_spec scenario.locked (B "a") 100 110)).
Proof.
  apply (commitKey_refines_spec scenario.locked [] (B "a") 100 110). reflexivity.
Defined.


Lemma db_get_put k' k r db :
  db_get k' (db_put k r db)
  = match mvcc_compare k k' with Eq => Some r | _ => db_get k' db end.
Proof.
  induction db as [|e db IH].
  - cbn. destruct (mvcc_compare k k'); reflexivity.
  - cbn [db_put db_get]. destruct (mvcc_compare (fst e) k) eqn:E.
    + apply mvcc_compare_eq in E. cbn [db_get fst snd]. rewrite E.
      destruct (mvcc_compare k k'); reflexivity.
    + cbn [db_get]. rewrite IH.
      destruct (mvcc_compare (fst e) k') eqn:E'; try reflexivity.
      apply mvcc_compare_eq in E'. rewrite <- E'.
      rewrite mvcc_compare_opp, E. reflexivity.
    + cbn [db_get fst snd]. destruct (mvcc_compare k k'); reflexivity.
Qed.

Lemma db_get_delete_other k' k db :
  k' <> k -> db_get k' (db_delete k db) = db_get k' db.
Proof.
  intros Hne. induction db as [|e db IH]; [reflexivity|].
  cbn [db_delete db_get]. destruct (mvcc_compare (fst e) k) eqn:E.
  - apply mvcc_compare_eq in E.
    destruct (mvcc_compare (fst e) k') eqn:E'; try reflexivity.
    apply mvcc_compare_eq in E'. congruence.
  - cbn [db_get]. rewrite IH. reflexivity.
  - reflexivity.
Qed.

Lemma db_get_writesOf db key ts v :
  ts <> lockVer -> db_get (key, ts) db = Some (RValue v) -> In v (writesOf db key).
Proof.
  intros Hne H. apply db_get_In in H. unfold writesOf. apply in_flat_map.
  exists ((key, ts), RValue v). split; [|now left].
  unfold writeEntries. apply filter_In. split; [exact H|].
  unfold has_key, key_of, ver_of. cbn [fst snd]. rewrite bytes_Equal_refl.
  apply Z.eqb_neq in Hne. now rewrite Hne.
Qed.

Lemma mvcc_compare_neq k k' : k <> k' -> mvcc_compare k k' <> Eq.
Proof. intros H E. apply mvcc_compare_eq in E. contradiction. Qed.

Lemma rollbackKey_spec_eq db batch key s :
  wf_db db = true ->
  rollbackKey db batch key s
  = (batch ++ fst (rollbackKey_spec db key s), snd (rollbackKey_spec db key s)).
Proof.
  intros Hwf. unfold rollbackKey, rollbackKey_spec.
  pose proof (lock_phase db key Hwf) as Hl. cbv zeta in Hl.
  destruct (lockOf db key) as [l|].
  - destruct Hl as (-> & Hrun & ->).
    destruct (lock_startTS l =? s); cbn [negb fst snd].
    + unfold rollbackLock, writeRollback, tombstone. now rewrite <- app_assoc.
    + rewrite (getTxnCommitInfo_writeOfTxn db key s _ Hwf Hrun).
      destruct (writeOfTxn db key s) as [v|]; [|reflexivity].
      rewrite valueType_Rollback_eqb.
      destruct (valueType v); cbn [negb fst snd]; now rewrite app_nil_r.
  - destruct Hl as (-> & Hrun).
    assert (E : getTxnCommitInfo (newIterator db (key, lockVer)) key s
                = match writeOfTxn db key s with Some v => InfoFound v | None => InfoNone end)
      by now apply getTxnCommitInfo_writeOfTxn.
    destruct (Valid (newIterator db (key, lockVer))) eqn:Ev.
    + rewrite E. destruct (writeOfTxn db key s) as [v|]; [|reflexivity].
      rewrite valueType_Rollback_eqb.
      destruct (valueType v); cbn [negb fst snd]; now rewrite app_nil_r.
    + destruct (newIterator db (key, lockVer)); [|discriminate].
      cbn in E. destruct (writeOfTxn db key s); [discriminate | reflexivity].
Qed.

Lemma rollbackKey_spec_cases db key s :
  rollbackKey_spec db key s
  = if lockedBy db key s
    then ([BPut (key, s) (RValue (tombstone s)); BDelete (key, lockVer)], None)
    else
      match writeOfTxn db key s with
      | Some v =>
          match valueType v with
          | typeRollback => ([], None)
          | _ => ([], Some (ErrAlreadyCommitted (value_commitTS v)))
          end
      | None => ([BPut (key, s) (RValue (tombstone s))], None)
      end.
Proof.
  unfold rollbackKey_spec, lockedBy.
  destruct (lockOf db key) as [l|]; [destruct (lock_startTS l =? s)|]; reflexivity.
Qed.

(** C3, as amended.  Rollback on one key of a well-formed store.  When the
    key has the lock of the transaction, the batch gets a Rollback
    tombstone at [start_ts] and the deletion of the lock.  Otherwise, when
    the transaction has a write record on the key, nothing is written: a
    record that is not a Rollback gives [AlreadyCommitted], a Rollback
    gives success; and when it has none the batch gets the tombstone.
    After a successful [Rollback] with [start_ts] below [lockVer], the key
    has a Rollback record of [start_ts]. *)
Theorem rollbackKey_refines_spec :
  forall (db : DB) (batch : Batch) (key : bytes) (start_ts : Z),
    wf_db db = true ->
    rollbackKey db batch key start_ts
    = (batch ++ fst (rollbackKey_spec db key start_ts),
       snd (rollbackKey_spec db key start_ts))
    /\ (forall db',
          start_ts < lockVer ->
          Rollback db [key] start_ts = (db', None) ->
          exists v, In v (writesOf db' key)
                    /\ valueType v = typeRollback /\ value_startTS v = start_ts).
Proof.
  intros db batch key s Hwf. split; [now apply rollbackKey_spec_eq|].
  intros db' Hs. unfold Rollback. cbn [Rollback_loop].
  rewrite rollbackKey_spec_eq by assumption. cbn [app].
  assert (Hne : s <> lockVer) by lia.
  assert (Hk : (key, s) <> (key, lockVer)) by congruence.
  rewrite rollbackKey_spec_cases.
  destruct (lockedBy db key s) eqn:Hlb.
  - cbn [fst snd].
    intros H; inversion H; subst db'. exists (tombstone s). repeat split.
    apply (db_get_writesOf _ key s); [exact Hne|].
    cbn [Write fold_left apply_op].
    rewrite db_get_delete_other, db_get_put, mvcc_compare_refl by exact Hk. reflexivity.
  - destruct (writeOfTxn db key s) as [v|] eqn:Ew.
    + unfold writeOfTxn in Ew. apply find_some in Ew as [Hin Hv]. apply Z.eqb_eq in Hv.
      destruct (valueType v) eqn:Ety; cbn [fst snd]; intros H; inversion H; subst db'.
      exists v. repeat split; assumption.
    + cbn [fst snd]. intros H; inversion H; subst db'. exists (tombstone s). repeat split.
      apply (db_get_writesOf _ key s); [exact Hne|].
      cbn [Write fold_left apply_op]. rewrite db_get_put, mvcc_compare_refl. reflexivity.
Qed.

Lemma rollbackKey_refines_spec_witness :
  rollbackKey scenario.locked [] (B "a") 100
  = ([] ++ fst (rollbackKey_spec scenario.locked (B "a") 100),
     snd (rollbackKey_spec scenario.locked (B "a") 100))
  /\ (forall db',
        100 < lockVer ->
        Rollback scenario.locked [B "a"] 100 = (db', None) ->
        exists v, In v (writesOf db' (B "a"))
                  /\ valueType v = typeRollback /\ value_startTS v = 100).
Proof.
  apply (rollbackKey_refines_spec scenario.locked [] (B "a") 100). reflexivity.
Defined.

(** C3, as stated, fails: the key "a" has no lock and carries the write
    record that transaction 100 committed at 110; [Rollback] at 100 writes
    no tombstone, it returns [AlreadyCommitted] and leaves the store as it
    was. *)
Lemma Rollback_counterexample :
  lockedBy scenario.committed_store (B "a") 100 = false
  /\ rollbackKey scenario.committed_store [] (B "a") 100
     = ([], Some (ErrAlreadyCommitted 110))
  /\ Rollback scenario.committed_store [B "a"] 100
     = (scenario.committed_store, Some (ErrAlreadyCommitted 110)).
Proof. vm_compute. repeat split; reflexivity. Qed.


End Commit_Rollback.

Section CheckTxnStatus.
Import kvrpcpb mocktikv mvcc_spec.

(** C4, as amended.  On a well-formed store where the primary key has no
    lock of [lock_ts] and no write record of [lock_ts]: with
    [rollback_if_not_exist] and without [resolving_pessimistic],
    [CheckTxnStatus] writes a Rollback tombstone at [lock_ts], returns
    [(0, 0)] with action [LockNotExistRollback], and leaves the lock slot
    of the primary key as it was; with [rollback_if_not_exist] and
    [resolving_pessimistic] it writes nothing and returns [(0, 0)] with
    action [LockNotExistDoNothing]; without [rollback_if_not_exist] it
    returns a [TxnNotFound] error. *)
Theorem CheckTxnStatus_not_found :
  forall (ExtractPhysical : Z -> Z) (db : DB) (primary : bytes)
         (lock_ts caller_ts current_ts : Z)
         (rollback_if_not_exist resolving_pessimistic : bool),
    wf_db db = true ->
    lockedBy db primary lock_ts = false ->
    writeOfTxn db primary lock_ts = None ->
    let st := CheckTxnStatus ExtractPhysical db primary lock_ts caller_ts current_ts
                rollback_if_not_exist resolving_pessimistic in
    st = (if rollback_if_not_exist then
            if resolving_pessimistic then
              {| status_db := db; status_ttl := 0; status_commitTS := 0;
                 status_action := Action_LockNotExistDoNothing; status_err := None |}
            else
              {| status_db := Write db [BPut (primary, lock_ts) (RValue (tombstone lock_ts))];
                 status_ttl := 0; status_commitTS := 0;
                 status_action := Action_LockNotExistRollback; status_err := None |}
          else
            {| status_db := db; status_ttl := 0; status_commitTS := 0;
               status_action := Action_NoAction;
               status_err := Some (ErrTxnNotFound lock_ts primary) |})
    /\ (rollback_if_not_exist = true -> resolving_pessimistic = false ->
        lock_ts <> lockVer ->
        db_get (primary, lock_ts) (status_db st) = Some (RValue (tombstone lock_ts))
        /\ db_get (primary, lockVer) (status_db st) = db_get (primary, lockVer) db).
Proof.
  intros EP db p s caller current rb rp Hwf Hlb Hw st.
  assert (E : st = (if rb then
            if rp then
              {| status_db := db; status_ttl := 0; status_commitTS := 0;
                 status_action := Action_LockNotExistDoNothing; status_err := None |}
            else
              {| status_db := Write db [BPut (p, s) (RValue (tombstone s))];
                 status_ttl := 0; status_commitTS := 0;
                 status_action := Action_LockNotExistRollback; status_err := None |}
          else
            {| status_db := db; status_ttl := 0; status_commitTS := 0;
               status_action := Action_NoAction;
               status_err := Some (ErrTxnNotFound s p) |})).
  { subst st. unfold CheckTxnStatus.
    pose proof (lock_phase db p Hwf) as Hl. cbv zeta in Hl.
    unfold lockedBy in Hlb.
    destruct (lockOf db p) as [l|].
    - destruct Hl as (-> & Hrun & ->). rewrite Hlb.
      rewrite (getTxnCommitInfo_writeOfTxn db p s _ Hwf Hrun), Hw. reflexivity.
    - destruct Hl as (-> & Hrun).
      destruct (Valid (newIterator db (p, lockVer))); [|reflexivity].
      rewrite (getTxnCommitInfo_writeOfTxn db p s _ Hwf Hrun), Hw. reflexivity. }
  split; [exact E|].
  intros -> -> Hne. rewrite E. cbn [status_db Write fold_left apply_op].
  rewrite !db_get_put, mvcc_compare_refl. split; [reflexivity|].
  destruct (mvcc_compare (p, s) (p, lockVer)) eqn:Ec; try reflexivity.
  apply mvcc_compare_eq in Ec. congruence.
Qed.

Lemma CheckTxnStatus_not_found_witness :
  db_get (B "a", 90)
    (status_db (CheckTxnStatus scenario.ExtractPhysical scenario.locked (B "a") 90 120 120
                  true false))
  = Some (RValue (tombstone 90))
  /\ db_get (B "a", lockVer)
       (status_db (CheckTxnStatus scenario.ExtractPhysical scenario.locked (B "a") 90 120 120
                     true false))
     = db_get (B "a", lockVer) scenario.locked.
Proof.
  refine (proj2 (CheckTxnStatus_not_found scenario.ExtractPhysical scenario.locked (B "a")
                   90 120 120 true false _ _ _) _ _ _);
    try reflexivity.
  vm_compute. discriminate.
Defined.

(** C4, as stated, fails: with [rollback_if_not_exist] and
    [resolving_pessimistic] both set, for a transaction that has neither a
    lock nor a write record on the primary key, [CheckTxnStatus] writes no
    tombstone and answers [LockNotExistDoNothing]. *)
Lemma CheckTxnStatus_counterexample :
  lockedBy scenario.locked (B "a") 90 = false
  /\ writeOfTxn scenario.locked (B "a") 90 = None
  /\ CheckTxnStatus scenario.ExtractPhysical scenario.locked (B "a") 90 120 120 true true
     = {| status_db := scenario.locked; status_ttl := 0; status_commitTS := 0;
          status_action := Action_LockNotExistDoNothing; status_err := None |}.
Proof. vm_compute. repeat split; reflexivity. Qed.


End CheckTxnStatus.

Section Prewrite.
Import kvrpcpb mocktikv mvcc_spec.

Lemma prewriteMutation_batch db batch m s p ttl sz isP mc lvl :
  prewriteMutation db batch m s p ttl sz isP mc lvl
  = (batch ++ fst (prewriteMutation db [] m s p ttl sz isP mc lvl),
     snd (prewriteMutation db [] m s p ttl sz isP mc lvl)).
Proof.
  unfold prewriteMutation, installLock.
  repeat match goal with
         | |- context [match ?x with _ => _ end] => destruct x
         end; cbn [fst snd app]; rewrite ?app_nil_r; reflexivity.
Qed.


Lemma Prewrite_loop_turns db req :
  forall (ms : list Mutation) (fl : list bool) (i : nat) batch errs any,
    List.length fl = List.length ms ->
    (forall j b, nth_error fl j = Some b ->
                 (if 0 <? len (IsPessimisticLock req)
                  then nth_error (IsPessimisticLock req) (i + j)
                  else Some false) = Some b) ->
    let turns := map (prewriteTurn db req) (combine ms fl) in
    Prewrite_loop db req i ms batch errs any
    = Some (batch ++ List.concat (map snd turns), errs ++ List.concat (map fst turns),
            any || existsb is_err (List.concat (map fst turns))).
Proof.
  induction ms as [|m ms IH]; intros fl i batch errs any Hlen Hfl.
  - destruct fl; [|discriminate]. cbn. now rewrite !app_nil_r, orb_false_r.
  - destruct fl as [|f fl]; [discriminate|]. cbn [List.length] in Hlen.
    assert (IHs : forall batch errs any,
               Prewrite_loop db req (S i) ms batch errs any
               = Some (batch ++ List.concat (map snd (map (prewriteTurn db req) (combine ms fl))),
                       errs ++ List.concat (map fst (map (prewriteTurn db req) (combine ms fl))),
                       any || existsb is_err
                                (List.concat (map fst (map (prewriteTurn db req) (combine ms fl)))))).
    { intros. apply IH; [lia|]. intros j b Hj.
      specialize (Hfl (S j) b Hj). now rewrite Nat.add_succ_r in Hfl. }
    pose proof (Hfl 0%nat f eq_refl) as Hf. rewrite Nat.add_0_r in Hf.
    cbv zeta. cbn [combine map List.concat Prewrite_loop]. unfold prewriteTurn at 1 3 5.
    set (checked := if (Op_eqb (Mutation_Op m) Op_Insert
                        || Op_eqb (Mutation_Op m) Op_CheckNotExists)
                       && (ForUpdateTs req =? 0)
                    then _ else None).
    destruct checked as [err|].
    + rewrite IHs. cbn [fst snd app existsb is_err is_nil negb].
      rewrite <- app_assoc, orb_true_r. reflexivity.
    + destruct (Op_eqb (Mutation_Op m) Op_CheckNotExists).
      * rewrite IHs. reflexivity.
      * rewrite Hf. rewrite prewriteMutation_batch.
        destruct (prewriteMutation db [] m (StartVersion req) (PrimaryLock req)
                    (LockTtl req) (TxnSize req) f (MinCommitTs req)
                    (ReqAssertionLevel req)) as [ops err].
        cbn [fst snd]. rewrite IHs. cbn [app existsb].
        rewrite <- !app_assoc, orb_assoc. reflexivity.
Qed.

Lemma flagsOf_lookup req :
  forall j b, nth_error (flagsOf req) j = Some b ->
              (if 0 <? len (IsPessimisticLock req)
               then nth_error (IsPessimisticLock req) (0 + j)
               else Some false) = Some b.
Proof.
  intros j b. unfold flagsOf. destruct (IsPessimisticLock req) as [|f fl] eqn:E.
  - cbn. intros H. apply nth_error_In, repeat_spec in H. now subst.
  - unfold len. cbn [List.length]. intros H.
    replace (0 <? Z.of_nat (S (List.length fl))) with true by (symmetry; apply Z.ltb_lt; lia).
    exact H.
Qed.

(** [Prewrite] as a whole: the turns of its loop, then the write of the
    batch when no turn gave an error. *)
Lemma Prewrite_turns db req :
  flags_ok req ->
  let turns := map (prewriteTurn db req) (flagged req) in
  let errs := List.concat (map fst turns) in
  Prewrite db req
  = Some (if existsb is_err errs then db else Write db (List.concat (map snd turns)), errs).
Proof.
  intros Hok. cbv zeta. unfold Prewrite.
  rewrite (Prewrite_loop_turns db req (Mutations req) (flagsOf req) 0 [] [] false Hok
             (flagsOf_lookup req)).
  cbn [app orb]. fold (flagged req).
  destruct (existsb is_err _); reflexivity.
Qed.

Lemma existsb_is_err errs : existsb is_err errs = true <-> exists err, In (Some err) errs.
Proof.
  rewrite existsb_exists. split.
  - intros ([err|] & Hin & H); [eauto | discriminate].
  - intros (err & Hin). exists (Some err). split; [exact Hin | reflexivity].
Qed.

(** C10.  A request whose flags match its mutations always gets an answer
    from [Prewrite], and when the error list holds an error the store is
    the one before the call: the batch is written only when every turn of
    the loop succeeded. *)
Theorem Prewrite_error_leaves_store :
  forall (db : DB) (req : PrewriteRequest),
    flags_ok req ->
    exists db' errs,
      Prewrite db req = Some (db', errs)
      /\ ((exists err, In (Some err) errs) -> db' = db)
      /\ (no_error errs ->
          db' = Write db (List.concat (map snd (map (prewriteTurn db req) (flagged req))))).
Proof.
  intros db req Hok. rewrite (Prewrite_turns db req Hok).
  do 2 eexists. split; [reflexivity|]. split.
  - intros H. apply existsb_is_err in H. now rewrite H.
  - intros H. destruct (existsb is_err _) eqn:E; [|reflexivity].
    apply existsb_is_err in E as (err & Hin).
    unfold no_error in H. rewrite Forall_forall in H. apply H in Hin. discriminate.
Qed.

Lemma Prewrite_error_leaves_store_witness :
  exists db' errs,
    Prewrite scenario.locked
      (scenario.request 200 [scenario.mutation Op_Put "a" "3"; scenario.mutation Op_Put "b" "4"])
    = Some (db', errs)
    /\ ((exists err, In (Some err) errs) -> db' = scenario.locked)
    /\ (no_error errs ->
        db' = Write scenario.locked
                (List.concat
                   (map snd
                      (map (prewriteTurn scenario.locked
                              (scenario.request 200
                                 [scenario.mutation Op_Put "a" "3";
                                  scenario.mutation Op_Put "b" "4"]))
                         (flagged
                            (scenario.request 200
                               [scenario.mutation Op_Put "a" "3";
                                scenario.mutation Op_Put "b" "4"])))))).
Proof.
  apply (Prewrite_error_leaves_store scenario.locked
           (scenario.request 200
              [scenario.mutation Op_Put "a" "3"; scenario.mutation Op_Put "b" "4"])).
  reflexivity.
Defined.

(** The same request evaluated: the first mutation meets the lock of
    transaction 100, the second would succeed, and no lock is put on "b". *)
Example Prewrite_error_leaves_store_example :
  Prewrite scenario.locked
    (scenario.request 200 [scenario.mutation Op_Put "a" "3"; scenario.mutation Op_Put "b" "4"])
  = Some (scenario.locked, [Some (ErrLocked (B "a") scenario.lock_a); None]).
Proof. vm_compute. reflexivity. Qed.


End Prewrite.

Section Prewrite_key.
Import kvrpcpb mocktikv mvcc_spec.

Lemma checkConflictValue_loop_run m s lvl gv nca :
  forall iter v a b c rv,
    checkConflictValue_loop m s lvl gv nca iter v a b c rv
    = checkConflictValue_loop m s lvl gv nca (key_run (Mutation_Key m) iter) v a b c rv.
Proof.
  induction iter as [|e iter IH]; intros v a b c rv; [reflexivity|].
  cbn [key_run]. destruct (has_key (Mutation_Key m) e) eqn:Hk.
  - cbn [checkConflictValue_loop].
    rewrite (valueDecoder_run (Mutation_Key m) (e :: iter)). cbn [key_run]. rewrite Hk.
    destruct (valueDecoder_Decode (Mutation_Key m) (e :: key_run (Mutation_Key m) iter))
      as [err| |v' it']; try reflexivity.
    rewrite !IH. reflexivity.
  - cbn [checkConflictValue_loop].
    rewrite (valueDecoder_run (Mutation_Key m) (e :: iter)). cbn [key_run]. rewrite Hk.
    cbn [valueDecoder_Decode]. reflexivity.
Qed.

Lemma checkConflictValue_run iter m fts s gv lvl :
  checkConflictValue iter m fts s gv lvl
  = checkConflictValue (key_run (Mutation_Key m) iter) m fts s gv lvl.
Proof.
  unfold checkConflictValue. rewrite valueDecoder_run.
  destruct iter as [|e iter]; [reflexivity|].
  cbn [key_run]. destruct (has_key (Mutation_Key m) e) eqn:Hk; [|reflexivity].
  destruct (valueDecoder_Decode (Mutation_Key m) (e :: key_run (Mutation_Key m) iter))
    as [err| |v it] eqn:E; try reflexivity.
  apply valueDecoder_Ok_run in E as [-> _]. cbn [Next tl].
  destruct (fts <? value_commitTS v); [reflexivity|].
  apply checkConflictValue_loop_run.
Qed.

End Prewrite_key.

Section Write.
Import kvrpcpb mocktikv mvcc_spec.

Lemma db_put_Forall_lt x k r db :
  mvcc_compare x k = Lt ->
  Forall (fun e => mvcc_compare x (fst e) = Lt) db ->
  Forall (fun e => mvcc_compare x (fst e) = Lt) (db_put k r db).
Proof.
  intros Hx. induction 1 as [|e db He Hall IH]; cbn [db_put].
  - constructor; [exact Hx | constructor].
  - destruct (mvcc_compare (fst e) k); repeat constructor; assumption.
Qed.

Lemma mvcc_compare_Gt_Lt a b : mvcc_compare a b = Gt -> mvcc_compare b a = Lt.
Proof. intros H. rewrite mvcc_compare_opp, H. reflexivity. Qed.

Lemma db_put_sorted k r db : sorted db = true -> sorted (db_put k r db) = true.
Proof.
  induction db as [|e db IH]; intros Hs; [reflexivity|].
  destruct (sorted_cons _ _ Hs) as [Hall Hs']. cbn [db_put].
  destruct (mvcc_compare (fst e) k) eqn:E.
  - apply mvcc_compare_eq in E. apply sorted_intro; [|exact Hs'].
    cbn [fst]. now rewrite <- E.
  - apply sorted_intro; [|now apply IH]. now apply db_put_Forall_lt.
  - apply mvcc_compare_Gt_Lt in E. apply sorted_intro; [|exact Hs].
    constructor; [exact E|]. eapply Forall_impl; [|exact Hall].
    intros x Hx. eapply mvcc_compare_trans; eassumption.
Qed.

Lemma db_put_entry_ok k r db :
  entry_ok (k, r) = true -> forallb entry_ok db = true ->
  forallb entry_ok (db_put k r db) = true.
Proof.
  intros Hk. induction db as [|e db IH]; intros H; cbn [db_put forallb] in *.
  - now rewrite Hk.
  - apply andb_prop in H as [He H].
    destruct (mvcc_compare (fst e) k); cbn [forallb]; rewrite ?Hk, ?He, ?H, ?IH; auto.
Qed.

Lemma db_put_wf k r db :
  entry_ok (k, r) = true -> wf_db db = true -> wf_db (db_put k r db) = true.
Proof.
  unfold wf_db. intros Hk H. apply andb_prop in H as [Hs Ho].
  now rewrite db_put_sorted, db_put_entry_ok.
Qed.

Lemma entry_ok_lock key l : entry_ok ((key, lockVer), RLock l) = true.
Proof. reflexivity. Qed.

(** A put in a lock slot leaves the write records of every key as they are. *)
Lemma writeEntries_put_lock key r db key' :
  writeEntries (db_put (key, lockVer) r db) key' = writeEntries db key'.
Proof.
  induction db as [|e db IH]; cbn [db_put].
  - rewrite writeEntries_cons. unfold ver_of at 1. cbn [fst snd].
    now rewrite Z.eqb_refl, andb_false_r.
  - destruct (mvcc_compare (fst e) (key, lockVer)) eqn:E.
    + apply mvcc_compare_eq in E. rewrite !writeEntries_cons.
      unfold ver_of at 1 2. cbn [fst snd]. rewrite E. cbn [snd].
      now rewrite Z.eqb_refl, !andb_false_r.
    + rewrite !writeEntries_cons, IH. reflexivity.
    + rewrite (writeEntries_cons (key, lockVer, r)). unfold ver_of at 1. cbn [fst snd].
      now rewrite Z.eqb_refl, andb_false_r.
Qed.

Lemma lookup_put_app k b1 b2 :
  lookup_put k (b1 ++ b2)
  = match lookup_put k b2 with Some r => Some r | None => lookup_put k b1 end.
Proof.
  induction b1 as [|op b1 IH]; cbn [app lookup_put].
  - destruct (lookup_put k b2); reflexivity.
  - rewrite IH. destruct (lookup_put k b2); reflexivity.
Qed.

Lemma lookup_put_In k b r : lookup_put k b = Some r -> In (BPut k r) b.
Proof.
  induction b as [|op b IH]; [discriminate|]. cbn [lookup_put].
  destruct (lookup_put k b) as [r'|].
  - intros H. right. apply IH. exact H.
  - destruct op as [k' r'|k']; [|discriminate].
    destruct (mvcc_compare k' k) eqn:E; try discriminate.
    apply mvcc_compare_eq in E. intros H. inversion H. subst. now left.
Qed.

Lemma In_lookup_put k b r : In (BPut k r) b -> exists r', lookup_put k b = Some r'.
Proof.
  induction b as [|op b IH]; [contradiction|]. cbn [lookup_put]. intros [->|Hin].
  - destruct (lookup_put k b); [eauto|]. rewrite mvcc_compare_refl. eauto.
  - destruct (IH Hin) as [r' ->]. eauto.
Qed.

Lemma lock_puts_app b1 b2 : lock_puts (b1 ++ b2) <-> lock_puts b1 /\ lock_puts b2.
Proof. apply Forall_app. Qed.

(** The store after a batch of lock puts. *)
Lemma Write_lock_puts b :
  lock_puts b ->
  forall db,
    wf_db db = true ->
    wf_db (Write db b) = true
    /\ (forall k, db_get k (Write db b)
                  = match lookup_put k b with Some r => Some r | None => db_get k db end)
    /\ (forall key, writeEntries (Write db b) key = writeEntries db key).
Proof.
  induction 1 as [|op b (key & l & ->) Hb IH]; intros db Hwf.
  - repeat split; auto.
  - cbn [Write fold_left apply_op].
    assert (Hwf' : wf_db (db_put (key, lockVer) (RLock l) db) = true)
      by (apply db_put_wf; [apply entry_ok_lock | exact Hwf]).
    destruct (IH _ Hwf') as (H1 & H2 & H3). fold (Write (db_put (key, lockVer) (RLock l) db) b).
    split; [exact H1|]. split.
    + intros k. rewrite H2. cbn [lookup_put]. destruct (lookup_put k b); [reflexivity|].
      rewrite db_get_put. destruct (mvcc_compare (key, lockVer) k); reflexivity.
    + intros key'. rewrite H3. apply writeEntries_put_lock.
Qed.

Lemma lockOf_Write db b key :
  lock_puts b -> wf_db db = true ->
  lockOf (Write db b) key
  = match lookup_put (key, lockVer) b with
    | Some (RLock l) => Some l
    | Some (RValue _) => None
    | None => lockOf db key
    end.
Proof.
  intros Hb Hwf. destruct (Write_lock_puts b Hb db Hwf) as (_ & H & _).
  unfold lockOf. rewrite H. destruct (lookup_put (key, lockVer) b) as [[l|v]|]; reflexivity.
Qed.

End Write.

Section Store_ext.
Import kvrpcpb mocktikv mvcc_spec.

Lemma db_get_after x l :
  Forall (fun e => mvcc_compare x (fst e) = Lt) l -> db_get x l = None.
Proof.
  induction 1 as [|e l He _ IH]; [reflexivity|]. cbn [db_get].
  rewrite mvcc_compare_opp, He. exact IH.
Qed.

Lemma db_get_head e l : db_get (fst e) (e :: l) = Some (snd e).
Proof. cbn [db_get]. now rewrite mvcc_compare_refl. Qed.

Lemma db_get_tail e l k :
  sorted (e :: l) = true ->
  db_get k l = if match mvcc_compare (fst e) k with Eq => true | _ => false end
               then None else db_get k (e :: l).
Proof.
  intros Hs. destruct (sorted_cons _ _ Hs) as [Hall _]. cbn [db_get].
  destruct (mvcc_compare (fst e) k) eqn:E; try reflexivity.
  apply mvcc_compare_eq in E. subst k. now apply db_get_after.
Qed.

(** Two sorted stores that hold the same record under every key are the
    same store. *)
Lemma db_ext a :
  forall b, sorted a = true -> sorted b = true ->
            (forall k, db_get k a = db_get k b) -> a = b.
Proof.
  induction a as [|e a IH]; intros [|e' b] Ha Hb H.
  - reflexivity.
  - specialize (H (fst e')). rewrite db_get_head in H. discriminate.
  - specialize (H (fst e)). rewrite db_get_head in H. discriminate.
  - destruct (sorted_cons _ _ Ha) as [Halla Ha'], (sorted_cons _ _ Hb) as [Hallb Hb'].
    destruct (mvcc_compare (fst e) (fst e')) eqn:E.
    + apply mvcc_compare_eq in E.
      assert (Hee : e = e').
      { pose proof (H (fst e)) as H1. rewrite db_get_head, E, db_get_head in H1.
        destruct e, e'; cbn in *; congruence. }
      subst e'. f_equal. apply IH; try assumption.
      intros k. rewrite (db_get_tail e a k Ha), (db_get_tail e b k Hb), H. reflexivity.
    + exfalso. pose proof (H (fst e)) as H1. rewrite db_get_head in H1.
      cbn [db_get] in H1. rewrite mvcc_compare_opp, E in H1. cbn [CompOpp] in H1.
      rewrite db_get_after in H1; [discriminate|].
      eapply Forall_impl; [|exact Hallb]. intros x Hx. eapply mvcc_compare_trans; eassumption.
    + exfalso. apply mvcc_compare_Gt_Lt in E.
      pose proof (H (fst e')) as H1. rewrite db_get_head in H1.
      cbn [db_get] in H1. rewrite mvcc_compare_opp, E in H1. cbn [CompOpp] in H1.
      rewrite db_get_after in H1; [discriminate|].
      eapply Forall_impl; [|exact Halla]. intros x Hx. eapply mvcc_compare_trans; eassumption.
Qed.

Lemma wf_db_sorted db : wf_db db = true -> sorted db = true.
Proof. unfold wf_db. intros H. now apply andb_prop in H as [H _]. Qed.

End Store_ext.

Section Prewrite_turn.
Import kvrpcpb mocktikv mvcc_spec.

Lemma Get_spec_getOn db key s iso resolved :
  Get_spec db key s iso resolved
  = getOn (lockOf db key) (writeEntries db key) key s iso resolved.
Proof. reflexivity. Qed.

Lemma prewriteMutation_on db m s p ttl sz isP mc lvl :
  wf_db db = true ->
  prewriteMutation db [] m s p ttl sz isP mc lvl
  = prewriteOn (lockOf db (Mutation_Key m)) (writeEntries db (Mutation_Key m))
      m s p ttl sz isP mc lvl.
Proof.
  intros Hwf. unfold prewriteMutation, prewriteOn.
  pose proof (lock_phase db (Mutation_Key m) Hwf) as Hl. cbv zeta in Hl.
  destruct (lockOf db (Mutation_Key m)) as [l|].
  - destruct Hl as (-> & Hrun & _).
    rewrite checkConflictValue_run, Hrun. reflexivity.
  - destruct Hl as (-> & Hrun).
    rewrite checkConflictValue_run, Hrun. reflexivity.
Qed.

Lemma prewriteTurn_on db req t :
  wf_db db = true ->
  prewriteTurn db req t
  = turnOn req (lockOf db (Mutation_Key (fst t))) (writeEntries db (Mutation_Key (fst t))) t.
Proof.
  intros Hwf. destruct t as [m f]. unfold prewriteTurn, turnOn. cbn [fst].
  rewrite prewriteMutation_on by assumption.
  change (getValue (newIterator db (Mutation_Key m, lockVer)) (Mutation_Key m)
            (StartVersion req) IsolationLevel_SI (ResolvedLocks req))
    with (Get db (Mutation_Key m) (StartVersion req) IsolationLevel_SI (ResolvedLocks req)).
  rewrite (proj1 (Get_refines_spec db (Mutation_Key m) (StartVersion req) IsolationLevel_SI
                    (ResolvedLocks req) Hwf)).
  rewrite Get_spec_getOn. reflexivity.
Qed.

Lemma prewriteOn_ops lk ws m s p ttl sz isP mc lvl :
  fst (prewriteOn lk ws m s p ttl sz isP mc lvl) = []
  \/ exists l, fst (prewriteOn lk ws m s p ttl sz isP mc lvl)
               = [BPut (Mutation_Key m, lockVer) (RLock l)].
Proof.
  unfold prewriteOn, installLock.
  repeat match goal with
         | |- context [match ?x with _ => _ end] => destruct x
         end; cbn [fst snd app]; eauto.
Qed.

(** The operations of a turn: nothing, or one lock put on the key of the
    mutation. *)
Lemma turnOn_ops req lk ws m f :
  snd (turnOn req lk ws (m, f)) = []
  \/ exists l, snd (turnOn req lk ws (m, f)) = [BPut (Mutation_Key m, lockVer) (RLock l)].
Proof.
  unfold turnOn.
  match goal with |- context [match ?c with Some _ => _ | None => _ end] => destruct c end;
    [now left|].
  destruct (Op_eqb (Mutation_Op m) Op_CheckNotExists); [now left|].
  pose proof (prewriteOn_ops lk ws m (StartVersion req) (PrimaryLock req) (LockTtl req)
                (TxnSize req) f (MinCommitTs req) (ReqAssertionLevel req)) as H.
  destruct (prewriteOn lk ws m (StartVersion req) (PrimaryLock req) (LockTtl req)
              (TxnSize req) f (MinCommitTs req) (ReqAssertionLevel req)) as [b e].
  exact H.
Qed.

Lemma turnOn_same req' req lk ws t :
  subRequest req' req -> turnOn req' lk ws t = turnOn req lk ws t.
Proof.
  intros (H1 & H2 & H3 & H4 & H5 & H6 & H7 & H8 & _). destruct t as [m f].
  unfold turnOn. now rewrite H1, H2, H3, H4, H5, H6, H7, H8.
Qed.

End Prewrite_turn.

Section Prewrite_replay.
Import kvrpcpb mocktikv mvcc_spec.

Lemma ltb_max_idem a b :
  (if a <? (if a <? b then b else a) then (if a <? b then b else a) else a)
  = (if a <? b then b else a).
Proof.
  destruct (Z.ltb_spec a b) as [H|H].
  - destruct (Z.ltb_spec a b); [reflexivity | lia].
  - now rewrite Z.ltb_irrefl.
Qed.

(** Prewriting a key again, once the lock that the first prewrite put is
    in the lock slot: no error, and the same lock or nothing is put. *)
Lemma prewriteOn_replay lk ws m s p ttl sz isP mc lvl l :
  prewriteOn lk ws m s p ttl sz isP mc lvl
  = ([BPut (Mutation_Key m, lockVer) (RLock l)], None) ->
  prewriteOn (Some l) ws m s p ttl sz isP mc lvl = ([], None)
  \/ prewriteOn (Some l) ws m s p ttl sz isP mc lvl
     = ([BPut (Mutation_Key m, lockVer) (RLock l)], None).
Proof.
  unfold prewriteOn at 1.
  destruct lk as [l0|].
  - destruct (negb (lock_startTS l0 =? s)); [discriminate|].
    destruct (negb (Op_eqb (lock_op l0) Op_PessimisticLock)); [discriminate|].
    destruct (checkConflictValue ws m s s false lvl) as [err|r] eqn:Ec; [discriminate|].
    unfold installLock. cbn [app]. intros H. inversion H as [Hl]. clear H.
    unfold prewriteOn. cbn [lock_startTS lock_op lock_ttl lock_minCommitTS].
    rewrite Z.eqb_refl. cbn [negb].
    destruct (negb (Op_eqb _ Op_PessimisticLock)); [now left|]. right.
    rewrite Ec. unfold installLock. cbn [app]. rewrite ltb_max_idem.
    destruct (bytes_Equal p (Mutation_Key m)).
    + now rewrite ltb_max_idem.
    + reflexivity.
  - destruct isP; [discriminate|].
    destruct (checkConflictValue ws m s s false lvl) as [err|r] eqn:Ec; [discriminate|].
    unfold installLock. cbn [app]. intros H. inversion H as [Hl]. clear H.
    unfold prewriteOn. cbn [lock_startTS lock_op lock_ttl lock_minCommitTS].
    rewrite Z.eqb_refl. cbn [negb].
    destruct (negb (Op_eqb _ Op_PessimisticLock)); [now left|]. right.
    rewrite Ec. unfold installLock. cbn [app]. rewrite Z.ltb_irrefl.
    destruct (bytes_Equal p (Mutation_Key m)).
    + now rewrite Z.ltb_irrefl.
    + destruct (mc <? 0); reflexivity.
Qed.

Lemma turnOn_replay req lk ws m f errs l :
  (ForUpdateTs req = 0 -> Mutation_Op m <> Op_Insert) ->
  turnOn req lk ws (m, f) = (errs, [BPut (Mutation_Key m, lockVer) (RLock l)]) ->
  no_error errs ->
  turnOn req (Some l) ws (m, f) = ([None], [])
  \/ turnOn req (Some l) ws (m, f) = ([None], [BPut (Mutation_Key m, lockVer) (RLock l)]).
Proof.
  intros Hins. unfold turnOn.
  destruct (Op_eqb (Mutation_Op m) Op_CheckNotExists) eqn:Ecne.
  - rewrite orb_true_r.
    match goal with |- context [match ?c with Some _ => _ | None => _ end] => destruct c end;
      discriminate.
  - rewrite orb_false_r.
    assert (Hc : Op_eqb (Mutation_Op m) Op_Insert && (ForUpdateTs req =? 0) = false).
    { destruct (Op_eqb (Mutation_Op m) Op_Insert) eqn:Ei; [|reflexivity].
      destruct (Z.eqb_spec (ForUpdateTs req) 0) as [H0|]; [|reflexivity].
      exfalso. apply (Hins H0). destruct (Mutation_Op m); cbn in Ei; congruence. }
    rewrite Hc.
    destruct (prewriteOn lk ws m (StartVersion req) (PrimaryLock req) (LockTtl req)
                (TxnSize req) f (MinCommitTs req) (ReqAssertionLevel req))
      as [b e] eqn:Ep.
    intros H Hne. inversion H; subst. inversion Hne as [|? ? He _]; subst.
    destruct (prewriteOn_replay _ _ _ _ _ _ _ _ _ _ _ Ep) as [-> | ->]; auto.
Qed.

End Prewrite_replay.

Section Prewrite_idempotent.
Import kvrpcpb mocktikv mvcc_spec.

Lemma Prewrite_flat db req :
  flags_ok req ->
  let errs := flat_map (fun t => fst (prewriteTurn db req t)) (flagged req) in
  let ops := flat_map (fun t => snd (prewriteTurn db req t)) (flagged req) in
  Prewrite db req = Some (if existsb is_err errs then db else Write db ops, errs).
Proof.
  intros Hok. cbv zeta. rewrite (Prewrite_turns db req Hok).
  rewrite !map_map, <- !flat_map_concat_map. reflexivity.
Qed.

Lemma no_error_existsb errs : no_error errs -> existsb is_err errs = false.
Proof.
  intros H. destruct (existsb is_err errs) eqn:E; [|reflexivity].
  apply existsb_is_err in E as (err & Hin).
  unfold no_error in H. rewrite Forall_forall in H. apply H in Hin. discriminate.
Qed.

Lemma map_fst_combine_eq {A C} (l : list A) (l' : list C) :
  List.length l' = List.length l -> map fst (combine l l') = l.
Proof.
  revert l'. induction l as [|x l IH]; intros [|y l'] H; try discriminate; [reflexivity|].
  cbn. f_equal. apply IH. now inversion H.
Qed.

Lemma NoDup_map_eq {A C} (g : A -> C) (l : list A) x y :
  NoDup (map g l) -> In x l -> In y l -> g x = g y -> x = y.
Proof.
  induction l as [|a l IH]; [contradiction|]. cbn [map]. intros Hnd Hx Hy Hg.
  inversion Hnd as [|? ? Hnin Hnd']; subst.
  destruct Hx as [->|Hx], Hy as [->|Hy]; auto.
  - exfalso. apply Hnin. rewrite Hg. now apply in_map.
  - exfalso. apply Hnin. rewrite <- Hg. now apply in_map.
Qed.

Lemma flagged_NoDup req :
  flags_ok req -> NoDup (map Mutation_Key (Mutations req)) ->
  NoDup (map (fun t => Mutation_Key (fst t)) (flagged req)).
Proof.
  intros Hok Hnd. unfold flagged.
  rewrite <- (map_map fst Mutation_Key), map_fst_combine_eq by exact Hok. exact Hnd.
Qed.

Lemma flagged_In req m f : In (m, f) (flagged req) -> In m (Mutations req).
Proof. unfold flagged. apply in_combine_l. Qed.

Lemma prewriteTurn_ops db req m f :
  wf_db db = true ->
  snd (prewriteTurn db req (m, f)) = []
  \/ exists l, snd (prewriteTurn db req (m, f)) = [BPut (Mutation_Key m, lockVer) (RLock l)].
Proof. intros Hwf. rewrite prewriteTurn_on by assumption. apply turnOn_ops. Qed.

Lemma prewriteTurn_lock_puts db req T :
  wf_db db = true -> lock_puts (flat_map (fun t => snd (prewriteTurn db req t)) T).
Proof.
  intros Hwf. apply Forall_flat_map. apply Forall_forall. intros [m f] _.
  destruct (prewriteTurn_ops db req m f Hwf) as [-> | (l & ->)]; repeat constructor.
  now exists (Mutation_Key m), l.
Qed.

Lemma prewriteTurn_sub db req' req t :
  wf_db db = true -> subRequest req' req -> prewriteTurn db req' t = prewriteTurn db req t.
Proof.
  intros Hwf Hsub. rewrite !prewriteTurn_on by assumption. now apply turnOn_same.
Qed.

(** A put found in the batch of a run comes from the turn of the mutation
    on its key. *)
Lemma batch_put_turn db req T k r :
  wf_db db = true ->
  In (BPut k r) (flat_map (fun t => snd (prewriteTurn db req t)) T) ->
  exists m f l,
    In (m, f) T /\ k = (Mutation_Key m, lockVer) /\ r = RLock l
    /\ snd (prewriteTurn db req (m, f)) = [BPut k r].
Proof.
  intros Hwf Hin. apply in_flat_map in Hin as ([m f] & Ht & Hop).
  destruct (prewriteTurn_ops db req m f Hwf) as [E | (l & E)]; rewrite E in Hop.
  - contradiction.
  - destruct Hop as [Hop|[]]. inversion Hop; subst. exists m, f, l. now rewrite E.
Qed.

(** C7, as amended.  Take a request with pairwise distinct keys whose
    optimistic form ([for_update_ts = 0]) has no Insert mutation, and which
    completes without error on a well-formed store.  Then every request of
    the same transaction that carries some of its mutations completes
    without error on that store, and replaying the full request on the
    store so obtained completes without error and ends in a store with the
    same store, with the same lock records, as completing the full request
    once. *)
Theorem Prewrite_replay_idempotent :
  forall (db : DB) (req req' : PrewriteRequest) (db1 : DB) (errs1 : list (option Error)),
    wf_db db = true ->
    flags_ok req -> flags_ok req' ->
    subRequest req' req ->
    NoDup (map Mutation_Key (Mutations req)) ->
    (ForUpdateTs req = 0 -> forall m, In m (Mutations req) -> Mutation_Op m <> Op_Insert) ->
    Prewrite db req = Some (db1, errs1) -> no_error errs1 ->
    exists dbs errs_s db2 errs2,
      Prewrite db req' = Some (dbs, errs_s) /\ no_error errs_s
      /\ Prewrite dbs req = Some (db2, errs2) /\ no_error errs2
      /\ db2 = db1
      /\ (forall key, lockOf db2 key = lockOf db1 key).
Proof.
  intros db req req' db1 errs1 Hwf Hok Hok' Hsub Hnd Hins Hrun Hne.
  pose proof (flagged_NoDup req Hok Hnd) as HndT.
  set (T := flagged req) in *. set (T' := flagged req').
  assert (Hincl : incl T' T) by (destruct Hsub as (_&_&_&_&_&_&_&_&H); exact H).
  (* the first run *)
  rewrite (Prewrite_flat db req Hok) in Hrun. cbv zeta in Hrun. fold T in Hrun.
  injection Hrun as Hdb1 Herrs1. subst errs1.
  rewrite (no_error_existsb _ Hne) in Hdb1. subst db1.
  set (batch1 := flat_map (fun t => snd (prewriteTurn db req t)) T) in *.
  assert (Hturn1 : forall t, In t T -> no_error (fst (prewriteTurn db req t))).
  { unfold no_error in Hne. apply Forall_flat_map in Hne.
    rewrite Forall_forall in Hne. exact Hne. }
  (* the run of the sub-request *)
  set (batch_s := flat_map (fun t => snd (prewriteTurn db req t)) T').
  assert (Hsub_turns : forall (F : list (option Error) * Batch -> list (option Error)),
             flat_map (fun t => F (prewriteTurn db req' t)) T'
             = flat_map (fun t => F (prewriteTurn db req t)) T').
  { intros F. apply flat_map_ext. intros t. now rewrite (prewriteTurn_sub db req' req t). }
  assert (Hsub_ops : flat_map (fun t => snd (prewriteTurn db req' t)) T' = batch_s).
  { apply flat_map_ext. intros t. now rewrite (prewriteTurn_sub db req' req t). }
  assert (Hne_s : no_error (flat_map (fun t => fst (prewriteTurn db req' t)) T')).
  { rewrite (Hsub_turns fst). unfold no_error. apply Forall_flat_map, Forall_forall.
    intros t Ht. apply Hturn1, Hincl, Ht. }
  assert (Hruns : Prewrite db req'
                  = Some (Write db batch_s,
                          flat_map (fun t => fst (prewriteTurn db req' t)) T')).
  { rewrite (Prewrite_flat db req' Hok'). cbv zeta. fold T'.
    now rewrite (no_error_existsb _ Hne_s), Hsub_ops. }
  set (dbs := Write db batch_s) in *.
  assert (Hlp_s : lock_puts batch_s) by now apply prewriteTurn_lock_puts.
  assert (Hlp_1 : lock_puts batch1) by now apply prewriteTurn_lock_puts.
  destruct (Write_lock_puts batch_s Hlp_s db Hwf) as (Hwf_s & Hget_s & Hwr_s).
  fold dbs in Hwf_s, Hget_s, Hwr_s.
  (* one turn of the replay *)
  assert (Hturn2 : forall t, In t T ->
             no_error (fst (prewriteTurn dbs req t))
             /\ incl (snd (prewriteTurn dbs req t)) (snd (prewriteTurn db req t))
             /\ (lookup_put (Mutation_Key (fst t), lockVer) batch_s = None ->
                 prewriteTurn dbs req t = prewriteTurn db req t)).
  { intros [m f] Ht. cbn [fst].
    rewrite (prewriteTurn_on dbs) by assumption. cbn [fst].
    rewrite Hwr_s. unfold dbs at 1 2 3. rewrite lockOf_Write by assumption.
    destruct (lookup_put (Mutation_Key m, lockVer) batch_s) as [rec|] eqn:El.
    - apply lookup_put_In in El.
      destruct (batch_put_turn db req T' _ _ Hwf El) as (m' & f' & l & Ht' & Hk & -> & Hops).
      inversion Hk as [Hkey].
      assert (Heq : (m', f') = (m, f)).
      { apply (NoDup_map_eq (fun t => Mutation_Key (fst t)) T);
          [exact HndT | now apply Hincl | exact Ht | cbn [fst]; congruence]. }
      inversion Heq; subst m' f'. clear Heq Hk.
      pose proof (Hturn1 _ Ht) as Hne_t.
      rewrite (prewriteTurn_on db) in Hops, Hne_t |- * by assumption. cbn [fst] in *.
      destruct (turnOn req (lockOf db (Mutation_Key m)) (writeEntries db (Mutation_Key m))
                  (m, f)) as [errs_t ops_t] eqn:Et.
      cbn [fst snd] in Hops, Hne_t. subst ops_t.
      assert (Hins' : ForUpdateTs req = 0 -> Mutation_Op m <> Op_Insert).
      { intros H0. apply (Hins H0). eapply flagged_In. exact Ht. }
      destruct (turnOn_replay req _ _ m f errs_t l Hins' Et Hne_t) as [-> | ->];
        cbn [fst snd];
        (split; [repeat constructor | split; [|discriminate]]).
      + intros x [].
      + apply incl_refl.
    - pose proof (prewriteTurn_on db req (m, f) Hwf) as E. cbn [fst] in E. rewrite <- E.
      split; [now apply Hturn1 | split; [apply incl_refl | reflexivity]]. }
  (* the replay *)
  set (batch2 := flat_map (fun t => snd (prewriteTurn dbs req t)) T).
  assert (Hne_2 : no_error (flat_map (fun t => fst (prewriteTurn dbs req t)) T)).
  { unfold no_error. apply Forall_flat_map, Forall_forall. intros t Ht.
    apply (Hturn2 t Ht). }
  assert (Hrun2 : Prewrite dbs req
                  = Some (Write dbs batch2,
                          flat_map (fun t => fst (prewriteTurn dbs req t)) T)).
  { rewrite (Prewrite_flat dbs req Hok). cbv zeta. fold T.
    now rewrite (no_error_existsb _ Hne_2). }
  assert (Hlp_2 : lock_puts batch2) by now apply prewriteTurn_lock_puts.
  destruct (Write_lock_puts batch2 Hlp_2 dbs Hwf_s) as (Hwf_2 & Hget_2 & _).
  destruct (Write_lock_puts batch1 Hlp_1 db Hwf) as (Hwf_1 & Hget_1 & _).
  (* the three batches *)
  assert (Hincl_s : incl batch_s batch1).
  { intros op Hop. apply in_flat_map in Hop as (t & Ht & Hop).
    apply in_flat_map. exists t. split; [now apply Hincl | exact Hop]. }
  assert (Hincl_2 : incl batch2 batch1).
  { intros op Hop. apply in_flat_map in Hop as (t & Ht & Hop).
    apply in_flat_map. exists t. split; [exact Ht|]. now apply (Hturn2 t Ht). }
  assert (Hfun : forall k r r', In (BPut k r) batch1 -> In (BPut k r') batch1 -> r = r').
  { intros k r r' H1 H2.
    destruct (batch_put_turn db req T _ _ Hwf H1) as (m1 & f1 & l1 & Ht1 & Hk1 & _ & Ho1).
    destruct (batch_put_turn db req T _ _ Hwf H2) as (m2 & f2 & l2 & Ht2 & Hk2 & _ & Ho2).
    assert (Heq : (m1, f1) = (m2, f2)).
    { apply (NoDup_map_eq (fun t => Mutation_Key (fst t)) T);
        [exact HndT | exact Ht1 | exact Ht2 | cbn [fst]; congruence]. }
    rewrite Heq, Ho2 in Ho1. now inversion Ho1. }
  assert (Hgets : forall k, db_get k (Write dbs batch2) = db_get k (Write db batch1)).
  { intros k. rewrite Hget_2, Hget_s, Hget_1.
    destruct (lookup_put k batch1) as [r1|] eqn:E1.
    - pose proof (lookup_put_In _ _ _ E1) as Hin1.
      destruct (lookup_put k batch2) as [r2|] eqn:E2.
      + f_equal. apply (Hfun k); [|exact Hin1]. apply Hincl_2. now apply lookup_put_In.
      + destruct (lookup_put k batch_s) as [rs|] eqn:Es.
        * f_equal. apply (Hfun k); [|exact Hin1]. apply Hincl_s. now apply lookup_put_In.
        * exfalso.
          destruct (batch_put_turn db req T _ _ Hwf Hin1)
            as (m & f & l & Ht & Hk & _ & Hops).
          destruct (Hturn2 _ Ht) as (_ & _ & Hsame). cbn [fst] in Hsame.
          rewrite <- Hk in Hsame. specialize (Hsame Es).
          assert (Hin2 : In (BPut k r1) batch2).
          { apply in_flat_map. exists (m, f). split; [exact Ht|].
            rewrite Hsame, Hops. now left. }
          apply In_lookup_put in Hin2 as (r' & Hr'). congruence.
    - destruct (lookup_put k batch2) as [r2|] eqn:E2.
      + exfalso. apply lookup_put_In, Hincl_2, In_lookup_put in E2 as (r' & Hr'). congruence.
      + destruct (lookup_put k batch_s) as [rs|] eqn:Es; [|reflexivity].
        exfalso. apply lookup_put_In, Hincl_s, In_lookup_put in Es as (r' & Hr'). congruence. }
  exists dbs, (flat_map (fun t => fst (prewriteTurn db req' t)) T'),
    (Write dbs batch2), (flat_map (fun t => fst (prewriteTurn dbs req t)) T).
  assert (Heq : Write dbs batch2 = Write db batch1)
    by (apply db_ext; [now apply wf_db_sorted | now apply wf_db_sorted | exact Hgets]).
  repeat split; try assumption.
  intros key. now rewrite Heq.
Qed.

Lemma Prewrite_replay_idempotent_witness :
  exists dbs errs_s db2 errs2,
    Prewrite [] (scenario.request 100 [scenario.mutation Op_Put "a" "1"])
    = Some (dbs, errs_s) /\ no_error errs_s
    /\ Prewrite dbs
         (scenario.request 100
            [scenario.mutation Op_Put "a" "1"; scenario.mutation Op_Put "b" "2"])
       = Some (db2, errs2) /\ no_error errs2
    /\ db2 = scenario.locked_ab
    /\ (forall key, lockOf db2 key = lockOf scenario.locked_ab key).
Proof.
  apply (Prewrite_replay_idempotent []
           (scenario.request 100
              [scenario.mutation Op_Put "a" "1"; scenario.mutation Op_Put "b" "2"])
           (scenario.request 100 [scenario.mutation Op_Put "a" "1"])
           scenario.locked_ab [None; None]).
  - reflexivity.
  - reflexivity.
  - reflexivity.
  - repeat split. intros t [<-|[]]. left. reflexivity.
  - repeat constructor; cbn; intuition discriminate.
  - intros _ m [<-|[<-|[]]]; discriminate.
  - vm_compute. reflexivity.
  - repeat constructor.
Defined.

(** C7, as stated, fails.  The request inserts "a" and puts "b"; the
    insert alone has completed.  The replay of the request reads "a" under
    snapshot isolation for the existence check of the insert, meets the
    lock that the first prewrite put, and returns [Locked]: nothing is
    written, and "b" stays without the lock that completing the request
    once puts on it. *)
Lemma Prewrite_replay_counterexample :
  let req := scenario.request 100
               [scenario.mutation Op_Insert "a" "1"; scenario.mutation Op_Put "b" "2"] in
  Prewrite [] req = Some (scenario.locked_ab, [None; None])
  /\ Prewrite [] (scenario.request 100 [scenario.mutation Op_Insert "a" "1"])
     = Some (scenario.locked, [None])
  /\ Prewrite scenario.locked req
     = Some (scenario.locked, [Some (ErrLocked (B "a") scenario.lock_a); None])
  /\ lockOf scenario.locked (B "b") = None
  /\ lockOf scenario.locked_ab (B "b") = Some scenario.lock_b.
Proof. vm_compute. repeat split; reflexivity. Qed.

(** A request with two mutations on one key: after the first alone has
    completed, the replay finds the lock of the transaction in place for
    both and writes nothing, while completing the request once leaves the
    lock of the second mutation. *)
Lemma Prewrite_replay_duplicate_keys :
  let req := scenario.request 100
               [scenario.mutation Op_Put "a" "1"; scenario.mutation Op_Put "a" "2"] in
  Prewrite [] req = Some ([((B "a", lockVer), RLock scenario.lock_a2)], [None; None])
  /\ Prewrite [] (scenario.request 100 [scenario.mutation Op_Put "a" "1"])
     = Some (scenario.locked, [None])
  /\ Prewrite scenario.locked req = Some (scenario.locked, [None; None])
  /\ lockOf scenario.locked (B "a") = Some scenario.lock_a.
Proof. vm_compute. repeat split; reflexivity. Qed.


End Prewrite_idempotent.

(** ** Key lookup in the region cache *)

Section Locate.
Import locate.

Lemma searchCachedRegion_contains env c key r c' :
  searchCachedRegion env c key false = (Some r, c') -> Contains r key = true.
Proof.
  unfold searchCachedRegion.
  destruct (descend env (now env) key false (rev (filter (lessOrEqual key) c)))
    as [[r0|] visited]; [|discriminate].
  cbn [negb andb orb]. rewrite orb_false_r.
  destruct (Contains r0 key) eqn:E; [|discriminate].
  intros H. inversion H; subst. exact E.
Qed.

Lemma filterUnavailablePeers_range m down :
  StartKey (filterUnavailablePeers m down) = StartKey m
  /\ EndKey (filterUnavailablePeers m down) = EndKey m.
Proof. unfold filterUnavailablePeers. destruct (len down =? 0); split; reflexivity. Qed.

Lemma newRegion_range env m r :
  newRegion env m = Some r ->
  Region_StartKey r = StartKey m /\ Region_EndKey r = EndKey m.
Proof.
  unfold newRegion. destruct (availablePeers env (Peers m)) as [peers|]; [|discriminate].
  destruct (len peers =? 0); [discriminate|].
  intros H. inversion H; subst. split; reflexivity.
Qed.

(** A region loaded for a key, not as an end key, is one that
    [GetRegion] returned for that key. *)
Lemma loadRegion_loop_answer env key :
  forall fuel bo backoffErr n r bo',
    loadRegion_loop fuel env bo key false backoffErr false n = Loaded r bo' ->
    exists n' m leader down,
      GetRegion env n' key = PdRegion (Some m) leader down
      /\ Region_StartKey r = StartKey m /\ Region_EndKey r = EndKey m.
Proof.
  induction fuel as [|fuel IH]; intros bo be n r bo'; [discriminate|].
  cbn [loadRegion_loop].
  assert (Hturn : forall bo1,
             match GetRegion env n key with
             | PdError true => LoadError
             | PdError false => loadRegion_loop fuel env bo1 key false true false (S n)
             | PdNil => loadRegion_loop fuel env bo1 key false true false (S n)
             | PdRegion None _ _ => loadRegion_loop fuel env bo1 key false true false (S n)
             | PdRegion (Some m) _ DownPeers =>
                 if len (Peers (filterUnavailablePeers m DownPeers)) =? 0 then LoadError
                 else match newRegion env (filterUnavailablePeers m DownPeers) with
                      | None => LoadError
                      | Some r => Loaded r bo1
                      end
             end = Loaded r bo' ->
             exists n' m leader down,
               GetRegion env n' key = PdRegion (Some m) leader down
               /\ Region_StartKey r = StartKey m /\ Region_EndKey r = EndKey m).
  { intros bo1.
    destruct (GetRegion env n key) as [[|]| |[m|] leader down] eqn:Eg;
      try discriminate; try (apply IH).
    destruct (len (Peers (filterUnavailablePeers m down)) =? 0); [discriminate|].
    destruct (newRegion env (filterUnavailablePeers m down)) as [r0|] eqn:En; [|discriminate].
    intros H. inversion H; subst.
    destruct (newRegion_range _ _ _ En) as [Hs He].
    destruct (filterUnavailablePeers_range m down) as [Hs' He'].
    exists n, m, leader, down. repeat split; congruence. }
  destruct be; [destruct bo as [|bo0]; [discriminate|]|]; apply Hturn.
Qed.

(** The fuel that [loadRegion] gives its loop is enough. *)
Lemma loadRegion_loop_fuel env key isEndKey :
  forall fuel bo (backoffErr searchPrev : bool) n,
    (bo + (if backoffErr then 0 else 1) + (if searchPrev then 0 else 1) < fuel)%nat ->
    loadRegion_loop fuel env bo key isEndKey backoffErr searchPrev n <> LoadOutOfFuel.
Proof.
  induction fuel as [|fuel IH]; intros bo be sp n Hf; [lia|].
  cbn [loadRegion_loop].
  destruct be.
  - destruct bo as [|bo]; [discriminate|].
    destruct (if sp then GetPrevRegion env n key else GetRegion env n key)
      as [[|]| |[m|] leader down]; try discriminate;
      try (apply IH; destruct sp; cbn; lia).
    destruct (len (Peers (filterUnavailablePeers m down)) =? 0); [discriminate|].
    destruct (isEndKey && negb sp && bytes_Equal (StartKey (filterUnavailablePeers m down)) key
              && negb (len (StartKey (filterUnavailablePeers m down)) =? 0)).
    + apply IH. cbn. destruct sp; lia.
    + destruct (newRegion env (filterUnavailablePeers m down)); discriminate.
  - destruct (if sp then GetPrevRegion env n key else GetRegion env n key)
      as [[|]| |[m|] leader down]; try discriminate;
      try (apply IH; destruct sp; cbn; lia).
    destruct (len (Peers (filterUnavailablePeers m down)) =? 0); [discriminate|].
    destruct (isEndKey && negb sp && bytes_Equal (StartKey (filterUnavailablePeers m down)) key
              && negb (len (StartKey (filterUnavailablePeers m down)) =? 0)) eqn:Ec.
    + apply IH. destruct sp; [|cbn; lia].
      rewrite andb_false_r in Ec. discriminate.
    + destruct (newRegion env (filterUnavailablePeers m down)); discriminate.
Qed.

Lemma loadRegion_total env bo key isEndKey :
  loadRegion env bo key isEndKey <> LoadOutOfFuel.
Proof. unfold loadRegion. apply loadRegion_loop_fuel. cbn. lia. Qed.

Lemma contains_spec startKey endKey key :
  contains startKey endKey key = true <->
  bytes_Compare startKey key <> Gt /\ (endKey = [] \/ bytes_Compare key endKey = Lt).
Proof.
  unfold contains. rewrite andb_true_iff, orb_true_iff. unfold is_Le, is_Lt.
  rewrite len_eqb_0.
  destruct (bytes_Compare startKey key), (bytes_Compare key endKey), endKey;
    intuition congruence.
Qed.

(** C9.  [LocateKey] always answers, and when it returns a location the
    range of the location contains the key: its start key is not above the
    key, and its end key is empty or above the key.  A region found in the
    cache is checked with [Contains] before it is returned, whatever the
    cache holds; a region loaded from PD is the region that [GetRegion]
    returned for the key, which contains the key by the contract of PD. *)
Theorem LocateKey_contains :
  forall (env : Env) (c : RegionCache) (bo : Backoffer) (key : bytes),
    pd_contract env ->
    exists (res : option KeyLocation) (c' : RegionCache),
      LocateKey env c bo key = Some (res, c')
      /\ forall loc, res = Some loc ->
           Location_Contains loc key = true
           /\ bytes_Compare (Location_StartKey loc) key <> Gt
           /\ (Location_EndKey loc = [] \/ bytes_Compare key (Location_EndKey loc) = Lt).
Proof.
  intros env c bo key Hpd.
  assert (Hload : forall r bo', loadRegion env bo key false = Loaded r bo' ->
                                Contains r key = true).
  { intros r bo' H. apply loadRegion_loop_answer in H as (n & m & l & d & Hg & Hs & He).
    unfold Contains. unfold Region_StartKey, Region_EndKey in *. rewrite Hs, He.
    eapply Hpd. exact Hg. }
  assert (Hfind :
            match findRegionByKey env c bo key false with
            | FindOutOfFuel => False
            | FindError _ => True
            | Found r _ _ => Contains r key = true
            end).
  { unfold findRegionByKey.
    destruct (searchCachedRegion env c key false) as [[r|] c1] eqn:Es.
    - apply searchCachedRegion_contains in Es.
      unfold checkNeedReloadAndMarkUpdated.
      destruct (syncFlag r =? updated); [exact Es|].
      pose proof (loadRegion_total env bo key false) as Ht.
      destruct (loadRegion env bo key false) as [| |lr bo'] eqn:El.
      + exact Es.
      + congruence.
      + now apply (Hload lr bo').
    - pose proof (loadRegion_total env bo key false) as Ht.
      destruct (loadRegion env bo key false) as [| |lr bo'] eqn:El.
      + exact I.
      + congruence.
      + now apply (Hload lr bo'). }
  unfold LocateKey.
  destruct (findRegionByKey env c bo key false) as [c1| |r c1 bo1]; [|contradiction|].
  - exists None, c1. split; [reflexivity | discriminate].
  - eexists _, c1. split; [reflexivity|].
    intros loc H. inversion H; subst loc. clear H.
    assert (Hc : contains (Region_StartKey r) (Region_EndKey r) key = true) by exact Hfind.
    split; [exact Hc|]. now apply contains_spec.
Qed.

Lemma LocateKey_contains_witness :
  pd_contract scenario.env
  /\ exists (res : option KeyLocation) (c' : RegionCache),
       LocateKey scenario.env scenario.cache 3%nat (B "c") = Some (res, c')
       /\ forall loc, res = Some loc ->
            Location_Contains loc (B "c") = true
            /\ bytes_Compare (Location_StartKey loc) (B "c") <> Gt
            /\ (Location_EndKey loc = []
                \/ bytes_Compare (B "c") (Location_EndKey loc) = Lt).
Proof.
  assert (H : pd_contract scenario.env).
  { intros n key m leader down E. inversion E; subst. destruct key; reflexivity. }
  split; [exact H | exact (LocateKey_contains scenario.env scenario.cache 3%nat (B "c") H)].
Defined.

(** The key "c" is served from the cache, the key "x" by a load from PD. *)
Example LocateKey_cached :
  option_map fst (LocateKey scenario.env scenario.cache 3%nat (B "c"))
  = Some (Some {| Location_Region := VerID scenario.region_a_m;
                  Location_StartKey := B "a"; Location_EndKey := B "m" |}).
Proof. vm_compute. reflexivity. Qed.

Example LocateKey_loaded :
  option_map fst (LocateKey scenario.env scenario.cache 3%nat (B "x"))
  = Some (Some {| Location_Region := {| id := 1; confVer := 1; ver := 1 |};
                  Location_StartKey := []; Location_EndKey := [] |}).
Proof. vm_compute. reflexivity. Qed.

(** A loaded region is returned as PD gave it: with a PD that answers the
    key "c" with the region from "x" to "z", that region is the location. *)
Example LocateKey_returns_pd_answer :
  exists loc c',
    LocateKey scenario.env_x_z [] 3%nat (B "c") = Some (Some loc, c')
    /\ Location_StartKey loc = B "x" /\ Location_Contains loc (B "c") = false.
Proof. eexists _, _. vm_compute. repeat split. Qed.

End Locate.

(** * Part II, continued: the rest of the engine *)

Section Commit_keys.
Import kvrpcpb mocktikv mvcc_spec.

Lemma commitKey_batch db batch key s c :
  commitKey db batch key s c
  = (batch ++ fst (commitKey db [] key s c), snd (commitKey db [] key s c)).
Proof.
  unfold commitKey, commitLock.
  destruct (lockDecoder_Decode key (newIterator db (key, lockVer))) as [e| |l it];
    cbn [fst snd app]; rewrite ?app_nil_r; try reflexivity.
  - destruct (getTxnCommitInfo _ key s) as [e| |v]; cbn [fst snd]; rewrite ?app_nil_r;
      try reflexivity.
    destruct (negb _); cbn [fst snd]; now rewrite app_nil_r.
  - destruct (negb (lock_startTS l =? s)).
    + destruct (getTxnCommitInfo _ key s) as [e| |v]; cbn [fst snd]; rewrite ?app_nil_r;
        try reflexivity.
      destruct (negb _); cbn [fst snd]; now rewrite app_nil_r.
    + destruct (c <? lock_minCommitTS l); cbn [fst snd app]; now rewrite ?app_nil_r.
Qed.

Lemma rollbackKey_batch db batch key s :
  rollbackKey db batch key s
  = (batch ++ fst (rollbackKey db [] key s), snd (rollbackKey db [] key s)).
Proof.
  unfold rollbackKey, rollbackLock, writeRollback.
  assert (Hc : forall it,
             match getTxnCommitInfo it key s with
             | InfoErr err => (batch, Some err)
             | InfoFound c =>
                 if negb (mvccValueType_eqb (valueType c) typeRollback)
                 then (batch, Some (ErrAlreadyCommitted (value_commitTS c)))
                 else (batch, None)
             | InfoNone =>
                 (batch ++ [BPut (key, s) (RValue (tombstone s))], None)
             end
             = (batch ++ fst match getTxnCommitInfo it key s with
                             | InfoErr err => ([], Some err)
                             | InfoFound c =>
                                 if negb (mvccValueType_eqb (valueType c) typeRollback)
                                 then ([], Some (ErrAlreadyCommitted (value_commitTS c)))
                                 else ([], None)
                             | InfoNone => ([] ++ [BPut (key, s) (RValue (tombstone s))], None)
                             end,
                snd match getTxnCommitInfo it key s with
                    | InfoErr err => (@nil batchOp, Some err)
                    | InfoFound c =>
                        if negb (mvccValueType_eqb (valueType c) typeRollback)
                        then ([], Some (ErrAlreadyCommitted (value_commitTS c)))
                        else ([], None)
                    | InfoNone => ([] ++ [BPut (key, s) (RValue (tombstone s))], None)
                    end)).
  { intros it. destruct (getTxnCommitInfo it key s) as [e| |v]; cbn [fst snd app];
      rewrite ?app_nil_r; try reflexivity.
    destruct (negb _); cbn [fst snd]; now rewrite app_nil_r. }
  unfold tombstone in Hc.
  destruct (Valid (newIterator db (key, lockVer))); [|cbn [fst snd app]; reflexivity].
  destruct (lockDecoder_Decode key (newIterator db (key, lockVer))) as [e| |l it];
    cbn [fst snd app]; rewrite ?app_nil_r; try reflexivity.
  - apply Hc.
  - destruct (lock_startTS l =? s); [cbn [fst snd app]; now rewrite <- app_assoc | apply Hc].
Qed.

Lemma Commit_loop_keys db s c :
  forall keys batch,
    snd (Commit_loop db batch keys s c)
    = match find (fun k => is_err (snd (commitKey db [] k s c))) keys with
      | Some k => snd (commitKey db [] k s c)
      | None => None
      end
    /\ (find (fun k => is_err (snd (commitKey db [] k s c))) keys = None ->
        fst (Commit_loop db batch keys s c)
        = batch ++ flat_map (fun k => fst (commitKey db [] k s c)) keys).
Proof.
  induction keys as [|k keys IH]; intros batch; cbn [Commit_loop find flat_map].
  - split; [reflexivity | now rewrite app_nil_r].
  - rewrite commitKey_batch.
    destruct (snd (commitKey db [] k s c)) as [e|] eqn:Ee; cbn [is_err is_nil negb snd fst].
    + split; [now rewrite Ee | discriminate].
    + destruct (IH (batch ++ fst (commitKey db [] k s c))) as [H1 H2].
      split; [exact H1|]. intros Hf. rewrite (H2 Hf). now rewrite app_assoc.
Qed.

Lemma Commit_keys_eq :
  forall (db : DB) (keys : list bytes) (start_ts commit_ts : Z),
    Commit db keys start_ts commit_ts
    = match find (fun k => is_err (snd (commitKey db [] k start_ts commit_ts))) keys with
      | Some k => (db, snd (commitKey db [] k start_ts commit_ts))
      | None =>
          (Write db (flat_map (fun k => fst (commitKey db [] k start_ts commit_ts)) keys),
           None)
      end.
Proof.
  intros db keys s c. unfold Commit.
  destruct (Commit_loop_keys db s c keys []) as [H1 H2].
  destruct (Commit_loop db [] keys s c) as [batch err]. cbn [fst snd] in *.
  destruct (find _ keys) as [k|] eqn:Ef.
  - apply find_some in Ef as [_ Hk]. subst err.
    destruct (snd (commitKey db [] k s c)); [reflexivity | discriminate].
  - subst err. now rewrite (H2 eq_refl).
Qed.

(** X1.  [Commit] on a list of keys is all or nothing, and every key is
    judged against the store as it was before the call: when some key
    fails, the error is that of the first failing key and the store is
    unchanged; otherwise the store receives, in the order of the keys, the
    operations that each key would commit alone. *)
Theorem Commit_all_or_nothing :
  forall (db : DB) (keys : list bytes) (start_ts commit_ts : Z),
    Commit db keys start_ts commit_ts
    = match find (fun k => is_err (snd (commitKey db [] k start_ts commit_ts))) keys with
      | Some k => (db, snd (commitKey db [] k start_ts commit_ts))
      | None =>
          (Write db (flat_map (fun k => fst (commitKey db [] k start_ts commit_ts)) keys),
           None)
      end.
Proof. exact Commit_keys_eq. Qed.

Lemma Rollback_loop_keys db s :
  forall keys batch,
    snd (Rollback_loop db batch keys s)
    = match find (fun k => is_err (snd (rollbackKey db [] k s))) keys with
      | Some k => snd (rollbackKey db [] k s)
      | None => None
      end
    /\ (find (fun k => is_err (snd (rollbackKey db [] k s))) keys = None ->
        fst (Rollback_loop db batch keys s)
        = batch ++ flat_map (fun k => fst (rollbackKey db [] k s)) keys).
Proof.
  induction keys as [|k keys IH]; intros batch; cbn [Rollback_loop find flat_map].
  - split; [reflexivity | now rewrite app_nil_r].
  - rewrite rollbackKey_batch.
    destruct (snd (rollbackKey db [] k s)) as [e|] eqn:Ee; cbn [is_err is_nil negb snd fst].
    + split; [now rewrite Ee | discriminate].
    + destruct (IH (batch ++ fst (rollbackKey db [] k s))) as [H1 H2].
      split; [exact H1|]. intros Hf. rewrite (H2 Hf). now rewrite app_assoc.
Qed.

Lemma Rollback_keys_eq :
  forall (db : DB) (keys : list bytes) (start_ts : Z),
    Rollback db keys start_ts
    = match find (fun k => is_err (snd (rollbackKey db [] k start_ts))) keys with
      | Some k => (db, snd (rollbackKey db [] k start_ts))
      | None =>
          (Write db (flat_map (fun k => fst (rollbackKey db [] k start_ts)) keys), None)
      end.
Proof.
  intros db keys s. unfold Rollback.
  destruct (Rollback_loop_keys db s keys []) as [H1 H2].
  destruct (Rollback_loop db [] keys s) as [batch err]. cbn [fst snd] in *.
  destruct (find _ keys) as [k|] eqn:Ef.
  - apply find_some in Ef as [_ Hk]. subst err.
    destruct (snd (rollbackKey db [] k s)); [reflexivity | discriminate].
  - subst err. now rewrite (H2 eq_refl).
Qed.

(** X2.  [Rollback] on a list of keys is all or nothing as well: the first
    key that fails (its transaction is committed already) gives the error
    and nothing is written, not even the tombstones of the keys before it;
    otherwise the store receives the operations of every key. *)
Theorem Rollback_all_or_nothing :
  forall (db : DB) (keys : list bytes) (start_ts : Z),
    Rollback db keys start_ts
    = match find (fun k => is_err (snd (rollbackKey db [] k start_ts))) keys with
      | Some k => (db, snd (rollbackKey db [] k start_ts))
      | None =>
          (Write db (flat_map (fun k => fst (rollbackKey db [] k start_ts)) keys), None)
      end.
Proof. exact Rollback_keys_eq. Qed.

End Commit_keys.

Section Store_delete.
Import kvrpcpb mocktikv mvcc_spec.

Lemma db_delete_Forall (P : entry -> Prop) k db :
  Forall P db -> Forall P (db_delete k db).
Proof.
  induction 1 as [|e db He Hdb IH]; cbn [db_delete]; [constructor|].
  destruct (mvcc_compare (fst e) k); auto.
Qed.

Lemma db_delete_sorted k db : sorted db = true -> sorted (db_delete k db) = true.
Proof.
  induction db as [|e db IH]; [reflexivity|]. intros Hs.
  apply sorted_cons in Hs as [Hlt Hs]. cbn [db_delete].
  destruct (mvcc_compare (fst e) k).
  - exact Hs.
  - apply sorted_intro; [now apply db_delete_Forall | now apply IH].
  - now apply sorted_intro.
Qed.

Lemma db_delete_wf k db : wf_db db = true -> wf_db (db_delete k db) = true.
Proof.
  unfold wf_db. rewrite !andb_true_iff. intros [Hs Hok]. split.
  - now apply db_delete_sorted.
  - rewrite forallb_forall in *. rewrite <- Forall_forall in *. now apply db_delete_Forall.
Qed.

Lemma db_get_delete_same k db : sorted db = true -> db_get k (db_delete k db) = None.
Proof.
  induction db as [|e db IH]; [reflexivity|]. intros Hs.
  apply sorted_cons in Hs as [Hlt Hs]. cbn [db_delete].
  destruct (mvcc_compare (fst e) k) eqn:Ec.
  - apply mvcc_compare_eq in Ec. subst k. now apply db_get_after.
  - cbn [db_get]. rewrite Ec. now apply IH.
  - cbn [db_get]. rewrite Ec. apply db_get_after.
    apply mvcc_compare_Gt_Lt in Ec.
    eapply Forall_impl; [|exact Hlt]. intros e' He'. cbn beta in He'.
    eapply mvcc_compare_trans; eassumption.
Qed.

Lemma db_get_delete k' k db :
  sorted db = true ->
  db_get k' (db_delete k db)
  = match mvcc_compare k k' with Eq => None | _ => db_get k' db end.
Proof.
  intros Hs. destruct (mvcc_compare k k') eqn:Ec.
  - apply mvcc_compare_eq in Ec. subst k'. now apply db_get_delete_same.
  - apply db_get_delete_other. intros ->. now rewrite mvcc_compare_refl in Ec.
  - apply db_get_delete_other. intros ->. now rewrite mvcc_compare_refl in Ec.
Qed.

Lemma writeEntries_delete_lock key db key' :
  writeEntries (db_delete (key, lockVer) db) key' = writeEntries db key'.
Proof.
  induction db as [|e db IH]; [reflexivity|]. cbn [db_delete].
  destruct (mvcc_compare (fst e) (key, lockVer)) eqn:Ec.
  - apply mvcc_compare_eq in Ec. rewrite writeEntries_cons.
    unfold ver_of. rewrite Ec. cbn [snd]. rewrite Z.eqb_refl, andb_false_r. reflexivity.
  - rewrite !writeEntries_cons, IH. reflexivity.
  - reflexivity.
Qed.

(** The operations of a batch that keep the store well formed. *)
Lemma Write_wf batch :
  Forall (fun op => match op with
                    | BPut k r => entry_ok (k, r) = true
                    | BDelete _ => True
                    end) batch ->
  forall db, wf_db db = true -> wf_db (Write db batch) = true.
Proof.
  induction 1 as [|op batch Hop Hb IH]; intros db Hwf; [exact Hwf|].
  cbn [Write fold_left]. apply IH. destruct op as [k r|k]; cbn [apply_op].
  - now apply db_put_wf.
  - now apply db_delete_wf.
Qed.

Lemma Write_app db b1 b2 : Write db (b1 ++ b2) = Write (Write db b1) b2.
Proof. unfold Write. apply fold_left_app. Qed.

Lemma lockOf_put_lock db key l key' :
  lockOf (db_put (key, lockVer) (RLock l) db) key'
  = if bytes_Equal key key' then Some l else lockOf db key'.
Proof.
  unfold lockOf. rewrite db_get_put.
  destruct (bytes_Equal key key') eqn:Ek.
  - apply bytes_Equal_true in Ek. subst key'. now rewrite mvcc_compare_refl.
  - apply bytes_Equal_false in Ek.
    destruct (mvcc_compare (key, lockVer) (key', lockVer)) eqn:Ec; try reflexivity.
    apply mvcc_compare_eq in Ec. congruence.
Qed.

Lemma lockOf_delete_lock db key key' :
  sorted db = true ->
  lockOf (db_delete (key, lockVer) db) key'
  = if bytes_Equal key key' then None else lockOf db key'.
Proof.
  intros Hs. unfold lockOf. rewrite db_get_delete by assumption.
  destruct (bytes_Equal key key') eqn:Ek.
  - apply bytes_Equal_true in Ek. subst key'. now rewrite mvcc_compare_refl.
  - apply bytes_Equal_false in Ek.
    destruct (mvcc_compare (key, lockVer) (key', lockVer)) eqn:Ec; try reflexivity.
    apply mvcc_compare_eq in Ec. congruence.
Qed.

Lemma lockOf_put_write db key ts v key' :
  ts <> lockVer ->
  lockOf (db_put (key, ts) (RValue v) db) key' = lockOf db key'.
Proof.
  intros Hne. unfold lockOf. rewrite db_get_put.
  destruct (mvcc_compare (key, ts) (key', lockVer)) eqn:Ec; try reflexivity.
  apply mvcc_compare_eq in Ec. congruence.
Qed.

End Store_delete.

Section Engine_calls.
Import kvrpcpb mocktikv mvcc_spec.

(** X3.  [BatchGet] answers in the order of the keys, with one pair for
    each key whose [Get] gives a value or an error and none for a key that
    is not found; a pair carries the value or the error of [Get] on its
    key, never both and never neither. *)
Theorem BatchGet_pairs :
  forall (db : DB) (ks : list bytes) (start_ts : Z) (iso : IsolationLevel)
         (resolved : list Z),
    let found k := match Get db k start_ts iso resolved with
                   | inr None => false
                   | _ => true
                   end in
    let pairs := BatchGet db ks start_ts iso resolved in
    map Pair_Key pairs = filter found ks
    /\ Forall (fun p =>
                 match Get db (Pair_Key p) start_ts iso resolved with
                 | inr (Some v) => Pair_Value p = Some v /\ Pair_Err p = None
                 | inl err => Pair_Value p = None /\ Pair_Err p = Some err
                 | inr None => False
                 end) pairs.
Proof.
  intros db ks ts iso resolved found pairs. subst found pairs.
  induction ks as [|k ks [IH1 IH2]]; [split; [reflexivity | constructor]|].
  cbn [BatchGet filter].
  destruct (Get db k ts iso resolved) as [err|[v|]] eqn:Eg; cbn [map Pair_Key].
  - split; [now rewrite IH1|]. constructor; [|exact IH2].
    cbn [Pair_Key]. rewrite Eg. split; reflexivity.
  - split; [now rewrite IH1|]. constructor; [|exact IH2].
    cbn [Pair_Key]. rewrite Eg. split; reflexivity.
  - split; assumption.
Qed.

(** X4.  A heartbeat on the primary key of the transaction that holds its
    lock never shortens the TTL: it returns the larger of the lock's TTL and
    the advised one, the lock carries that TTL afterwards and is otherwise
    unchanged, and nothing else in the store changes.  On a key without the
    lock of the transaction, or one that is not the lock's primary, the
    call fails and the store is unchanged. *)
Theorem TxnHeartBeat_ttl :
  forall (db : DB) (key : bytes) (start_ts advise_ttl : Z),
    wf_db db = true ->
    let '(db', ttl, err) := TxnHeartBeat db key start_ts advise_ttl in
    match lockOf db key with
    | Some l =>
        if (lock_startTS l =? start_ts) && bytes_Equal (lock_primary l) key then
          err = None /\ ttl = Z.max (lock_ttl l) advise_ttl
          /\ wf_db db' = true
          /\ lockOf db' key = Some (set_ttl l ttl)
          /\ (forall k, k <> (key, lockVer) -> db_get k db' = db_get k db)
        else err <> None /\ ttl = 0 /\ db' = db
    | None => err <> None /\ ttl = 0 /\ db' = db
    end.
Proof.
  intros db key s adv Hwf. unfold TxnHeartBeat.
  pose proof (lock_phase db key Hwf) as Hl. cbv zeta in Hl.
  destruct (lockOf db key) as [l|] eqn:El.
  - destruct Hl as (-> & _ & ->).
    destruct (lock_startTS l =? s); cbn [andb]; [|repeat split; discriminate].
    destruct (bytes_Equal (lock_primary l) key); cbn [negb]; [|repeat split; discriminate].
    destruct (lock_ttl l <? adv) eqn:Ettl.
    + apply Z.ltb_lt in Ettl. cbn [set_ttl lock_ttl].
      rewrite Z.max_r by lia. cbn [Write fold_left apply_op].
      repeat split.
      * apply db_put_wf; [apply entry_ok_lock | exact Hwf].
      * rewrite lockOf_put_lock, bytes_Equal_refl. reflexivity.
      * intros k Hk. rewrite db_get_put.
        destruct (mvcc_compare (key, lockVer) k) eqn:Ec; try reflexivity.
        apply mvcc_compare_eq in Ec. congruence.
    + apply Z.ltb_ge in Ettl. rewrite Z.max_l by lia.
      repeat split; try assumption.
      rewrite El. destruct l; reflexivity.
  - destruct Hl as (-> & _).
    destruct (Valid (newIterator db (key, lockVer))); repeat split; discriminate.
Qed.

Lemma TxnHeartBeat_ttl_witness :
  let '(db', ttl, err) := TxnHeartBeat scenario.locked (B "a") 100 5000 in
  match lockOf scenario.locked (B "a") with
  | Some l =>
      if (lock_startTS l =? 100) && bytes_Equal (lock_primary l) (B "a") then
        err = None /\ ttl = Z.max (lock_ttl l) 5000
        /\ wf_db db' = true
        /\ lockOf db' (B "a") = Some (set_ttl l ttl)
        /\ (forall k, k <> (B "a", lockVer) -> db_get k db' = db_get k scenario.locked)
      else err <> None /\ ttl = 0 /\ db' = scenario.locked
  | None => err <> None /\ ttl = 0 /\ db' = scenario.locked
  end.
Proof. apply (TxnHeartBeat_ttl scenario.locked (B "a") 100 5000). reflexivity. Defined.

End Engine_calls.

Section Pessimistic_cleanup.
Import kvrpcpb mocktikv mvcc_spec.

Lemma pessimisticRollbackKey_ops db batch key s f :
  wf_db db = true ->
  pessimisticRollbackKey db batch key s f
  = (batch ++ match lockOf db key with
              | Some l => if releasable l s f then [BDelete (key, lockVer)] else []
              | None => []
              end, None).
Proof.
  intros Hwf. unfold pessimisticRollbackKey, releasable.
  pose proof (lock_phase db key Hwf) as Hl. cbv zeta in Hl.
  destruct (lockOf db key) as [l|].
  - destruct Hl as (-> & _ & _).
    destruct (Op_eqb (lock_op l) Op_PessimisticLock && (lock_startTS l =? s)
              && (lock_forUpdateTS l <=? f)); now rewrite ?app_nil_r.
  - destruct Hl as (-> & _). now rewrite app_nil_r.
Qed.

Lemma PessimisticRollback_loop_ops db s f :
  wf_db db = true ->
  forall keys batch errs any,
    PessimisticRollback_loop db batch keys s f errs any
    = (batch ++ map (fun k => BDelete (k, lockVer))
                  (filter (fun k => match lockOf db k with
                                    | Some l => releasable l s f
                                    | None => false
                                    end) keys),
       errs ++ map (fun _ => None) keys, any).
Proof.
  intros Hwf. induction keys as [|k keys IH]; intros batch errs any;
    cbn [PessimisticRollback_loop filter map].
  - now rewrite !app_nil_r.
  - rewrite pessimisticRollbackKey_ops by assumption. rewrite IH.
    cbn [is_nil negb]. rewrite orb_false_r, <- !app_assoc. cbn [app].
    destruct (lockOf db k) as [l|]; [destruct (releasable l s f)|]; reflexivity.
Qed.

(** A batch that deletes the locks of some keys. *)
Lemma Write_delete_locks ds :
  forall db,
    wf_db db = true ->
    let db' := Write db (map (fun k => BDelete (k, lockVer)) ds) in
    wf_db db' = true
    /\ (forall key, lockOf db' key
                    = if existsb (bytes_Equal key) ds then None else lockOf db key)
    /\ (forall key, writeEntries db' key = writeEntries db key).
Proof.
  induction ds as [|d ds IH]; intros db Hwf; cbn [map Write fold_left apply_op existsb].
  - cbv zeta. split; [exact Hwf | split; reflexivity].
  - cbv zeta. pose proof (db_delete_wf (d, lockVer) db Hwf) as Hwf'.
    destruct (IH _ Hwf') as (H1 & H2 & H3). cbv zeta in H1, H2, H3. unfold Write in *.
    split; [exact H1 | split].
    + intros key. rewrite H2, lockOf_delete_lock by now apply wf_db_sorted.
      destruct (bytes_Equal key d) eqn:E1, (bytes_Equal d key) eqn:E2; cbn [orb];
        try (now destruct (existsb (bytes_Equal key) ds)).
      * apply bytes_Equal_true in E1. subst. now rewrite bytes_Equal_refl in E2.
      * apply bytes_Equal_true in E2. subst. now rewrite bytes_Equal_refl in E1.
    + intros key. now rewrite H3, writeEntries_delete_lock.
Qed.

(** X5.  [PessimisticRollback] never fails on a well-formed store.  It
    releases, among the given keys, exactly the pessimistic locks of the
    transaction taken at or before [for_update_ts]; every other lock, a
    prewrite lock of the same transaction included, stays, and no write
    record is touched. *)
Theorem PessimisticRollback_releases :
  forall (db : DB) (keys : list bytes) (start_ts for_update_ts : Z),
    wf_db db = true ->
    let released key :=
      existsb (bytes_Equal key) keys
      && match lockOf db key with
         | Some l => releasable l start_ts for_update_ts
         | None => false
         end in
    exists db',
      PessimisticRollback db keys start_ts for_update_ts = (db', map (fun _ => None) keys)
      /\ wf_db db' = true
      /\ (forall key, lockOf db' key = if released key then None else lockOf db key)
      /\ (forall key, writesOf db' key = writesOf db key).
Proof.
  intros db keys s f Hwf released. unfold PessimisticRollback.
  rewrite PessimisticRollback_loop_ops by assumption. cbn [app].
  eexists. split; [reflexivity|].
  destruct (Write_delete_locks
              (filter (fun k => match lockOf db k with
                                | Some l => releasable l s f
                                | None => false
                                end) keys) db Hwf) as (H1 & H2 & H3).
  cbv zeta in H1, H2, H3. split; [exact H1|]. split.
  - intros key. rewrite H2. subst released. cbv beta.
    destruct (existsb (bytes_Equal key) (filter _ keys)) eqn:Ee.
    + apply existsb_exists in Ee as (k & Hk & Ek). apply bytes_Equal_true in Ek. subst k.
      apply filter_In in Hk as [Hin Hr].
      assert (Hex : existsb (bytes_Equal key) keys = true)
        by (apply existsb_exists; exists key; split; [exact Hin | apply bytes_Equal_refl]).
      rewrite Hex. cbn [andb]. destruct (lockOf db key); [now rewrite Hr | discriminate].
    + destruct (existsb (bytes_Equal key) keys) eqn:Hex; cbn [andb]; [|reflexivity].
      destruct (lockOf db key) as [l|] eqn:El; [|reflexivity].
      destruct (releasable l s f) eqn:Hr; [|reflexivity].
      apply existsb_exists in Hex as (k & Hk & Ek). apply bytes_Equal_true in Ek. subst k.
      assert (Hf : existsb (bytes_Equal key)
                     (filter (fun k => match lockOf db k with
                                       | Some l => releasable l s f
                                       | None => false
                                       end) keys) = true).
      { apply existsb_exists. exists key. split; [|apply bytes_Equal_refl].
        apply filter_In. split; [exact Hk|]. now rewrite El. }
      congruence.
  - intros key. unfold writesOf. now rewrite H3.
Qed.

Lemma PessimisticRollback_releases_witness :
  exists db',
    PessimisticRollback scenario.pessimistic_store [B "a"; B "b"] 100 105
    = (db', map (fun _ => None) [B "a"; B "b"])
    /\ wf_db db' = true
    /\ (forall key,
          lockOf db' key
          = if existsb (bytes_Equal key) [B "a"; B "b"]
               && match lockOf scenario.pessimistic_store key with
                  | Some l => releasable l 100 105
                  | None => false
                  end
            then None else lockOf scenario.pessimistic_store key)
    /\ (forall key, writesOf db' key = writesOf scenario.pessimistic_store key).
Proof.
  apply (PessimisticRollback_releases scenario.pessimistic_store [B "a"; B "b"] 100 105).
  reflexivity.
Defined.

(** The pessimistic lock on "a" is released, the prewrite lock on "b"
    stays. *)
Example PessimisticRollback_example :
  PessimisticRollback scenario.pessimistic_store [B "a"; B "b"] 100 105
  = ([((B "b", lockVer), RLock scenario.lock_b)], [None; None]).
Proof. vm_compute. reflexivity. Qed.

(** X6.  [Cleanup] on a well-formed store.  A lock of the transaction that
    has not outlived its TTL (and [current_ts] is not 0) is kept and
    reported with a [Locked] error.  One that has is rolled back: the lock
    is deleted and the tombstone written.  Without a lock of the
    transaction the store is never changed: the call reports
    [AlreadyCommitted] for a committed transaction and succeeds otherwise,
    also for a transaction that was never prewritten, for which no
    tombstone is written. *)
Theorem Cleanup_cases :
  forall (ExtractPhysical : Z -> Z) (db : DB) (key : bytes) (start_ts current_ts : Z),
    wf_db db = true ->
    Cleanup ExtractPhysical db key start_ts current_ts
    = match lockOf db key with
      | Some l =>
          if lock_startTS l =? start_ts then
            if (current_ts =? 0) || expired ExtractPhysical l current_ts
            then (Write db [BPut (key, start_ts) (RValue (tombstone start_ts));
                            BDelete (key, lockVer)], None)
            else (db, Some (ErrLocked key l))
          else
            (db, match writeOfTxn db key start_ts with
                 | Some v =>
                     match valueType v with
                     | typeRollback => None
                     | _ => Some (ErrAlreadyCommitted (value_commitTS v))
                     end
                 | None => None
                 end)
      | None =>
          (db, match writeOfTxn db key start_ts with
               | Some v =>
                   match valueType v with
                   | typeRollback => None
                   | _ => Some (ErrAlreadyCommitted (value_commitTS v))
                   end
               | None => None
               end)
      end.
Proof.
  intros EP db key s cur Hwf. unfold Cleanup, expired.
  pose proof (lock_phase db key Hwf) as Hl. cbv zeta in Hl.
  assert (Hc : forall iter,
             key_run key iter = writeEntries db key ->
             match getTxnCommitInfo iter key s with
             | InfoErr err => (db, Some err)
             | InfoFound c =>
                 if negb (mvccValueType_eqb (valueType c) typeRollback)
                 then (db, Some (ErrAlreadyCommitted (value_commitTS c)))
                 else (db, None)
             | InfoNone => (db, None)
             end
             = (db, match writeOfTxn db key s with
                    | Some v =>
                        match valueType v with
                        | typeRollback => None
                        | _ => Some (ErrAlreadyCommitted (value_commitTS v))
                        end
                    | None => None
                    end)).
  { intros iter Hrun. rewrite (getTxnCommitInfo_writeOfTxn db key s _ Hwf Hrun).
    destruct (writeOfTxn db key s) as [v|]; [|reflexivity].
    rewrite valueType_Rollback_eqb. destruct (valueType v); reflexivity. }
  destruct (lockOf db key) as [l|].
  - destruct Hl as (-> & Hrun & ->).
    destruct (lock_startTS l =? s); [|now apply Hc].
    destruct ((cur =? 0) || _); reflexivity.
  - destruct Hl as (-> & Hrun).
    destruct (newIterator db (key, lockVer)) as [|e it] eqn:Ei; cbn [Valid].
    + cbn [key_run] in Hrun. unfold writeOfTxn, writesOf. rewrite <- Hrun. reflexivity.
    + now apply Hc.
Qed.

Lemma Cleanup_cases_witness :
  Cleanup scenario.ExtractPhysical scenario.locked (B "a") 100 0
  = match lockOf scenario.locked (B "a") with
    | Some l =>
        if lock_startTS l =? 100 then
          if (0 =? 0) || expired scenario.ExtractPhysical l 0
          then (Write scenario.locked
                  [BPut (B "a", 100) (RValue (tombstone 100)); BDelete (B "a", lockVer)], None)
          else (scenario.locked, Some (ErrLocked (B "a") l))
        else
          (scenario.locked,
           match writeOfTxn scenario.locked (B "a") 100 with
           | Some v =>
               match valueType v with
               | typeRollback => None
               | _ => Some (ErrAlreadyCommitted (value_commitTS v))
               end
           | None => None
           end)
    | None =>
        (scenario.locked,
         match writeOfTxn scenario.locked (B "a") 100 with
         | Some v =>
             match valueType v with
             | typeRollback => None
             | _ => Some (ErrAlreadyCommitted (value_commitTS v))
             end
         | None => None
         end)
    end.
Proof. apply (Cleanup_cases scenario.ExtractPhysical scenario.locked (B "a") 100 0). reflexivity. Defined.

(** A transaction that was never prewritten: [Cleanup] succeeds and leaves
    the store as it is, where [Rollback] writes the tombstone. *)
Example Cleanup_not_prewritten :
  Cleanup scenario.ExtractPhysical scenario.locked (B "b") 90 0 = (scenario.locked, None)
  /\ fst (Rollback scenario.locked [B "b"] 90) <> scenario.locked.
Proof. split; [reflexivity|]. vm_compute. discriminate. Qed.

End Pessimistic_cleanup.

Section CheckTxnStatus_branches.
Import kvrpcpb mocktikv mvcc_spec.

(** X7.  [CheckTxnStatus] on a primary lock that has not outlived its TTL:
    the lock is kept, with its TTL returned and no commit timestamp; only
    its [min_commit_ts] may change, and it never decreases.  For a caller
    below the maximal timestamp and a lock with a [min_commit_ts], the
    lock's [min_commit_ts] is above the caller's timestamp afterwards and
    the action is [MinCommitTSPushed]. *)
Theorem CheckTxnStatus_live_lock :
  forall (ExtractPhysical : Z -> Z) (db : DB) (primary : bytes)
         (lock_ts caller_ts current_ts : Z) (rollback_if_not_exist resolving : bool)
         (l : mvccLock),
    wf_db db = true ->
    lockOf db primary = Some l -> lock_startTS l = lock_ts ->
    expired ExtractPhysical l current_ts = false ->
    0 <= caller_ts <= U64.MaxUint64 ->
    let st := CheckTxnStatus ExtractPhysical db primary lock_ts caller_ts current_ts
                rollback_if_not_exist resolving in
    status_err st = None /\ status_ttl st = lock_ttl l /\ status_commitTS st = 0
    /\ wf_db (status_db st) = true
    /\ (exists m, lockOf (status_db st) primary = Some (set_lock_minCommitTS l m)
                  /\ lock_minCommitTS l <= m
                  /\ (caller_ts < U64.MaxUint64 -> 0 < lock_minCommitTS l ->
                      caller_ts < m /\ status_action st = Action_MinCommitTSPushed))
    /\ (forall k, k <> (primary, lockVer) -> db_get k (status_db st) = db_get k db).
Proof.
  intros EP db p s caller cur rb rp l Hwf El Hs Hexp Hcaller st. subst st.
  unfold CheckTxnStatus. unfold expired in Hexp.
  pose proof (lock_phase db p Hwf) as Hl. cbv zeta in Hl. rewrite El in Hl.
  destruct Hl as (-> & _ & ->). rewrite Hs, Z.eqb_refl.
  rewrite Hs in Hexp. rewrite Hexp.
  assert (Hsame : set_lock_minCommitTS l (lock_minCommitTS l) = l) by (destruct l; reflexivity).
  destruct (caller =? U64.MaxUint64) eqn:Emax.
  - apply Z.eqb_eq in Emax. cbn [status_err status_ttl status_commitTS status_db].
    repeat split; try assumption.
    exists (lock_minCommitTS l). rewrite Hsame. repeat split; try assumption; lia.
  - apply Z.eqb_neq in Emax.
    destruct (0 <? lock_minCommitTS l) eqn:Emin.
    + apply Z.ltb_lt in Emin. rewrite U64_add_small by lia.
      destruct (lock_minCommitTS l <? caller + 1) eqn:Elt.
      * apply Z.ltb_lt in Elt.
        cbn [set_lock_minCommitTS lock_minCommitTS].
        assert (Hput : forall m,
                   caller < m -> lock_minCommitTS l <= m ->
                   let st := {| status_db := Write db [BPut (p, lockVer)
                                                         (RLock (set_lock_minCommitTS l m))];
                                status_ttl := lock_ttl (set_lock_minCommitTS l m);
                                status_commitTS := 0;
                                status_action := Action_MinCommitTSPushed;
                                status_err := None |} in
                   status_err st = None /\ status_ttl st = lock_ttl l
                   /\ status_commitTS st = 0 /\ wf_db (status_db st) = true
                   /\ (exists m, lockOf (status_db st) p = Some (set_lock_minCommitTS l m)
                                 /\ lock_minCommitTS l <= m
                                 /\ (caller < U64.MaxUint64 -> 0 < lock_minCommitTS l ->
                                     caller < m
                                     /\ status_action st = Action_MinCommitTSPushed))
                   /\ (forall k, k <> (p, lockVer) -> db_get k (status_db st) = db_get k db)).
        { intros m Hm1 Hm2.
          cbn [status_err status_ttl status_commitTS status_db status_action
               set_lock_minCommitTS lock_ttl Write fold_left apply_op].
          split; [reflexivity|]. split; [reflexivity|]. split; [reflexivity|].
          split; [apply db_put_wf; [apply entry_ok_lock | exact Hwf]|].
          split.
          - exists m. rewrite lockOf_put_lock, bytes_Equal_refl.
            split; [reflexivity|]. split; [exact Hm2|]. intros _ _. split; [exact Hm1 | reflexivity].
          - intros k Hk. rewrite db_get_put.
            destruct (mvcc_compare (p, lockVer) k) eqn:Ec; try reflexivity.
            apply mvcc_compare_eq in Ec. congruence. }
        destruct (caller + 1 <? cur) eqn:Ecur;
          [apply Z.ltb_lt in Ecur | apply Z.ltb_ge in Ecur].
        -- replace (set_lock_minCommitTS (set_lock_minCommitTS l (caller + 1)) cur)
             with (set_lock_minCommitTS l cur) by reflexivity.
           apply Hput; lia.
        -- apply Hput; lia.
      * apply Z.ltb_ge in Elt.
        cbn [status_err status_ttl status_commitTS status_db status_action].
        repeat split; try assumption.
        exists (lock_minCommitTS l). rewrite Hsame. repeat split; try assumption; lia.
    + apply Z.ltb_ge in Emin.
      cbn [status_err status_ttl status_commitTS status_db status_action].
      repeat split; try assumption.
      exists (lock_minCommitTS l). rewrite Hsame. repeat split; try assumption; lia.
Qed.

Lemma CheckTxnStatus_live_lock_witness :
  let st := CheckTxnStatus scenario.ExtractPhysical scenario.locked (B "a") 100 120 130
              false false in
  status_err st = None /\ status_ttl st = lock_ttl scenario.lock_a /\ status_commitTS st = 0
  /\ wf_db (status_db st) = true
  /\ (exists m, lockOf (status_db st) (B "a") = Some (set_lock_minCommitTS scenario.lock_a m)
                /\ lock_minCommitTS scenario.lock_a <= m
                /\ (120 < U64.MaxUint64 -> 0 < lock_minCommitTS scenario.lock_a ->
                    120 < m /\ status_action st = Action_MinCommitTSPushed))
  /\ (forall k, k <> (B "a", lockVer) -> db_get k (status_db st) = db_get k scenario.locked).
Proof.
  apply (CheckTxnStatus_live_lock scenario.ExtractPhysical scenario.locked (B "a") 100 120 130
           false false scenario.lock_a); try reflexivity.
  rewrite U64_MaxUint64_eq. lia.
Defined.

(** The lock of "a" has [min_commit_ts = 101]; a reader at 120, with the
    clock at 130, pushes it to 130. *)
Example CheckTxnStatus_push_example :
  lockOf (status_db (CheckTxnStatus scenario.ExtractPhysical scenario.locked (B "a") 100 120
                       130 false false)) (B "a")
  = Some (set_lock_minCommitTS scenario.lock_a 130).
Proof. vm_compute. reflexivity. Qed.

(** X8.  [CheckTxnStatus] on a primary lock that has outlived its TTL
    removes the lock and reports neither TTL nor commit timestamp.  A
    pessimistic lock met while resolving pessimistic locks is released
    without a trace ([TTLExpirePessimisticRollback]); any other lock is
    rolled back with a tombstone at [lock_ts] ([TTLExpireRollback]). *)
Theorem CheckTxnStatus_expired_lock :
  forall (ExtractPhysical : Z -> Z) (db : DB) (primary : bytes)
         (lock_ts caller_ts current_ts : Z) (rollback_if_not_exist resolving : bool)
         (l : mvccLock),
    wf_db db = true ->
    lockOf db primary = Some l -> lock_startTS l = lock_ts ->
    expired ExtractPhysical l current_ts = true ->
    0 <= lock_ts < lockVer ->
    let st := CheckTxnStatus ExtractPhysical db primary lock_ts caller_ts current_ts
                rollback_if_not_exist resolving in
    status_err st = None /\ status_ttl st = 0 /\ status_commitTS st = 0
    /\ wf_db (status_db st) = true
    /\ lockOf (status_db st) primary = None
    /\ (if resolving && Op_eqb (lock_op l) Op_PessimisticLock
        then status_action st = Action_TTLExpirePessimisticRollback
             /\ writesOf (status_db st) primary = writesOf db primary
        else status_action st = Action_TTLExpireRollback
             /\ db_get (primary, lock_ts) (status_db st) = Some (RValue (tombstone lock_ts))).
Proof.
  intros EP db p s caller cur rb rp l Hwf El Hs Hexp Hrange st. subst st.
  unfold CheckTxnStatus. unfold expired in Hexp.
  pose proof (lock_phase db p Hwf) as Hl. cbv zeta in Hl. rewrite El in Hl.
  destruct Hl as (-> & _ & ->). rewrite Hs, Z.eqb_refl.
  rewrite Hs in Hexp. rewrite Hexp.
  assert (Hne : s <> lockVer) by lia.
  destruct (rp && Op_eqb (lock_op l) Op_PessimisticLock) eqn:Erp.
  - rewrite pessimisticRollbackKey_ops by assumption. rewrite El.
    apply andb_true_iff in Erp as [_ Eop].
    unfold releasable. rewrite Eop, Hs, Z.eqb_refl, Z.leb_refl.
    cbn [andb app status_err status_ttl status_commitTS status_db status_action
         Write fold_left apply_op].
    repeat split.
    + now apply db_delete_wf.
    + rewrite lockOf_delete_lock, bytes_Equal_refl by now apply wf_db_sorted. reflexivity.
    + unfold writesOf. now rewrite writeEntries_delete_lock.
  - unfold rollbackLock, writeRollback.
    cbn [app status_err status_ttl status_commitTS status_db status_action
         Write fold_left apply_op].
    assert (Hok : entry_ok ((p, s), RValue (tombstone s)) = true).
    { unfold entry_ok, ver_of. cbn [fst snd tombstone value_commitTS].
      rewrite Z.eqb_refl, andb_true_r.
      apply andb_true_iff; split; [apply andb_true_iff; split|]; lia. }
    pose proof (db_put_wf _ _ _ Hok Hwf) as Hwf1.
    repeat split.
    + now apply db_delete_wf.
    + rewrite lockOf_delete_lock, bytes_Equal_refl by now apply wf_db_sorted. reflexivity.
    + rewrite db_get_delete_other by congruence.
      rewrite db_get_put, mvcc_compare_refl. reflexivity.
Qed.

Lemma CheckTxnStatus_expired_lock_witness :
  let st := CheckTxnStatus scenario.ExtractPhysical scenario.locked (B "a") 100 120
              (Z.shiftl 4000 18) false false in
  status_err st = None /\ status_ttl st = 0 /\ status_commitTS st = 0
  /\ wf_db (status_db st) = true
  /\ lockOf (status_db st) (B "a") = None
  /\ (if false && Op_eqb (lock_op scenario.lock_a) Op_PessimisticLock
      then status_action st = Action_TTLExpirePessimisticRollback
           /\ writesOf (status_db st) (B "a") = writesOf scenario.locked (B "a")
      else status_action st = Action_TTLExpireRollback
           /\ db_get (B "a", 100) (status_db st) = Some (RValue (tombstone 100))).
Proof.
  apply (CheckTxnStatus_expired_lock scenario.ExtractPhysical scenario.locked (B "a") 100 120
           (Z.shiftl 4000 18) false false scenario.lock_a); try reflexivity.
  rewrite lockVer_eq. lia.
Defined.

(** X9.  [CheckTxnStatus] on a transaction that is finished (no lock of
    [lock_ts] on the primary key, but a write record of it) is read-only:
    it returns the commit timestamp of a committed transaction and 0 for a
    rolled back one, without TTL, action or error. *)
Theorem CheckTxnStatus_finished :
  forall (ExtractPhysical : Z -> Z) (db : DB) (primary : bytes)
         (lock_ts caller_ts current_ts : Z) (rollback_if_not_exist resolving : bool)
         (v : mvccValue),
    wf_db db = true ->
    lockedBy db primary lock_ts = false ->
    writeOfTxn db primary lock_ts = Some v ->
    CheckTxnStatus ExtractPhysical db primary lock_ts caller_ts current_ts
      rollback_if_not_exist resolving
    = {| status_db := db; status_ttl := 0;
         status_commitTS := match valueType v with
                            | typeRollback => 0
                            | _ => value_commitTS v
                            end;
         status_action := Action_NoAction; status_err := None |}.
Proof.
  intros EP db p s caller cur rb rp v Hwf Hlb Hw. unfold CheckTxnStatus.
  pose proof (lock_phase db p Hwf) as Hl. cbv zeta in Hl.
  unfold lockedBy in Hlb.
  destruct (lockOf db p) as [l|].
  - destruct Hl as (-> & Hrun & ->). rewrite Hlb.
    rewrite (getTxnCommitInfo_writeOfTxn db p s _ Hwf Hrun), Hw.
    rewrite valueType_Rollback_eqb. destruct (valueType v); reflexivity.
  - destruct Hl as (-> & Hrun).
    destruct (newIterator db (p, lockVer)) as [|e it] eqn:Ei; cbn [Valid].
    + cbn [key_run] in Hrun. unfold writeOfTxn, writesOf in Hw. rewrite <- Hrun in Hw.
      discriminate.
    + rewrite (getTxnCommitInfo_writeOfTxn db p s _ Hwf Hrun), Hw.
      rewrite valueType_Rollback_eqb. destruct (valueType v); reflexivity.
Qed.

Lemma CheckTxnStatus_finished_witness :
  CheckTxnStatus scenario.ExtractPhysical scenario.committed_store (B "a") 100 120 130
    true false
  = {| status_db := scenario.committed_store; status_ttl := 0;
       status_commitTS := match valueType scenario.put_a with
                          | typeRollback => 0
                          | _ => value_commitTS scenario.put_a
                          end;
       status_action := Action_NoAction; status_err := None |}.
Proof.
  apply (CheckTxnStatus_finished scenario.ExtractPhysical scenario.committed_store (B "a")
           100 120 130 true false scenario.put_a); reflexivity.
Defined.

End CheckTxnStatus_branches.

Section Store_views.
Import kvrpcpb mocktikv mvcc_spec.

Lemma db_In_get db k r : sorted db = true -> In (k, r) db -> db_get k db = Some r.
Proof.
  induction db as [|e db IH]; [contradiction|]. intros Hs Hin.
  apply sorted_cons in Hs as [Hlt Hs]. cbn [db_get]. destruct Hin as [->|Hin].
  - cbn [fst snd]. now rewrite mvcc_compare_refl.
  - rewrite Forall_forall in Hlt. specialize (Hlt _ Hin). cbn [fst] in Hlt.
    rewrite Hlt. now apply IH.
Qed.

(** The write records of a key are the records stored under the key at
    their commit timestamps. *)
Lemma writesOf_get db key v :
  wf_db db = true ->
  In v (writesOf db key)
  <-> value_commitTS v <> lockVer /\ db_get (key, value_commitTS v) db = Some (RValue v).
Proof.
  intros Hwf. split.
  - intros Hin. pose proof (writesOf_In db key v Hwf Hin) as He.
    split.
    + pose proof (wf_db_Forall db Hwf) as Hok. rewrite Forall_forall in Hok.
      specialize (Hok _ He). unfold entry_ok, ver_of in Hok. cbn [fst snd] in Hok.
      apply andb_true_iff in Hok as [_ Hok]. apply andb_true_iff in Hok as [Hok _]. lia.
    + apply db_In_get; [now apply wf_db_sorted | exact He].
  - intros [Hne Hg]. now apply (db_get_writesOf db key (value_commitTS v)).
Qed.

Lemma find_none_iff {A} (P : A -> bool) l :
  find P l = None <-> forall x, In x l -> P x = false.
Proof.
  split; [apply find_none|]. induction l as [|a l IH]; [reflexivity|].
  intros H. cbn [find]. rewrite (H a) by now left. apply IH. intros x Hx. apply H. now right.
Qed.

(** In a list in strictly descending order of [f], [find] gives the
    element of greatest [f] among those that satisfy the test. *)
Lemma find_descending {A} (f : A -> Z) (P : A -> bool) l v :
  StronglySorted (fun a b => f b < f a) l ->
  find P l = Some v
  <-> In v l /\ P v = true /\ forall v', In v' l -> P v' = true -> f v' <= f v.
Proof.
  induction 1 as [|a l Hs IH Ha]; cbn [find].
  - split; [discriminate | intros [[] _]].
  - rewrite Forall_forall in Ha. destruct (P a) eqn:Pa.
    + split.
      * intros E. inversion E; subst v. split; [now left|]. split; [exact Pa|].
        intros v' [->|Hv'] _; [lia|]. specialize (Ha _ Hv'). lia.
      * intros ([->|Hin] & Pv & Hmax); [reflexivity|].
        specialize (Ha _ Hin). specialize (Hmax a (or_introl eq_refl) Pa). lia.
    + rewrite IH. split.
      * intros (Hin & Pv & Hmax). split; [now right|]. split; [exact Pv|].
        intros v' [->|Hv'] Pv'; [congruence | now apply Hmax].
      * intros ([->|Hin] & Pv & Hmax); [congruence|]. split; [exact Hin|].
        split; [exact Pv|]. intros v' Hv'. apply Hmax. now right.
Qed.

(** Two descending lists with the same elements that pass the test give
    the same [find]. *)
Lemma find_descending_ext {A} (f : A -> Z) (P : A -> bool) l1 l2 :
  StronglySorted (fun a b => f b < f a) l1 ->
  StronglySorted (fun a b => f b < f a) l2 ->
  (forall v, P v = true -> (In v l1 <-> In v l2)) ->
  find P l1 = find P l2.
Proof.
  intros H1 H2 Hin.
  assert (Hiff : forall v, find P l1 = Some v <-> find P l2 = Some v).
  { intros v. rewrite (find_descending f P l1 v H1), (find_descending f P l2 v H2).
    split; intros (Hv & Pv & Hmax); (split; [now apply (Hin v Pv)|]); (split; [exact Pv|]);
      intros v' Hv' Pv'; apply Hmax; try assumption; now apply (Hin v' Pv'). }
  destruct (find P l1) as [v|], (find P l2) as [w|]; try reflexivity.
  - symmetry. now apply (Hiff v).
  - destruct (Hiff v) as [H _]. discriminate (H eq_refl).
  - destruct (Hiff w) as [_ H]. discriminate (H eq_refl).
Qed.

Lemma entry_ok_write_record key ts v :
  0 <= ts < lockVer -> value_commitTS v = ts -> entry_ok ((key, ts), RValue v) = true.
Proof.
  intros Hts Hv. unfold entry_ok, ver_of. cbn [fst snd]. rewrite Hv, Z.eqb_refl, andb_true_r.
  apply andb_true_iff; split; [apply andb_true_iff; split|]; lia.
Qed.

(** The write records of a key after a write record is put. *)
Lemma writesOf_put db key ts v0 key' v :
  wf_db db = true -> 0 <= ts < lockVer -> value_commitTS v0 = ts ->
  In v (writesOf (db_put (key, ts) (RValue v0) db) key')
  <-> (key' = key /\ v = v0)
      \/ (In v (writesOf db key') /\ (key' = key -> value_commitTS v <> ts)).
Proof.
  intros Hwf Hts Hv0.
  pose proof (db_put_wf _ _ _ (entry_ok_write_record key ts v0 Hts Hv0) Hwf) as Hwf'.
  rewrite (writesOf_get _ key' v Hwf'), (writesOf_get db key' v Hwf), db_get_put.
  destruct (mvcc_compare (key, ts) (key', value_commitTS v)) eqn:Ec.
  - apply mvcc_compare_eq in Ec. inversion Ec; subst key'. split.
    + intros [_ E]. inversion E. left. split; reflexivity.
    + intros [[_ ->]|[_ Hne]]; [split; [lia | reflexivity]|]. now contradiction Hne.
  - split.
    + intros [H1 H2]. right. split; [split; assumption|]. intros ->.
      intros E. rewrite E, mvcc_compare_refl in Ec. discriminate.
    + intros [[-> ->]|[H _]]; [|exact H]. rewrite Hv0, mvcc_compare_refl in Ec. discriminate.
  - split.
    + intros [H1 H2]. right. split; [split; assumption|]. intros ->.
      intros E. rewrite E, mvcc_compare_refl in Ec. discriminate.
    + intros [[-> ->]|[H _]]; [|exact H]. rewrite Hv0, mvcc_compare_refl in Ec. discriminate.
Qed.

Lemma writesOf_delete_lock db key key' :
  writesOf (db_delete (key, lockVer) db) key' = writesOf db key'.
Proof. unfold writesOf. now rewrite writeEntries_delete_lock. Qed.

(** [Get] in the words of the specification. *)
Lemma Get_as_spec db key ts iso resolved :
  wf_db db = true -> Get db key ts iso resolved = Get_spec db key ts iso resolved.
Proof.
  intros Hwf. unfold Get, Get_spec. rewrite getValue_run, newIterator_run by assumption.
  pose proof (writeEntries_run db key Hwf) as Hrun.
  unfold read, writesOf.
  destruct (lockOf db key) as [l|].
  - unfold getValue. rewrite lockDecoder_lock.
    destruct (IsolationLevel_eqb iso IsolationLevel_SI); cbn [andb].
    + unfold check, visible, lockErr.
      destruct ((lock_startTS l <=? ts) && negb (existsb (Z.eqb (lock_startTS l)) resolved));
        [reflexivity|]. now apply getValue_loop_writes.
    + now apply getValue_loop_writes.
  - unfold getValue. rewrite lockDecoder_write by assumption.
    now apply getValue_loop_writes.
Qed.

Lemma commitKey_locked db batch key s c l :
  wf_db db = true -> lockOf db key = Some l -> lock_startTS l = s ->
  commitKey db batch key s c
  = if c <? lock_minCommitTS l
    then (batch, Some (ErrCommitTSExpired s c key (lock_minCommitTS l)))
    else (batch ++ [BPut (key, c) (RValue (committed l s c)); BDelete (key, lockVer)], None).
Proof.
  intros Hwf El Hs. unfold commitKey.
  pose proof (lock_phase db key Hwf) as Hl. cbv zeta in Hl. rewrite El in Hl.
  destruct Hl as (-> & _ & _). rewrite Hs, Z.eqb_refl. cbn [negb].
  destruct (c <? lock_minCommitTS l); [reflexivity|]. now rewrite commitLock_committed.
Qed.

Lemma commitKey_unlocked db batch key s c :
  wf_db db = true -> lockedBy db key s = false ->
  commitKey db batch key s c
  = (batch, match writeOfTxn db key s with
            | Some v =>
                match valueType v with
                | typeRollback => Some (ErrRetryable "txn not found")
                | _ => None
                end
            | None => Some (ErrRetryable "txn not found")
            end).
Proof.
  intros Hwf Hlb. unfold commitKey.
  pose proof (lock_phase db key Hwf) as Hl. cbv zeta in Hl. unfold lockedBy in Hlb.
  destruct (lockOf db key) as [l|].
  - destruct Hl as (-> & Hrun & _). rewrite Hlb. cbn [negb].
    rewrite (getTxnCommitInfo_writeOfTxn db key s _ Hwf Hrun).
    destruct (writeOfTxn db key s) as [v|]; [|reflexivity].
    rewrite valueType_Rollback_eqb. destruct (valueType v); reflexivity.
  - destruct Hl as (-> & Hrun).
    rewrite (getTxnCommitInfo_writeOfTxn db key s _ Hwf Hrun).
    destruct (writeOfTxn db key s) as [v|]; [|reflexivity].
    rewrite valueType_Rollback_eqb. destruct (valueType v); reflexivity.
Qed.

End Store_views.

Section Engine_invariant.
Import kvrpcpb mocktikv mvcc_spec.

Local Abbreviation op_ok :=
  (fun op => match op with
             | BPut k r => entry_ok (k, r) = true
             | BDelete _ => True
             end).

Lemma commitKey_ops_ok db key s c :
  0 <= c < lockVer -> Forall op_ok (fst (commitKey db [] key s c)).
Proof.
  intros Hc. unfold commitKey, commitLock.
  assert (Hf : forall it, Forall op_ok
                            (fst match getTxnCommitInfo it key s with
                                 | InfoErr _ => (@nil batchOp, @None Error)
                                 | InfoFound c0 =>
                                     if negb (mvccValueType_eqb (valueType c0) typeRollback)
                                     then ([], None)
                                     else ([], Some (ErrRetryable "txn not found"))
                                 | InfoNone => ([], Some (ErrRetryable "txn not found"))
                                 end)).
  { intros it. destruct (getTxnCommitInfo it key s) as [e| |v]; try constructor.
    destruct (mvccValueType_eqb (valueType v) typeRollback); constructor. }
  destruct (lockDecoder_Decode key (newIterator db (key, lockVer))) as [e| |l it];
    [constructor | apply Hf |].
  destruct (negb (lock_startTS l =? s)); [apply Hf|].
  destruct (c <? lock_minCommitTS l); [constructor|]. cbn [fst app].
  constructor; [|constructor; [exact I | constructor]].
  now apply entry_ok_write_record.
Qed.

Lemma rollbackKey_ops_ok db key s :
  0 <= s < lockVer -> Forall op_ok (fst (rollbackKey db [] key s)).
Proof.
  intros Hs. unfold rollbackKey, rollbackLock, writeRollback.
  assert (Ht : op_ok (BPut (key, s) (RValue (tombstone s))))
    by now apply entry_ok_write_record.
  unfold tombstone in Ht.
  assert (Hf : forall it, Forall op_ok
                            (fst match getTxnCommitInfo it key s with
                                 | InfoErr err => (@nil batchOp, Some err)
                                 | InfoFound c =>
                                     if negb (mvccValueType_eqb (valueType c) typeRollback)
                                     then ([], Some (ErrAlreadyCommitted (value_commitTS c)))
                                     else ([], None)
                                 | InfoNone =>
                                     ([] ++ [BPut (key, s)
                                               (RValue {| valueType := typeRollback;
                                                          value_startTS := s;
                                                          value_commitTS := s;
                                                          value_value := [] |})], None)
                                 end)).
  { intros it. destruct (getTxnCommitInfo it key s) as [e| |v]; try constructor.
    - exact Ht.
    - constructor.
    - destruct (mvccValueType_eqb (valueType v) typeRollback); constructor. }
  destruct (Valid (newIterator db (key, lockVer)));
    [|cbn [fst app]; constructor; [exact Ht | constructor]].
  destruct (lockDecoder_Decode key (newIterator db (key, lockVer))) as [e| |l it];
    [constructor | apply Hf |].
  destruct (lock_startTS l =? s); [|apply Hf]. cbn [fst app].
  constructor; [exact Ht | constructor; [exact I | constructor]].
Qed.

Lemma flat_map_Forall {A C} (P : C -> Prop) (g : A -> list C) l :
  (forall x, In x l -> Forall P (g x)) -> Forall P (flat_map g l).
Proof.
  induction l as [|a l IH]; intros H; cbn [flat_map]; [constructor|].
  apply Forall_app. split; [apply H; now left | apply IH; intros x Hx; apply H; now right].
Qed.

Lemma lock_puts_ok b : lock_puts b -> Forall op_ok b.
Proof.
  unfold lock_puts. apply Forall_impl. intros op (key & l & ->). apply entry_ok_lock.
Qed.

Lemma Prewrite_loop_lock_puts db req :
  wf_db db = true ->
  forall ms i batch errs any batch' errs' any',
    lock_puts batch ->
    Prewrite_loop db req i ms batch errs any = Some (batch', errs', any') ->
    lock_puts batch'.
Proof.
  intros Hwf. induction ms as [|m ms IH]; intros i batch errs any batch' errs' any' Hb;
    cbn [Prewrite_loop].
  - intros H; inversion H; subst. exact Hb.
  - destruct (if (Op_eqb (Mutation_Op m) Op_Insert || Op_eqb (Mutation_Op m) Op_CheckNotExists)
                 && (ForUpdateTs req =? 0)
              then match getValue (newIterator db (Mutation_Key m, lockVer)) (Mutation_Key m)
                           (StartVersion req) IsolationLevel_SI (ResolvedLocks req) with
                   | inl err => Some err
                   | inr (Some _) => Some (ErrKeyAlreadyExist (Mutation_Key m))
                   | inr None => None
                   end
              else None) as [err|]; [now apply IH|].
    destruct (Op_eqb (Mutation_Op m) Op_CheckNotExists); [now apply IH|].
    destruct (if 0 <? len (IsPessimisticLock req)
              then nth_error (IsPessimisticLock req) i else Some false) as [f|]; [|discriminate].
    rewrite prewriteMutation_batch.
    apply IH. apply lock_puts_app. split; [exact Hb|].
    rewrite prewriteMutation_on by assumption.
    destruct (prewriteOn_ops (lockOf db (Mutation_Key m)) (writeEntries db (Mutation_Key m)) m
                (StartVersion req) (PrimaryLock req) (LockTtl req) (TxnSize req) f
                (MinCommitTs req) (ReqAssertionLevel req)) as [->|[l ->]].
    + constructor.
    + constructor; [|constructor]. now exists (Mutation_Key m), l.
Qed.

(** X10.  The engine keeps the store well formed: sorted by key and
    version, locks only in lock slots, write records under their commit
    timestamps.  [Prewrite] does for every request, [Commit] for every
    commit timestamp below the lock slot's version and [Rollback] for every
    start timestamp below it, whatever the calls return. *)
Theorem engine_keeps_wf :
  forall db : DB,
    wf_db db = true ->
    (forall req db' errs, Prewrite db req = Some (db', errs) -> wf_db db' = true)
    /\ (forall keys start_ts commit_ts,
          0 <= commit_ts < lockVer ->
          wf_db (fst (Commit db keys start_ts commit_ts)) = true)
    /\ (forall keys start_ts,
          0 <= start_ts < lockVer -> wf_db (fst (Rollback db keys start_ts)) = true).
Proof.
  intros db Hwf. split; [|split].
  - intros req db' errs. unfold Prewrite.
    destruct (Prewrite_loop db req 0 (Mutations req) [] [] false) as [[[batch es] any]|] eqn:El;
      [|discriminate].
    apply (Prewrite_loop_lock_puts db req Hwf) in El; [|constructor].
    destruct any; intros H; inversion H; subst; [exact Hwf|].
    apply Write_wf; [now apply lock_puts_ok | exact Hwf].
  - intros keys s c Hc. rewrite Commit_keys_eq.
    destruct (find _ keys); [exact Hwf|]. cbn [fst].
    apply Write_wf; [|exact Hwf]. apply flat_map_Forall. intros k _.
    now apply commitKey_ops_ok.
  - intros keys s Hs. rewrite Rollback_keys_eq.
    destruct (find _ keys); [exact Hwf|]. cbn [fst].
    apply Write_wf; [|exact Hwf]. apply flat_map_Forall. intros k _.
    now apply rollbackKey_ops_ok.
Qed.

End Engine_invariant.

Section Engine_invariant_witness.
Import kvrpcpb mocktikv mvcc_spec.

Lemma engine_keeps_wf_witness :
  (forall req db' errs, Prewrite scenario.locked req = Some (db', errs) -> wf_db db' = true)
  /\ (forall keys start_ts commit_ts,
        0 <= commit_ts < lockVer ->
        wf_db (fst (Commit scenario.locked keys start_ts commit_ts)) = true)
  /\ (forall keys start_ts,
        0 <= start_ts < lockVer -> wf_db (fst (Rollback scenario.locked keys start_ts)) = true).
Proof. apply (engine_keeps_wf scenario.locked). reflexivity. Defined.

End Engine_invariant_witness.

Section Commit_read.
Import kvrpcpb mocktikv mvcc_spec.

Lemma committed_commitTS l s c : value_commitTS (committed l s c) = c.
Proof. reflexivity. Qed.

(** The store after the lock of [key] is committed at [c]. *)
Lemma Write_commit db key l s c :
  wf_db db = true -> 0 <= c < lockVer ->
  let db' := Write db [BPut (key, c) (RValue (committed l s c)); BDelete (key, lockVer)] in
  wf_db db' = true
  /\ lockOf db' key = None
  /\ (forall v, In v (writesOf db' key)
                <-> v = committed l s c
                    \/ (In v (writesOf db key) /\ value_commitTS v <> c)).
Proof.
  intros Hwf Hc db'. subst db'. cbn [Write fold_left apply_op].
  pose proof (entry_ok_write_record key c (committed l s c) Hc eq_refl) as Hok.
  pose proof (db_put_wf _ _ _ Hok Hwf) as Hwf1.
  split; [now apply db_delete_wf|]. split.
  - rewrite lockOf_delete_lock, bytes_Equal_refl by now apply wf_db_sorted. reflexivity.
  - intros v. rewrite writesOf_delete_lock.
    rewrite (writesOf_put db key c (committed l s c) key v Hwf Hc eq_refl).
    split; (intros [[_ ->]|[H1 H2]] || intros [->|[H1 H2]]); auto.
Qed.

(** X11.  A committed value can be read.  When the transaction holds the
    lock of a key and commits it at [commit_ts], not below the lock's
    [min_commit_ts], the commit succeeds and removes the lock, and a read of
    the key at a timestamp from [commit_ts] on, with no other write record
    of the key between [commit_ts] and it, gives the locked value for a Put,
    nothing for a Delete, and what it gave before for a Lock. *)
Theorem Commit_then_Get :
  forall (db : DB) (key : bytes) (start_ts commit_ts ts : Z) (iso : IsolationLevel)
         (resolved : list Z) (l : mvccLock),
    wf_db db = true ->
    lockOf db key = Some l -> lock_startTS l = start_ts ->
    lock_minCommitTS l <= commit_ts -> 0 <= commit_ts < lockVer -> commit_ts <= ts ->
    (forall v, In v (writesOf db key) -> value_commitTS v < commit_ts \/ ts < value_commitTS v) ->
    exists db',
      Commit db [key] start_ts commit_ts = (db', None)
      /\ wf_db db' = true
      /\ lockOf db' key = None
      /\ Get db' key ts iso resolved
         = inr match lock_op l with
               | Op_Put => Some (lock_value l)
               | Op_Lock => read db key ts
               | _ => None
               end.
Proof.
  intros db key s c ts iso resolved l Hwf El Hs Hmin Hc Hts Hfresh.
  unfold Commit. cbn [Commit_loop].
  rewrite (commitKey_locked db [] key s c l Hwf El Hs).
  destruct (c <? lock_minCommitTS l) eqn:Elt; [apply Z.ltb_lt in Elt; lia|]. cbn [app].
  eexists. split; [reflexivity|].
  destruct (Write_commit db key l s c Hwf Hc) as (Hwf' & Hlock & Hin). cbv zeta in *.
  split; [exact Hwf'|]. split; [exact Hlock|].
  rewrite Get_as_spec by assumption. unfold Get_spec. rewrite Hlock. f_equal.
  unfold read.
  pose proof (writesOf_descending _ key Hwf') as Hd'.
  pose proof (writesOf_descending db key Hwf) as Hd.
  destruct (readable ts (committed l s c)) eqn:Er.
  - assert (Ef : find (readable ts)
                   (writesOf (Write db [BPut (key, c) (RValue (committed l s c));
                                        BDelete (key, lockVer)]) key)
                 = Some (committed l s c)).
    { apply (find_descending value_commitTS (readable ts) _ _ Hd').
      split; [apply Hin; now left|]. split; [exact Er|].
      intros v' Hv' Pv'. apply Hin in Hv' as [->|[Hv' Hne]]; [lia|].
      cbn [committed value_commitTS].
      destruct (Hfresh _ Hv') as [H|H]; [lia|].
      unfold readable in Pv'. destruct (valueType v'); try discriminate;
        apply Z.leb_le in Pv'; lia. }
    rewrite Ef. unfold readable, committed in *. cbn [valueType value_value] in *.
    destruct (lock_op l); try reflexivity; discriminate.
  - assert (Ef : find (readable ts)
                   (writesOf (Write db [BPut (key, c) (RValue (committed l s c));
                                        BDelete (key, lockVer)]) key)
                 = find (readable ts) (writesOf db key)).
    { apply (find_descending_ext value_commitTS); try assumption.
      intros v Pv. rewrite Hin. split.
      - intros [->|[H _]]; [congruence | exact H].
      - intros H. right. split; [exact H|].
        destruct (Hfresh _ H) as [H'|H']; [lia|].
        unfold readable in Pv. destruct (valueType v); try discriminate;
          apply Z.leb_le in Pv; lia. }
    rewrite Ef. unfold readable, committed in Er. cbn [valueType value_commitTS] in Er.
    destruct (lock_op l); try reflexivity;
      (apply Z.leb_gt in Er; lia).
Qed.

Lemma Commit_then_Get_witness :
  exists db',
    Commit scenario.locked [B "a"] 100 110 = (db', None)
    /\ wf_db db' = true
    /\ lockOf db' (B "a") = None
    /\ Get db' (B "a") 120 IsolationLevel_SI []
       = inr match lock_op scenario.lock_a with
             | Op_Put => Some (lock_value scenario.lock_a)
             | Op_Lock => read scenario.locked (B "a") 120
             | _ => None
             end.
Proof.
  apply (Commit_then_Get scenario.locked (B "a") 100 110 120 IsolationLevel_SI []
           scenario.lock_a); try reflexivity.
  - cbn. lia.
  - rewrite lockVer_eq. lia.
  - lia.
  - intros v [].
Defined.

(** X12.  A commit can be repeated.  When the transaction holds the lock
    of a key, has no write record on it yet and commits it, the same commit
    sent again succeeds and leaves the store as the first one left it. *)
Theorem Commit_replay :
  forall (db : DB) (key : bytes) (start_ts commit_ts : Z) (l : mvccLock),
    wf_db db = true ->
    lockOf db key = Some l -> lock_startTS l = start_ts ->
    lock_minCommitTS l <= commit_ts -> 0 <= commit_ts < lockVer ->
    writeOfTxn db key start_ts = None ->
    exists db',
      Commit db [key] start_ts commit_ts = (db', None)
      /\ writeOfTxn db' key start_ts = Some (committed l start_ts commit_ts)
      /\ Commit db' [key] start_ts commit_ts = (db', None).
Proof.
  intros db key s c l Hwf El Hs Hmin Hc Hnone.
  unfold Commit at 1. cbn [Commit_loop].
  rewrite (commitKey_locked db [] key s c l Hwf El Hs).
  destruct (c <? lock_minCommitTS l) eqn:Elt; [apply Z.ltb_lt in Elt; lia|]. cbn [app].
  eexists. split; [reflexivity|].
  destruct (Write_commit db key l s c Hwf Hc) as (Hwf' & Hlock & Hin). cbv zeta in *.
  assert (Ew : writeOfTxn (Write db [BPut (key, c) (RValue (committed l s c));
                                     BDelete (key, lockVer)]) key s
               = Some (committed l s c)).
  { unfold writeOfTxn.
    apply (find_descending value_commitTS _ _ _ (writesOf_descending _ key Hwf')).
    split; [apply Hin; now left|]. split; [apply Z.eqb_refl|].
    intros v' Hv' Pv'. apply Hin in Hv' as [->|[Hv' _]]; [lia|].
    unfold writeOfTxn in Hnone. rewrite find_none_iff in Hnone.
    rewrite (Hnone _ Hv') in Pv'. discriminate. }
  split; [exact Ew|].
  unfold Commit. cbn [Commit_loop].
  rewrite commitKey_unlocked; [|exact Hwf'|unfold lockedBy; now rewrite Hlock].
  rewrite Ew. unfold committed. cbn [valueType].
  destruct (lock_op l); reflexivity.
Qed.

Lemma Commit_replay_witness :
  exists db',
    Commit scenario.locked [B "a"] 100 110 = (db', None)
    /\ writeOfTxn db' (B "a") 100 = Some (committed scenario.lock_a 100 110)
    /\ Commit db' [B "a"] 100 110 = (db', None).
Proof.
  apply (Commit_replay scenario.locked (B "a") 100 110 scenario.lock_a); try reflexivity.
  - cbn. lia.
  - rewrite lockVer_eq. lia.
Defined.

End Commit_read.

Section Rollback_blocks.
Import kvrpcpb mocktikv mvcc_spec.

Lemma checkConflictValue_loop_rolled_back m s lvl gv nca iter v a b rv :
  valueType v = typeRollback -> value_commitTS v = s ->
  checkConflictValue_loop m s lvl gv nca iter v a b true rv
  = inl (ErrAlreadyRollbacked s (Mutation_Key m)).
Proof.
  intros Hty Hc. destruct iter; cbn [checkConflictValue_loop];
    rewrite Hty, Hc, Z.eqb_refl; reflexivity.
Qed.

(** The first of the write entries of a key is the newest. *)
Lemma write_run_head key e it v :
  write_run key (e :: it) ->
  StronglySorted (fun a b => value_commitTS b < value_commitTS a)
    (flat_map value_of (e :: it)) ->
  In v (flat_map value_of (e :: it)) ->
  exists v1, snd e = RValue v1 /\ has_key key e = true /\ (ver_of e =? lockVer) = false
             /\ (v = v1 \/ value_commitTS v < value_commitTS v1).
Proof.
  intros Hrun Hs Hin. inversion Hrun as [|? ? (Hk & Hv & v1 & Ev) _]; subst.
  exists v1. split; [exact Ev|]. split; [exact Hk|]. split; [exact Hv|].
  cbn [flat_map] in Hs, Hin. unfold value_of at 1 in Hs. unfold value_of at 1 in Hin.
  rewrite Ev in Hs, Hin. cbn [app] in Hs, Hin.
  apply StronglySorted_inv in Hs as [_ Hlt]. rewrite Forall_forall in Hlt.
  destruct Hin as [<-|Hin]; [now left | right; now apply Hlt].
Qed.

(** A prewrite by a transaction that has a tombstone on the key and does
    not hold its lock fails. *)
Lemma prewriteOn_rolled_back lk ws m s p ttl sz isP mc lvl :
  write_run (Mutation_Key m) ws ->
  StronglySorted (fun a b => value_commitTS b < value_commitTS a) (flat_map value_of ws) ->
  In (tombstone s) (flat_map value_of ws) ->
  match lk with Some l => (lock_startTS l =? s) = false | None => True end ->
  exists e, prewriteOn lk ws m s p ttl sz isP mc lvl = ([], Some e).
Proof.
  intros Hrun Hs Hin Hlk.
  assert (Hc : exists e, checkConflictValue ws m s s false lvl = inl e).
  { destruct ws as [|e it]; [contradiction|].
    destruct (write_run_head _ e it _ Hrun Hs Hin) as (v1 & Ev & Hk & Hv & Hmax).
    unfold checkConflictValue. rewrite (valueDecoder_write _ e v1 it Hk Hv Ev).
    destruct (s <? value_commitTS v1) eqn:Elt; [eexists; reflexivity|].
    apply Z.ltb_ge in Elt.
    destruct Hmax as [<-|Hlt]; [|cbn [tombstone value_commitTS] in Hlt; lia].
    rewrite checkConflictValue_loop_rolled_back by reflexivity. eexists; reflexivity. }
  destruct Hc as [e Hc]. unfold prewriteOn. destruct lk as [l|].
  - rewrite Hlk. cbn [negb]. eexists; reflexivity.
  - destruct isP; [eexists; reflexivity|]. rewrite Hc. eexists; reflexivity.
Qed.

Lemma turnOn_rolled_back req lk ws m f :
  write_run (Mutation_Key m) ws ->
  StronglySorted (fun a b => value_commitTS b < value_commitTS a) (flat_map value_of ws) ->
  In (tombstone (StartVersion req)) (flat_map value_of ws) ->
  match lk with Some l => (lock_startTS l =? StartVersion req) = false | None => True end ->
  Mutation_Op m <> Op_CheckNotExists ->
  exists e, turnOn req lk ws (m, f) = ([Some e], []).
Proof.
  intros Hrun Hs Hin Hlk Hop. unfold turnOn.
  destruct (if (Op_eqb (Mutation_Op m) Op_Insert || Op_eqb (Mutation_Op m) Op_CheckNotExists)
               && (ForUpdateTs req =? 0)
            then match getOn lk ws (Mutation_Key m) (StartVersion req) IsolationLevel_SI
                         (ResolvedLocks req) with
                 | inl err => Some err
                 | inr (Some _) => Some (ErrKeyAlreadyExist (Mutation_Key m))
                 | inr None => None
                 end
            else None) as [err|]; [eexists; reflexivity|].
  destruct (Op_eqb (Mutation_Op m) Op_CheckNotExists) eqn:Eop;
    [destruct (Mutation_Op m); try discriminate; now contradiction Hop|].
  destruct (prewriteOn_rolled_back lk ws m (StartVersion req) (PrimaryLock req) (LockTtl req)
              (TxnSize req) f (MinCommitTs req) (ReqAssertionLevel req) Hrun Hs Hin Hlk)
    as [e ->].
  eexists; reflexivity.
Qed.

Lemma flagged_covers req m :
  flags_ok req -> In m (Mutations req) -> exists f, In (m, f) (flagged req).
Proof.
  unfold flags_ok, flagged. generalize (flagsOf req). generalize (Mutations req).
  induction l as [|a l IH]; intros fl Hlen Hin; [contradiction|].
  destruct fl as [|f fl]; [discriminate|]. cbn [combine].
  destruct Hin as [->|Hin].
  - exists f. now left.
  - destruct (IH fl) as [f' Hf']; [cbn in Hlen; congruence | exact Hin|].
    exists f'. now right.
Qed.

(** The store after a tombstone is written, with or without the deletion
    of the lock. *)
Lemma Write_tombstone db key s (unlock : bool) :
  wf_db db = true -> 0 <= s < lockVer ->
  let db' := Write db (BPut (key, s) (RValue (tombstone s))
                       :: if unlock then [BDelete (key, lockVer)] else []) in
  wf_db db' = true
  /\ lockOf db' key = (if unlock then None else lockOf db key)
  /\ db_get (key, s) db' = Some (RValue (tombstone s))
  /\ (forall v, In v (writesOf db' key)
                <-> v = tombstone s \/ (In v (writesOf db key) /\ value_commitTS v <> s)).
Proof.
  intros Hwf Hs db'. subst db'.
  pose proof (entry_ok_write_record key s (tombstone s) Hs eq_refl) as Hok.
  pose proof (db_put_wf _ _ _ Hok Hwf) as Hwf1.
  assert (Hne : s <> lockVer) by lia.
  assert (Hin : forall v, In v (writesOf (db_put (key, s) (RValue (tombstone s)) db) key)
                          <-> v = tombstone s
                              \/ (In v (writesOf db key) /\ value_commitTS v <> s)).
  { intros v. rewrite (writesOf_put db key s (tombstone s) key v Hwf Hs eq_refl).
    split; (intros [[_ ->]|[H1 H2]] || intros [->|[H1 H2]]); auto. }
  destruct unlock; cbn [Write fold_left apply_op].
  - split; [now apply db_delete_wf|]. split.
    + rewrite lockOf_delete_lock, bytes_Equal_refl by now apply wf_db_sorted. reflexivity.
    + split.
      * rewrite db_get_delete_other by congruence. now rewrite db_get_put, mvcc_compare_refl.
      * intros v. rewrite writesOf_delete_lock. apply Hin.
  - split; [exact Hwf1|]. split; [now apply lockOf_put_write|].
    split; [now rewrite db_get_put, mvcc_compare_refl | exact Hin].
Qed.

(** X13.  A rollback shuts the transaction out of the key.  When the
    transaction has no write record on a key, [Rollback] succeeds and
    leaves its tombstone, whether it held the lock or not; from then on the
    transaction holds no lock on the key, a repeated [Rollback] succeeds
    without a change, every [Commit] of the key by the transaction fails
    with "txn not found", and every [Prewrite] of the transaction with a
    mutation of the key (other than [CheckNotExists]) returns an error and
    writes nothing: a prewrite that arrives after the rollback cannot lock
    the key. *)
Theorem Rollback_blocks_transaction :
  forall (db : DB) (key : bytes) (start_ts : Z),
    wf_db db = true -> 0 <= start_ts < lockVer ->
    writeOfTxn db key start_ts = None ->
    exists db1,
      Rollback db [key] start_ts = (db1, None)
      /\ wf_db db1 = true
      /\ lockedBy db1 key start_ts = false
      /\ db_get (key, start_ts) db1 = Some (RValue (tombstone start_ts))
      /\ Rollback db1 [key] start_ts = (db1, None)
      /\ (forall commit_ts,
            Commit db1 [key] start_ts commit_ts = (db1, Some (ErrRetryable "txn not found")))
      /\ (forall req m,
            flags_ok req -> StartVersion req = start_ts ->
            In m (Mutations req) -> Mutation_Key m = key ->
            Mutation_Op m <> Op_CheckNotExists ->
            exists errs, Prewrite db1 req = Some (db1, errs)
                         /\ exists e, In (Some e) errs).
Proof.
  intros db key s Hwf Hs Hnone.
  destruct (Write_tombstone db key s (lockedBy db key s) Hwf Hs) as (Hwf1 & Hlock & Hget & Hin).
  cbv zeta in Hwf1, Hlock, Hget, Hin.
  set (db1 := Write db (BPut (key, s) (RValue (tombstone s))
                        :: if lockedBy db key s then [BDelete (key, lockVer)] else [])) in *.
  assert (Hroll : Rollback db [key] s = (db1, None)).
  { unfold Rollback. cbn [Rollback_loop]. rewrite rollbackKey_spec_eq by assumption.
    rewrite rollbackKey_spec_cases, Hnone. subst db1.
    destruct (lockedBy db key s); reflexivity. }
  assert (Hlb : lockedBy db1 key s = false).
  { unfold lockedBy. rewrite Hlock. destruct (lockedBy db key s) eqn:E; [reflexivity|exact E]. }
  assert (Ew : writeOfTxn db1 key s = Some (tombstone s)).
  { unfold writeOfTxn.
    apply (find_descending value_commitTS _ _ _ (writesOf_descending _ key Hwf1)).
    split; [apply Hin; now left|]. split; [apply Z.eqb_refl|].
    intros v' Hv' Pv'. apply Hin in Hv' as [->|[Hv' _]]; [lia|].
    unfold writeOfTxn in Hnone. rewrite find_none_iff in Hnone.
    rewrite (Hnone _ Hv') in Pv'. discriminate. }
  exists db1. split; [exact Hroll|]. split; [exact Hwf1|]. split; [exact Hlb|].
  split; [exact Hget|]. split; [|split].
  - unfold Rollback. cbn [Rollback_loop]. rewrite rollbackKey_spec_eq by assumption.
    rewrite rollbackKey_spec_cases, Hlb, Ew. reflexivity.
  - intros c. unfold Commit. cbn [Commit_loop].
    rewrite commitKey_unlocked by assumption. rewrite Ew. reflexivity.
  - intros req m Hflags Hstart Hm Hkey Hop.
    rewrite (Prewrite_flat db1 req Hflags). cbv zeta.
    destruct (flagged_covers req m Hflags Hm) as [f Hf].
    assert (Hturn : exists e, prewriteTurn db1 req (m, f) = ([Some e], [])).
    { rewrite prewriteTurn_on by assumption. cbn [fst]. rewrite Hkey.
      apply turnOn_rolled_back.
      - rewrite Hkey. now apply writeEntries_run.
      - apply (writesOf_descending db1 key Hwf1).
      - rewrite Hstart. apply Hin. now left.
      - rewrite Hstart. unfold lockedBy in Hlb. destruct (lockOf db1 key); [exact Hlb | exact I].
      - exact Hop. }
    destruct Hturn as [e He].
    assert (Hine : In (Some e) (flat_map (fun t => fst (prewriteTurn db1 req t)) (flagged req))).
    { apply in_flat_map. exists (m, f). split; [exact Hf|]. rewrite He. now left. }
    assert (Hex : existsb is_err (flat_map (fun t => fst (prewriteTurn db1 req t)) (flagged req))
                  = true) by (apply existsb_is_err; now exists e).
    rewrite Hex. eexists. split; [reflexivity|]. now exists e.
Qed.

Lemma Rollback_blocks_transaction_witness :
  exists db1,
    Rollback scenario.locked [B "a"] 100 = (db1, None)
    /\ wf_db db1 = true
    /\ lockedBy db1 (B "a") 100 = false
    /\ db_get (B "a", 100) db1 = Some (RValue (tombstone 100))
    /\ Rollback db1 [B "a"] 100 = (db1, None)
    /\ (forall commit_ts,
          Commit db1 [B "a"] 100 commit_ts = (db1, Some (ErrRetryable "txn not found")))
    /\ (forall req m,
          flags_ok req -> StartVersion req = 100 ->
          In m (Mutations req) -> Mutation_Key m = B "a" ->
          Mutation_Op m <> Op_CheckNotExists ->
          exists errs, Prewrite db1 req = Some (db1, errs)
                       /\ exists e, In (Some e) errs).
Proof.
  apply (Rollback_blocks_transaction scenario.locked (B "a") 100); try reflexivity.
  rewrite lockVer_eq. lia.
Defined.

(** The prewrite that comes after the rollback. *)
Example Prewrite_after_Rollback :
  Prewrite (fst (Rollback scenario.locked [B "a"] 100))
    (scenario.request 100 [scenario.mutation Op_Put "a" "1"])
  = Some (fst (Rollback scenario.locked [B "a"] 100),
          [Some (ErrAlreadyRollbacked 100 (B "a"))]).
Proof. vm_compute. reflexivity. Qed.

End Rollback_blocks.
